(** * Speech-to-text backends of mycroft/stt/__init__.py

    A shallow embedding of the backend abstraction of the STT module:
    language resolution ([STT.init_language]), the credential mix-ins
    ([TokenSTT]), the synchronous backends with a per-call language
    override ([GoogleSTT], [IBMSTT], [YandexSTT]), the [requires_pairing]
    decorator, the [STTFactory.create] fallback and the threaded
    streaming pipeline ([StreamThread], [StreamingSTT]).

    Python values are modelled by [pyval], raised exceptions by [exn], a
    call that returns or raises by [result].  Calls that leave the process
    (HTTP requests, the speech_recognition package) are the nodes of a
    tree of interactions [io]; the caller and the worker threads of a
    streaming backend are the transitions of a small-step machine over a
    shared store of queues and thread objects.  Calls of the logger change
    nothing the module reads and are left out. *)

From Stdlib Require Import ZArith Ascii String List Lia Wellfounded Relation_Operators.
From stdpp Require Import base option strings list gmap pretty.

#[local] Set Warnings "-register-all".


(* ===================================================================== *)
(** ** Python values, exceptions, results *)
(* ===================================================================== *)

(** The response object of the [requests] package, as far as the module
    reads it. *)
Record Response := mkResponse { status_code : Z; text : string }.

(** The objects the module handles: the values a JSON configuration or a
    decoded reply is made of, and the response of an HTTP request.  A dict
    has string keys, as every dict that comes out of a JSON file has. *)
Inductive pyval :=
| VNone
| VBool (b : bool)
| VInt (z : Z)
| VStr (s : string)
| VList (l : list pyval)
| VDict (d : gmap string pyval)
| VResponse (r : Response).

(** Exceptions derived from Python's [Exception].  [HTTPError] is the class
    imported from [mycroft.api]; its [response] attribute may be [None]. *)
Inductive exn :=
| HTTPError (response : option Response)
| ValueError (msg : string)
| NotImplementedError
| AttributeError (msg : string)
| TypeError (msg : string)
| UnboundLocalError (msg : string)
| Exception_ (msg : string)
| OtherError (cls : string) (msg : string).

Inductive result (A : Type) :=
| Ok (a : A)
| Raise (e : exn).
Arguments Ok {A} a.
Arguments Raise {A} e.

#[global] Instance result_ret : MRet result := λ A a, Ok a.
#[global] Instance result_bind : MBind result := λ A B k r,
  match r with
  | Ok a => k a
  | Raise e => Raise e
  end.

(** Truth value of an object, as [not], [or] and [if] test it. *)
Definition truthy (v : pyval) : bool :=
  match v with
  | VNone => false
  | VBool b => b
  | VInt z => negb (z =? 0)%Z
  | VStr s => negb (String.eqb s "")
  | VList l => match l with [] => false | _ => true end
  | VDict d => negb (bool_decide (d = ∅))
  | VResponse r => (status_code r <? 400)%Z
  end.

(** Truth value of a string ([if not self.token], [language or self.lang]). *)
Definition str_truthy (s : string) : bool := negb (String.eqb s "").

(** [d.get(key, default)] on a dict. *)
Definition dict_get (d : gmap string pyval) (key : string) (default : pyval)
  : pyval :=
  match d !! key with
  | Some v => v
  | None => default
  end.

(** [language or self.lang]: the argument when it is a non-empty string,
    the stored language when it is [None] or empty. *)
Definition or_lang (language : option string) (lang : string) : string :=
  match language with
  | Some l => if str_truthy l then l else lang
  | None => lang
  end.

(** [o.get(key, default)] on any object: only a dict has the method. *)
Definition py_get (o : pyval) (key : string) (default : pyval) : result pyval :=
  match o with
  | VDict d => Ok (dict_get d key default)
  | _ => Raise (AttributeError "object has no attribute 'get'")
  end.

(* ===================================================================== *)
(** ** Strings: [split], [lower], [upper], [startswith] *)
(* ===================================================================== *)

(** Locale tags are ASCII text; [lower] and [upper] follow Python on the
    ASCII code points (the letters move, everything else stays).  Code
    points above 127 are outside what the model covers, and the theorems on
    case mapping ask for [is_ascii]. *)

Fixpoint string_forall (p : ascii → bool) (s : string) : bool :=
  match s with
  | EmptyString => true
  | String c s' => p c && string_forall p s'
  end.

Fixpoint string_map (f : ascii → ascii) (s : string) : string :=
  match s with
  | EmptyString => EmptyString
  | String c s' => String (f c) (string_map f s')
  end.

Definition lower_char (c : ascii) : ascii :=
  let n := nat_of_ascii c in
  if (65 <=? n)%nat && (n <=? 90)%nat then ascii_of_nat (n + 32) else c.

Definition upper_char (c : ascii) : ascii :=
  let n := nat_of_ascii c in
  if (97 <=? n)%nat && (n <=? 122)%nat then ascii_of_nat (n - 32) else c.

Definition lower : string → string := string_map lower_char.
Definition upper : string → string := string_map upper_char.

Definition is_ascii_char (c : ascii) : bool := (nat_of_ascii c <? 128)%nat.
Definition is_ascii : string → bool := string_forall is_ascii_char.

(** [s.split(sep)] for a separator of one character: one part more than
    there are separators, empty parts kept. *)
Fixpoint split (sep : ascii) (s : string) : list string :=
  match s with
  | EmptyString => [EmptyString]
  | String c s' =>
      if Ascii.eqb c sep then EmptyString :: split sep s'
      else match split sep s' with
           | p :: ps => String c p :: ps
           | [] => [String c EmptyString]
           end
  end.

Definition dash : ascii := "-"%char.

(** No separator inside: the string is one part of a tag. *)
Definition no_dash : string → bool :=
  string_forall (fun c => negb (Ascii.eqb c dash)).

(** [s.startswith(p)]. *)
Definition startswith (s p : string) : bool := String.prefix p s.

(* ===================================================================== *)
(** ** [STT.init_language] *)
(* ===================================================================== *)

(** Lines 47-50: the casing rule applied to the configured string. *)
Definition locale_case (lang : string) : string :=
  match split dash lang with
  | [l0; l1] => lower l0 +:+ "-" +:+ upper l1
  | _ => lang
  end.

(** [STT.init_language(config_core)].  [lang.split] exists on a string
    only; any other configured value makes the call raise. *)
Definition init_language (config_core : gmap string pyval) : result string :=
  match dict_get config_core "lang" (VStr "en-US") with
  | VStr lang => Ok (locale_case lang)
  | _ => Raise (AttributeError "object has no attribute 'split'")
  end.

(* ===================================================================== *)
(** ** Calls that leave the process *)
(* ===================================================================== *)

Definition bytes := list Byte.byte.

(** [speech_recognition.AudioData]. *)
Record AudioData := mkAudio {
  sample_rate : Z;
  sample_width : Z;
  frame_data : bytes
}.

(** The encodings an [AudioData] derives on demand; the conversion is the
    work of the speech_recognition package and stays symbolic. *)
Inductive payload :=
| get_flac_data (audio : AudioData) (convert_rate : option Z)
| get_wav_data (audio : AudioData) (convert_rate : option Z)
| get_raw_data (audio : AudioData) (convert_rate convert_width : option Z).

(** What the module asks of its collaborators. *)
Inductive request :=
| recognize_google (audio : AudioData) (key language : string)
| recognize_google_cloud (audio : AudioData)
                         (credentials_json language : string)
| recognize_wit (audio : AudioData) (key : string)
| recognize_bing (audio : AudioData) (key language : string)
| recognize_houndify (audio : AudioData) (client_id client_key : string)
| post (url : string) (auth : option (string * string))
       (headers params : list (string * string)) (data : payload)
| put (url : string) (data : payload)
| api_stt (path : string) (audio : payload) (language : string) (limit : Z).

(** A computation that may issue requests: each [Call] hands a request to
    the outside and goes on with what comes back, a value or a raised
    exception. *)
Inductive io (A : Type) :=
| Done (a : A)
| Call (rq : request) (k : result pyval → io A).
Arguments Done {A} a.
Arguments Call {A} rq k.

Fixpoint io_map {A B} (f : A → B) (m : io A) : io B :=
  match m with
  | Done a => Done (f a)
  | Call rq k => Call rq (fun r => io_map f (k r))
  end.

(** The requests a computation issues and its outcome when the outside
    answers with [replies], in order; [None] when the replies run out. *)
Fixpoint answer {A} (m : io A) (replies : list (result pyval))
  : option (list request * A) :=
  match m with
  | Done a => Some ([], a)
  | Call rq k =>
      match replies with
      | [] => None
      | r :: replies' =>
          match answer (k r) replies' with
          | Some (rqs, a) => Some (rq :: rqs, a)
          | None => None
          end
      end
  end.

(** A method of an object of class [S]: the object after the call, and the
    value returned or the exception raised. *)
Definition method (S : Type) : Type := io (S * result pyval).

(* ===================================================================== *)
(** ** [STT] and the credential mix-ins *)
(* ===================================================================== *)

Record STT := mkSTT {
  lang : string;
  config : pyval;
  credential : pyval;
  can_stream : bool
}.

Definition set_lang (l : string) (self : STT) : STT :=
  {| lang := l; config := config self; credential := credential self;
     can_stream := can_stream self |}.

(** [d.get(key, default)] where the key is itself a looked-up value: a
    list or a dict is not hashable, and no other non-string is a key of a
    JSON dict. *)
Definition py_get_key (o key default : pyval) : result pyval :=
  match o with
  | VDict d =>
      match key with
      | VStr k => Ok (dict_get d k default)
      | VList _ | VDict _ => Raise (TypeError "unhashable type")
      | _ => Ok default
      end
  | _ => Raise (AttributeError "object has no attribute 'get'")
  end.

(** [STT.__init__], on the dict [Configuration.get()] returns.  The
    [Recognizer] it creates holds no state the module reads. *)
Definition STT_init (config_core : gmap string pyval) : result STT :=
  lang ← init_language config_core;
  let config_stt := dict_get config_core "stt" (VDict ∅) in
  module ← py_get config_stt "module" VNone;
  config ← py_get_key config_stt module (VDict ∅);
  credential ← py_get config "credential" (VDict ∅);
  Ok {| lang := lang; config := config; credential := credential;
        can_stream := false |}.

Record TokenSTT := mkTokenSTT {
  token_base : STT;
  token : string
}.

Section Str.

(** [str(o)] for a list, a dict or a response is Python's [repr] of the
    object, which the module never inspects. *)
Variable container_repr : pyval → string.

Definition py_str (v : pyval) : string :=
  match v with
  | VNone => "None"
  | VBool true => "True"
  | VBool false => "False"
  | VInt z => pretty z
  | VStr s => s
  | _ => container_repr v
  end.

(** [TokenSTT.__init__]. *)
Definition TokenSTT_init (config_core : gmap string pyval) : result TokenSTT :=
  base ← STT_init config_core;
  tok ← py_get (credential base) "token" VNone;
  Ok {| token_base := base; token := py_str tok |}.

End Str.

Definition TokenSTT_set_lang (l : string) (self : TokenSTT) : TokenSTT :=
  {| token_base := set_lang l (token_base self); token := token self |}.

(* ===================================================================== *)
(** ** Synchronous backends *)
(* ===================================================================== *)

(** [GoogleSTT.execute]. *)
Definition GoogleSTT_execute (self : TokenSTT) (audio : AudioData)
    (language : option string) : method TokenSTT :=
  let self := TokenSTT_set_lang (or_lang language (lang (token_base self))) self in
  Call (recognize_google audio (token self) (lang (token_base self)))
       (fun r => Done (self, r)).

Definition dquote : string := Eval cbv in String (ascii_of_nat 34) EmptyString.

Definition IBM_supported_languages : list string :=
  [ "ar-AR"; "pt-BR"; "zh-CN"; "nl-NL"; "en-GB"; "en-US"; "fr-FR";
    "de-DE"; "it-IT"; "ja-JP"; "ko-KR"; "es-AR"; "es-ES"; "es-CL";
    "es-CO"; "es-MX"; "es-PE" ].

Definition str_in (s : string) (l : list string) : bool :=
  existsb (String.eqb s) l.

Section Vendors.

(** Lines 195-215 and 273-282 decode the vendor's reply; they read no
    field of the backend and are taken as they come. *)
Variable IBM_decode : Response → result pyval.
Variable Yandex_decode : Response → result pyval.

Definition on_response (decode : Response → result pyval)
    (r : result pyval) : result pyval :=
  match r with
  | Ok (VResponse resp) => decode resp
  | Ok _ => Raise (AttributeError "object has no attribute 'status_code'")
  | Raise e => Raise e
  end.

(** [IBMSTT.execute]. *)
Definition IBMSTT_execute (self : TokenSTT) (audio : AudioData)
    (language : option string) : method TokenSTT :=
  if negb (str_truthy (token self)) then
    Done (self, Raise (ValueError "API key (token) for IBM Cloud is not defined."))
  else
    match py_get (config (token_base self)) "url" (VStr "") with
    | Raise e => Done (self, Raise e)
    | Ok url_base =>
        if negb (truthy url_base) then
          Done (self, Raise (ValueError "URL for IBM Cloud is not defined."))
        else
          match url_base with
          | VStr url_base =>
              let url := url_base +:+ "/v1/recognize" in
              let self :=
                TokenSTT_set_lang (or_lang language (lang (token_base self))) self in
              let lang := lang (token_base self) in
              if negb (str_in lang IBM_supported_languages) then
                Done (self, Raise (ValueError
                  ("Unsupported language " +:+ dquote +:+ lang +:+ dquote
                   +:+ " for IBM STT.")))
              else
                let audio_model :=
                  if (sample_rate audio <? 16000)%Z
                     && negb (String.eqb lang "ar-AR")
                  then "NarrowbandModel" else "BroadbandModel" in
                let params :=
                  [ ("model", lang +:+ "_" +:+ audio_model);
                    ("profanity_filter", "false") ] in
                let headers :=
                  [ ("Content-Type", "audio/x-flac");
                    ("X-Watson-Learning-Opt-Out", "true") ] in
                Call (post url (Some ("apikey", token self)) headers params
                           (get_flac_data audio None))
                     (fun r => Done (self, on_response IBM_decode r))
          | _ => Done (self, Raise (TypeError "unsupported operand type(s) for +"))
          end
    end.

Record YandexSTT := mkYandexSTT {
  yandex_base : STT;
  api_key : pyval
}.

Definition YandexSTT_set_lang (l : string) (self : YandexSTT) : YandexSTT :=
  {| yandex_base := set_lang l (yandex_base self); api_key := api_key self |}.

Definition Yandex_supported_sample_rates : list Z := [8000; 16000; 48000]%Z.

(** Lines 251-259: the first supported rate above the source rate, the
    last one when there is none. *)
Definition Yandex_sample_rate (audio : AudioData) : Z :=
  let supported := Yandex_supported_sample_rates in
  if existsb (Z.eqb (sample_rate audio)) supported then sample_rate audio
  else
    match find (fun r => (sample_rate audio <? r)%Z) supported with
    | Some r => r
    | None => 48000%Z
    end.

(** [YandexSTT.execute]; [str(api_key)] is what [format] writes into the
    header. *)
Definition YandexSTT_execute (container_repr : pyval → string)
    (self : YandexSTT) (audio : AudioData)
    (language : option string) : method YandexSTT :=
  let self :=
    YandexSTT_set_lang (or_lang language (lang (yandex_base self))) self in
  let lang := lang (yandex_base self) in
  if negb (str_in lang ["en-US"; "ru-RU"; "tr-TR"]) then
    Done (self, Raise (ValueError
      ("Unsupported language '" +:+ lang +:+ "' for Yandex STT")))
  else
    let sample_rate := Yandex_sample_rate audio in
    let raw_data := get_raw_data audio (Some sample_rate) (Some 2%Z) in
    let url := "https://stt.api.cloud.yandex.net/speech/v1/stt:recognize" in
    let headers :=
      [ ("Authorization", "Api-Key " +:+ py_str container_repr (api_key self)) ] in
    let params :=
      "lang=" +:+ lang +:+ "&" +:+ "format=lpcm" +:+ "&"
      +:+ "sampleRateHertz=" +:+ pretty sample_rate in
    Call (post (url +:+ "?" +:+ params) None headers [] raw_data)
         (fun r => Done (self, on_response Yandex_decode r)).

End Vendors.

(* ===================================================================== *)
(** ** [requires_pairing] and [MycroftSTT] *)
(* ===================================================================== *)

(** The [except HTTPError as e] clause of the wrapper, on what the wrapped
    call returned or raised.  [e.response.status_code] on an error without
    a response raises in its turn. *)
Definition pairing_handler (r : result pyval) : result pyval :=
  match r with
  | Raise (HTTPError response) =>
      match response with
      | Some resp =>
          if (status_code resp =? 401)%Z then Ok (VStr "pair my device")
          else Raise (HTTPError response)
      | None =>
          Raise (AttributeError "'NoneType' object has no attribute 'status_code'")
      end
  | _ => r
  end.

(** [requires_pairing(func)]: the wrapper passes its arguments on and
    looks at the outcome; what [func] did to the object stays done. *)
Definition requires_pairing {Args S : Type} (func : Args → S → method S)
  : Args → S → method S :=
  fun args self =>
    io_map (fun out => (fst out, pairing_handler (snd out))) (func args self).

Record MycroftSTT := mkMycroftSTT {
  mycroft_base : STT;
  api : string
}.

Definition MycroftSTT_set_lang (l : string) (self : MycroftSTT) : MycroftSTT :=
  {| mycroft_base := set_lang l (mycroft_base self); api := api self |}.

(** [v[0]]. *)
Definition py_index0 (v : pyval) : result pyval :=
  match v with
  | VList (x :: _) => Ok x
  | VList [] => Raise (OtherError "IndexError" "list index out of range")
  | VStr (String c _) => Ok (VStr (String c EmptyString))
  | VStr EmptyString => Raise (OtherError "IndexError" "string index out of range")
  | VDict _ => Raise (OtherError "KeyError" "0")
  | _ => Raise (TypeError "object is not subscriptable")
  end.

(** The body of [MycroftSTT.execute], before decoration: a second request
    with the unconverted audio when anything goes wrong with the first. *)
Definition MycroftSTT_execute_body (args : AudioData * option string)
    (self : MycroftSTT) : method MycroftSTT :=
  let '(audio, language) := args in
  let self :=
    MycroftSTT_set_lang (or_lang language (lang (mycroft_base self))) self in
  let lang := lang (mycroft_base self) in
  Call (api_stt (api self) (get_flac_data audio (Some 16000%Z)) lang 1)
       (fun r =>
          match r ≫= py_index0 with
          | Ok v => Done (self, Ok v)
          | Raise _ =>
              Call (api_stt (api self) (get_flac_data audio None) lang 1)
                   (fun r => Done (self, r ≫= py_index0))
          end).

(** [MycroftSTT.execute]. *)
Definition MycroftSTT_execute : AudioData * option string → MycroftSTT →
                                method MycroftSTT :=
  requires_pairing MycroftSTT_execute_body.

(* ===================================================================== *)
(** ** [STTFactory] *)
(* ===================================================================== *)

Inductive stt_class :=
| MycroftSTT_class | GoogleSTT_class | GoogleCloudSTT_class
| GoogleCloudStreamingSTT_class | WITSTT_class | IBMSTT_class
| KaldiSTT_class | BingSTT_class | GoVivaceSTT_class | HoundifySTT_class
| DeepSpeechServerSTT_class | DeepSpeechStreamServerSTT_class
| MycroftDeepSpeechSTT_class | YandexSTT_class | BaiduSTT_class
| MicrosoftSTT_class
| plugin_class (name : string).

Definition CLASSES : gmap string stt_class :=
  list_to_map
    [ ("mycroft", MycroftSTT_class);
      ("google", GoogleSTT_class);
      ("google_cloud", GoogleCloudSTT_class);
      ("google_cloud_streaming", GoogleCloudStreamingSTT_class);
      ("wit", WITSTT_class);
      ("ibm", IBMSTT_class);
      ("kaldi", KaldiSTT_class);
      ("bing", BingSTT_class);
      ("govivace", GoVivaceSTT_class);
      ("houndify", HoundifySTT_class);
      ("deepspeech_server", DeepSpeechServerSTT_class);
      ("deepspeech_stream_server", DeepSpeechStreamServerSTT_class);
      ("mycroft_deepspeech", MycroftDeepSpeechSTT_class);
      ("yandex", YandexSTT_class);
      ("baidu", BaiduSTT_class);
      ("microsoft", MicrosoftSTT_class) ].

Definition is_str (v : pyval) (s : string) : bool :=
  match v with
  | VStr s' => String.eqb s' s
  | _ => false
  end.

Section Factory.

(** The instances the factory hands out. *)
Variable Backend : Type.

(** [load_plugin('mycroft.plugin.stt', module_name)], from
    [mycroft.util.plugins]: a class, or the failure of the search. *)
Variable load_stt_plugin : string → result stt_class.

(** [clazz()]: what the constructor of a class does when it is the
    [n]-th constructor call of one [create]. *)
Variable instantiate : nat → stt_class → result Backend.

(** Lines 757-761: the class of a module name. *)
Definition resolve (module : string) : result stt_class :=
  match CLASSES !! module with
  | Some clazz => Ok clazz
  | None => load_stt_plugin module
  end.

(** The [try] block once [module] is bound (lines 756-763).  Building
    the log line concatenates [module] to a string. *)
Definition create_attempt (module : pyval) : result Backend :=
  match module with
  | VStr module => clazz ← resolve module; instantiate 0 clazz
  | _ => Raise (TypeError "can only concatenate str to str")
  end.

(** [STTFactory.create()], on the dict [Configuration.get()] returns.
    When the [stt] entry is not a dict, the [try] block raises before
    [module] is bound and the handler's own test of [module] raises
    [UnboundLocalError]; its message is the one of Python up to 3.10,
    later versions word it differently. *)
Definition create (config_core : gmap string pyval) : result Backend :=
  match dict_get config_core "stt" (VDict ∅) with
  | VDict config =>
      let module := dict_get config "module" (VStr "mycroft") in
      match create_attempt module with
      | Ok backend => Ok backend
      | Raise e =>
          if negb (is_str module "mycroft") then instantiate 1 MycroftSTT_class
          else Raise e
      end
  | _ =>
      Raise (UnboundLocalError
               "local variable 'module' referenced before assignment")
  end.

End Factory.

(* ===================================================================== *)
(** ** Queues *)
(* ===================================================================== *)

(** What travels through the queue of a stream: a chunk of audio, or
    [None], which ends the stream. *)
Definition item : Type := option bytes.

(** [queue.Queue()], unbounded.  [put_log] is a history variable: every
    item ever put, in order; no operation reads it. *)
Record Queue := mkQueue {
  items : list item;
  unfinished_tasks : nat;
  put_log : list item
}.

Definition Queue_new : Queue :=
  {| items := []; unfinished_tasks := 0; put_log := [] |}.

(** [q.put(x)] never blocks on an unbounded queue. *)
Definition Queue_put (x : item) (q : Queue) : Queue :=
  {| items := items q ++ [x];
     unfinished_tasks := S (unfinished_tasks q);
     put_log := put_log q ++ [x] |}.

(** [q.get()]: [None] while the queue is empty and the caller blocks. *)
Definition Queue_get (q : Queue) : option (item * Queue) :=
  match items q with
  | [] => None
  | x :: rest =>
      Some (x, {| items := rest; unfinished_tasks := unfinished_tasks q;
                  put_log := put_log q |})
  end.

(** [q.task_done()]. *)
Definition Queue_task_done (q : Queue) : result Queue :=
  match unfinished_tasks q with
  | O => Raise (ValueError "task_done() called too many times")
  | S n => Ok {| items := items q; unfinished_tasks := n; put_log := put_log q |}
  end.

(* ===================================================================== *)
(** ** [StreamThread] *)
(* ===================================================================== *)

(** What [next(audio)] gives the code that iterates the generator of
    [_get_data]. *)
Inductive gen_reply :=
| Yielded (d : bytes)
| StopIteration
| GenRaised (e : exn).

(** The behaviours of the abstract [handle_audio_stream(audio, language)]:
    it asks the generator for the next chunk, assigns [self.text], returns
    or raises.  Every behaviour is a finite tree: a transport that never
    comes back is outside the model, and a handler that loops over its
    argument is the family of trees that read one chunk more each. *)
Inductive audio_handler :=
| next_chunk (k : gen_reply → audio_handler)
| set_text (t : option string) (k : audio_handler)
| handler_return
| handler_raise (e : exn).

(** The states of a Python generator. *)
Inductive gen_state := GEN_CREATED | GEN_RUNNING | GEN_SUSPENDED | GEN_CLOSED.

(** Where a thread is: not started, inside [handle_audio_stream], inside
    the generator at [d = self.queue.get()], or done with [run], which
    returned ([None]) or raised. *)
Inductive run_state :=
| not_started
| running (h : audio_handler)
| in_get (k : gen_reply → audio_handler)
| finished (e : option exn).

(** A [StreamThread] object.  [th_seen] is a history variable: the items
    the loop of [_get_data] took from the queue, in order. *)
Record StreamThread := mkStreamThread {
  th_language : string;
  th_queue : nat;
  th_text : option string;
  th_gen : gen_state;
  th_state : run_state;
  th_seen : list item
}.

Definition th_set_state (st : run_state) (th : StreamThread) : StreamThread :=
  {| th_language := th_language th; th_queue := th_queue th;
     th_text := th_text th; th_gen := th_gen th; th_state := st;
     th_seen := th_seen th |}.

Definition th_set_gen (g : gen_state) (th : StreamThread) : StreamThread :=
  {| th_language := th_language th; th_queue := th_queue th;
     th_text := th_text th; th_gen := g; th_state := th_state th;
     th_seen := th_seen th |}.

Definition th_set_text (t : option string) (th : StreamThread) : StreamThread :=
  {| th_language := th_language th; th_queue := th_queue th;
     th_text := t; th_gen := th_gen th; th_state := th_state th;
     th_seen := th_seen th |}.

Definition th_see (x : item) (th : StreamThread) : StreamThread :=
  {| th_language := th_language th; th_queue := th_queue th;
     th_text := th_text th; th_gen := th_gen th; th_state := th_state th;
     th_seen := th_seen th ++ [x] |}.

(** [StreamThread.__init__(queue, language)]. *)
Definition StreamThread_init (queue : nat) (language : string) : StreamThread :=
  {| th_language := language; th_queue := queue; th_text := None;
     th_gen := GEN_CREATED; th_state := not_started; th_seen := [] |}.

(** [next(audio)] up to the call of [self.queue.get()]: a fresh generator
    enters the loop, a suspended one first runs [self.queue.task_done()],
    a closed one raises [StopIteration] at once.  [inl]: the generator now
    stands at [get]; [inr]: the reply is there already. *)
Definition get_data_enter (th : StreamThread) (q : Queue)
  : (StreamThread * Queue) + (gen_reply * StreamThread) :=
  match th_gen th with
  | GEN_CREATED => inl (th_set_gen GEN_RUNNING th, q)
  | GEN_SUSPENDED =>
      match Queue_task_done q with
      | Ok q' => inl (th_set_gen GEN_RUNNING th, q')
      | Raise e => inr (GenRaised e, th_set_gen GEN_CLOSED th)
      end
  | GEN_CLOSED => inr (StopIteration, th)
  | GEN_RUNNING => inr (GenRaised (ValueError "generator already executing"), th)
  end.

(** [d = self.queue.get()] and what follows: [None] ends the loop and the
    generator, anything else is yielded.  No result while the queue is
    empty. *)
Definition get_data_get (th : StreamThread) (q : Queue)
  : option (gen_reply * StreamThread * Queue) :=
  match Queue_get q with
  | None => None
  | Some (None, q') => Some (StopIteration, th_set_gen GEN_CLOSED (th_see None th), q')
  | Some (Some d, q') =>
      Some (Yielded d, th_set_gen GEN_SUSPENDED (th_see (Some d) th), q')
  end.

(** One step of a started thread on its queue; [None] when the thread is
    blocked in [get], has not started or is done. *)
Definition StreamThread_step (th : StreamThread) (q : Queue)
  : option (StreamThread * Queue) :=
  match th_state th with
  | running (next_chunk k) =>
      match get_data_enter th q with
      | inl (th', q') => Some (th_set_state (in_get k) th', q')
      | inr (r, th') => Some (th_set_state (running (k r)) th', q)
      end
  | in_get k =>
      match get_data_get th q with
      | Some (r, th', q') => Some (th_set_state (running (k r)) th', q')
      | None => None
      end
  | running (set_text t k) => Some (th_set_state (running k) (th_set_text t th), q)
  | running handler_return => Some (th_set_state (finished None) th, q)
  | running (handler_raise e) => Some (th_set_state (finished (Some e)) th, q)
  | not_started | finished _ => None
  end.

(** [t.is_alive()]. *)
Definition is_alive (th : StreamThread) : bool :=
  match th_state th with
  | running _ | in_get _ => true
  | not_started | finished _ => false
  end.

(** [StreamThread.run] when the thread is alone with its queue: the handler
    [h] goes on, step after step as in [StreamThread_step], until it is
    done or the queue has nothing left for a pending [get]. *)
Fixpoint StreamThread_run (h : audio_handler) (th : StreamThread) (q : Queue)
  : StreamThread * Queue :=
  match h with
  | next_chunk k =>
      match get_data_enter th q with
      | inl (th', q') =>
          match get_data_get th' q' with
          | Some (r, th'', q'') => StreamThread_run (k r) th'' q''
          | None => (th_set_state (in_get k) th', q')
          end
      | inr (r, th') => StreamThread_run (k r) th' q
      end
  | set_text t k => StreamThread_run k (th_set_text t th) q
  | handler_return => (th_set_state (finished None) th, q)
  | handler_raise e => (th_set_state (finished (Some e)) th, q)
  end.

(** The same from any state of the thread. *)
Definition resume (th : StreamThread) (q : Queue) : StreamThread * Queue :=
  match th_state th with
  | running h => StreamThread_run h th q
  | in_get k =>
      match get_data_get th q with
      | Some (r, th', q') => StreamThread_run (k r) th' q'
      | None => (th, q)
      end
  | not_started | finished _ => (th, q)
  end.

(** A handler that iterates its [audio] argument to the end when the
    generator yields [chunks]: it asks for the next chunk after each of
    them, and neither returns nor raises before the generator is
    exhausted. *)
Fixpoint drains (h : audio_handler) (chunks : list bytes) : Prop :=
  match h with
  | next_chunk k =>
      match chunks with
      | d :: chunks' => drains (k (Yielded d)) chunks'
      | [] => True
      end
  | set_text _ k => drains k chunks
  | handler_return => False
  | handler_raise _ => False
  end.

(* ===================================================================== *)
(** ** [StreamingSTT] *)
(* ===================================================================== *)

(** The two streaming backends of the module. *)
Inductive streaming_class := DeepSpeechStreamServerSTT | GoogleCloudStreamingSTT.

(** A [StreamingSTT] object.  [stream] and [queue] hold the addresses of a
    thread and of a queue in the store; [queue] is [None] also before the
    first [stream_start], when the attribute does not exist yet.
    [language] is the attribute [GoogleCloudStreamingSTT.__init__] adds. *)
Record StreamingSTT := mkStreamingSTT {
  class : streaming_class;
  streaming_base : STT;
  language : string;
  stream : option nat;
  queue : option nat
}.

Definition set_stream (t : option nat) (self : StreamingSTT) : StreamingSTT :=
  {| class := class self; streaming_base := streaming_base self;
     language := language self; stream := t; queue := queue self |}.

Definition set_queue (q : option nat) (self : StreamingSTT) : StreamingSTT :=
  {| class := class self; streaming_base := streaming_base self;
     language := language self; stream := stream self; queue := q |}.

(** [StreamingSTT.__init__] on top of an initialised base. *)
Definition StreamingSTT_init (c : streaming_class) (base : STT) (language : string)
  : StreamingSTT :=
  {| class := c;
     streaming_base := {| lang := lang base; config := config base;
                          credential := credential base; can_stream := true |};
     language := language; stream := None; queue := None |}.

(** The calls of the streaming interface. *)
Inductive call :=
| stream_start (language : option string)
| stream_data (data : bytes)
| stream_stop
| execute (audio : AudioData) (language : option string).

(** What [stream_stop] goes on with once [self.stream.join()] returns: it
    returns the text to its caller, or it was called by [stream_start]. *)
Inductive after_join :=
| return_text
| then_start (language : option string).

(** Where the calling thread is: between calls, blocked in [join], or in
    [stream_start] past its call of [stream_stop]. *)
Inductive program_counter :=
| at_call
| joining (k : after_join)
| starting (language : option string).

(** The store (queues and thread objects by address), the backend, and
    the calling thread: the calls it still has to make and what the calls
    made so far returned or raised. *)
Record system := mkSystem {
  stt : StreamingSTT;
  queues : list Queue;
  threads : list StreamThread;
  pc : program_counter;
  todo : list call;
  results : list (result (option string))
}.

Definition set_caller (p : program_counter) (cs : list call)
    (rs : list (result (option string))) (s : system) : system :=
  {| stt := stt s; queues := queues s; threads := threads s;
     pc := p; todo := cs; results := rs |}.

Section Pipeline.

(** What [handle_audio_stream] of the [n]-th thread object does, given
    its [language] argument: the transport of that stream. *)
Variable transport : nat → string → audio_handler.

(** [create_streaming_thread()] of the two classes: a new queue, stored
    in [self.queue], and a thread object bound to it.  The constructor
    of [DeepSpeechStreamThread] refuses a language that is not English. *)
Definition create_streaming_thread (self : StreamingSTT) (qs : list Queue)
  : StreamingSTT * list Queue * result StreamThread :=
  let q := length qs in
  let qs := qs ++ [Queue_new] in
  let self := set_queue (Some q) self in
  match class self with
  | DeepSpeechStreamServerSTT =>
      let language := lang (streaming_base self) in
      if negb (startswith language "en") then
        (self, qs, Raise (ValueError "Deepspeech is currently english only"))
      else (self, qs, Ok (StreamThread_init q language))
  | GoogleCloudStreamingSTT =>
      (self, qs, Ok (StreamThread_init q (language self)))
  end.

(** [Thread.start()] on the thread at address [t]: [run] calls
    [handle_audio_stream(self._get_data(), self.language)]. *)
Definition Thread_start (t : nat) (th : StreamThread) : StreamThread :=
  th_set_state (running (transport t (th_language th))) th.

(** Lines 426-429 of [stream_start], after its call of [stream_stop].
    The local [language] is computed and not used. *)
Definition stream_start_body (language : option string) (s : system)
  : system :=
  let self := stt s in
  let language := or_lang language (lang (streaming_base self)) in
  let q := length (queues s) in
  let qs := queues s ++ [Queue_new] in
  let self := set_queue (Some q) self in
  match create_streaming_thread self qs with
  | (self, qs, Raise e) =>
      {| stt := self; queues := qs; threads := threads s;
         pc := at_call; todo := todo s; results := results s ++ [Raise e] |}
  | (self, qs, Ok th) =>
      let t := length (threads s) in
      {| stt := set_stream (Some t) self; queues := qs;
         threads := threads s ++ [Thread_start t th];
         pc := at_call; todo := todo s; results := results s ++ [Ok None] |}
  end.

(** Lines 447-449 of [stream_stop] when [self.stream] is not [None]:
    the end mark is put and the caller stands at [join]. *)
Definition stream_stop_begin (k : after_join) (s : system) : system :=
  match queue (stt s) with
  | Some q =>
      {| stt := stt s; queues := alter (Queue_put None) q (queues s);
         threads := threads s; pc := joining k; todo := todo s;
         results := results s |}
  | None =>
      set_caller at_call (todo s)
        (results s ++ [Raise (AttributeError
           "'NoneType' object has no attribute 'put'")]) s
  end.

(** Lines 449-455 of [stream_stop]: [join] returns once the thread is
    done; the text is read, both references are dropped. *)
Definition stream_stop_end (k : after_join) (s : system) : option system :=
  match stream (stt s) with
  | Some t =>
      match threads s !! t with
      | Some th =>
          match th_state th with
          | finished _ =>
              let text := th_text th in
              let self := set_queue None (set_stream None (stt s)) in
              Some match k with
                   | return_text =>
                       {| stt := self; queues := queues s; threads := threads s;
                          pc := at_call; todo := todo s;
                          results := results s ++ [Ok text] |}
                   | then_start language =>
                       {| stt := self; queues := queues s; threads := threads s;
                          pc := starting language; todo := todo s;
                          results := results s |}
                   end
          | not_started =>
              Some (set_caller at_call (todo s)
                      (results s ++ [Raise (OtherError "RuntimeError"
                         "cannot join thread before it is started")]) s)
          | running _ | in_get _ => None
          end
      | None => None
      end
  | None => None
  end.

(** [stream_stop()] from its first line. *)
Definition stream_stop_call (s : system) : system :=
  match stream (stt s) with
  | Some _ => stream_stop_begin return_text s
  | None => set_caller at_call (todo s) (results s ++ [Ok None]) s
  end.

(** [stream_start(language)] from its first line. *)
Definition stream_start_call (language : option string) (s : system)
  : system :=
  match stream (stt s) with
  | Some _ => stream_stop_begin (then_start language) s
  | None => stream_start_body language s
  end.

(** [stream_data(data)].  Without a queue the call raises
    [AttributeError]; its message names [put] when [self.queue] is
    [None] and [queue] when the attribute does not exist yet, which the
    record does not keep apart: the message here is the former. *)
Definition stream_data_call (data : bytes) (s : system) : system :=
  match queue (stt s) with
  | Some q =>
      {| stt := stt s; queues := alter (Queue_put (Some data)) q (queues s);
         threads := threads s; pc := at_call; todo := todo s;
         results := results s ++ [Ok None] |}
  | None =>
      set_caller at_call (todo s)
        (results s ++ [Raise (AttributeError
           "'NoneType' object has no attribute 'put'")]) s
  end.

(** [execute(audio, language)]: [return self.stream_stop()]. *)
Definition execute_call (audio : AudioData) (language : option string)
    (s : system) : system :=
  stream_stop_call s.

(** One step of the calling thread; [None] when it waits in [join] or
    has no call left. *)
Definition caller_step (s : system) : option system :=
  match pc s with
  | at_call =>
      match todo s with
      | [] => None
      | c :: rest =>
          let s := set_caller at_call rest (results s) s in
          Some match c with
               | stream_start language => stream_start_call language s
               | stream_data data => stream_data_call data s
               | stream_stop => stream_stop_call s
               | execute audio language => execute_call audio language s
               end
      end
  | joining k => stream_stop_end k s
  | starting language => Some (stream_start_body language s)
  end.

(** One step of the thread at address [t]. *)
Definition worker_step (t : nat) (s : system) : option system :=
  match threads s !! t with
  | Some th =>
      match queues s !! th_queue th with
      | Some q =>
          match StreamThread_step th q with
          | Some (th', q') =>
              Some {| stt := stt s;
                      queues := <[th_queue th := q']> (queues s);
                      threads := <[t := th']> (threads s);
                      pc := pc s; todo := todo s; results := results s |}
          | None => None
          end
      | None => None
      end
  | None => None
  end.

Inductive thread_id :=
| caller
| worker (t : nat).

Definition thread_step (i : thread_id) (s : system) : option system :=
  match i with
  | caller => caller_step s
  | worker t => worker_step t s
  end.

(** The steps the system can take, in any interleaving. *)
Definition step (s s' : system) : Prop :=
  ∃ i, thread_step i s = Some s'.

(** The system under a schedule; a thread that cannot move when its turn
    comes leaves the state as it is. *)
Fixpoint run (sched : list thread_id) (s : system) : system :=
  match sched with
  | [] => s
  | i :: sched' =>
      match thread_step i s with
      | Some s' => run sched' s'
      | None => run sched' s
      end
  end.

End Pipeline.

(** A backend fresh from its constructor, about to make [calls]. *)
Definition boot (c : streaming_class) (base : STT) (language : string)
    (calls : list call) : system :=
  {| stt := StreamingSTT_init c base language; queues := []; threads := [];
     pc := at_call; todo := calls; results := [] |}.

(** One stream from start to stop. *)
Definition session (chunks : list bytes) : list call :=
  stream_start None :: map stream_data chunks ++ [stream_stop].

(** The threads that run. *)
Definition live_workers (s : system) : nat :=
  length (filter (fun th => is_alive th = true) (threads s)).

(** The store and the backend, which is all the threads share. *)
Definition shared (s : system) : StreamingSTT * list Queue * list StreamThread :=
  (stt s, queues s, threads s).

(* ===================================================================== *)
(** ** What holds of a running pipeline *)
(* ===================================================================== *)

(** Several [put]s in a row. *)
Definition put_all (xs : list item) (q : Queue) : Queue :=
  fold_left (fun q x => Queue_put x q) xs q.

(** The thread object as [Thread.start()] left it. *)
Definition rewind (transport : nat → string → audio_handler) (t : nat)
    (th : StreamThread) : StreamThread :=
  Thread_start transport t (StreamThread_init (th_queue th) (th_language th)).

(** The open stream: the thread [th] at address [t] and its queue [q]. *)
Record stream_inv (transport : nat → string → audio_handler) (s : system)
    (t : nat) (th : StreamThread) (q : Queue) : Prop := {
  (** the backend puts into the queue the thread reads *)
  si_queue : queue (stt s) = Some (th_queue th);
  si_started : th_state th ≠ not_started;
  si_in_get : ∀ k, th_state th = in_get k → th_gen th = GEN_RUNNING;
  (** [task_done] has a task to sign off *)
  si_tasks :
    length (items q) + (match th_gen th with GEN_SUSPENDED => 1 | _ => 0 end)
    ≤ unfinished_tasks q;
  (** first in, first out: taken and waiting items are the items put *)
  si_fifo : th_seen th ++ items q = put_log q;
  (** whatever is put next, the thread ends where it would have ended had
      it run alone on a queue that held from the start all that was and
      will be put *)
  si_alone : ∀ xs,
    resume th (put_all xs q)
    = resume (rewind transport t th) (put_all (put_log q ++ xs) Queue_new);
  (** while the caller waits in [join], the end mark is in the queue or
      has closed the generator *)
  si_mark : ∀ k, pc s = joining k → In None (items q) ∨ th_gen th = GEN_CLOSED
}.

Record invariant (transport : nat → string → audio_handler) (s : system)
  : Prop := {
  inv_stream : ∀ t, stream (stt s) = Some t →
    ∃ th q, threads s !! t = Some th ∧ queues s !! th_queue th = Some q
            ∧ stream_inv transport s t th q;
  (** every thread but the one of the open stream is done *)
  inv_others : ∀ i th, threads s !! i = Some th → stream (stt s) ≠ Some i →
    ∃ e, th_state th = finished e;
  inv_pc : match pc s with
           | at_call => True
           | joining _ => stream (stt s) ≠ None
           | starting _ => stream (stt s) = None
           end
}.

(** The caller has made all its calls. *)
Definition caller_done (s : system) : Prop := pc s = at_call ∧ todo s = [].

(** The steps the caller has left at most. *)
Definition caller_cost (s : system) : nat :=
  3 * length (todo s)
  + match pc s with
    | at_call => 0
    | joining return_text => 1
    | joining (then_start _) => 2
    | starting _ => 1
    end.

(** [run_lt st' st]: a step of a thread leads from [st] to [st']. *)
Inductive run_lt : run_state → run_state → Prop :=
| run_lt_enter k : run_lt (in_get k) (running (next_chunk k))
| run_lt_reply k r : run_lt (running (k r)) (running (next_chunk k))
| run_lt_get k r : run_lt (running (k r)) (in_get k)
| run_lt_text t k : run_lt (running k) (running (set_text t k))
| run_lt_return : run_lt (finished None) (running handler_return)
| run_lt_raise e : run_lt (finished (Some e)) (running (handler_raise e)).

(** One element of a list gets smaller, the others stay. *)
Inductive list_lt {A : Type} (R : A → A → Prop) : list A → list A → Prop :=
| list_lt_here x' x l : R x' x → list_lt R (x' :: l) (x :: l)
| list_lt_later x l' l : list_lt R l' l → list_lt R (x :: l') (x :: l).

(** What gets smaller with every step of the system. *)
Definition measure (s : system) : nat * list run_state :=
  (caller_cost s, map th_state (threads s)).

Definition measure_lt : nat * list run_state → nat * list run_state → Prop :=
  slexprod nat (list run_state) lt (list_lt run_lt).

(** The language the thread of a backend is bound to, and whether the
    constructor of the thread accepts it. *)
Definition thread_language (self : StreamingSTT) : string :=
  match class self with
  | DeepSpeechStreamServerSTT => lang (streaming_base self)
  | GoogleCloudStreamingSTT => language self
  end.

Definition thread_accepts (self : StreamingSTT) : bool :=
  match class self with
  | DeepSpeechStreamServerSTT => startswith (lang (streaming_base self)) "en"
  | GoogleCloudStreamingSTT => true
  end.

(** The first thread of a backend, as started: its queue is the second
    one allocated. *)
Definition first_thread (transport : nat → string → audio_handler)
    (self : StreamingSTT) : StreamThread :=
  Thread_start transport 0 (StreamThread_init 1 (thread_language self)).

(** What [handle_audio_stream] assigns no text in. *)
Fixpoint sets_no_text (h : audio_handler) : Prop :=
  match h with
  | next_chunk k => ∀ r, sets_no_text (k r)
  | set_text _ _ => False
  | handler_return => True
  | handler_raise _ => True
  end.

(** All that one session puts into its queue. *)
Definition stream_of (chunks : list bytes) : list item :=
  map Some chunks ++ [None].

(** The states of a backend fresh from its constructor that runs one
    session: before [stream_start], while chunks are sent, inside
    [stream_stop], and after it. *)
Inductive session_state (transport : nat → string → audio_handler)
    (c : streaming_class) (base : STT) (language : string)
    (chunks : list bytes) : system → Prop :=
| session_boot :
    session_state transport c base language chunks
      (boot c base language (session chunks))
| session_streaming s th q rest n :
    stream (stt s) = Some 0 → threads s = [th] → queues s !! 1 = Some q →
    th_queue th = 1 →
    th_language th = thread_language (StreamingSTT_init c base language) →
    pc s = at_call → todo s = map stream_data rest ++ [stream_stop] →
    put_log q ++ stream_of rest = stream_of chunks →
    results s = repeat (Ok None) n → n + length rest = S (length chunks) →
    session_state transport c base language chunks s
| session_stopping s th q :
    stream (stt s) = Some 0 → threads s = [th] → queues s !! 1 = Some q →
    th_queue th = 1 →
    th_language th = thread_language (StreamingSTT_init c base language) →
    pc s = joining return_text → todo s = [] →
    put_log q = stream_of chunks →
    results s = repeat (Ok None) (S (length chunks)) →
    session_state transport c base language chunks s
| session_stopped s th q :
    pc s = at_call → todo s = [] →
    stream (stt s) = None → queue (stt s) = None →
    threads s = [th] → queues s !! 1 = Some q →
    resume (first_thread transport (StreamingSTT_init c base language))
           (put_all (stream_of chunks) Queue_new) = (th, q) →
    (∃ e, th_state th = finished e) →
    th_seen th ++ items q = stream_of chunks →
    results s = repeat (Ok None) (S (length chunks)) ++ [Ok (th_text th)] →
    session_state transport c base language chunks s.

(** The first thread as it ends when it runs alone on a queue that holds
    the whole stream of a session. *)
Definition alone (transport : nat → string → audio_handler)
    (self : StreamingSTT) (chunks : list bytes) : StreamThread :=
  (resume (first_thread transport self) (put_all (stream_of chunks) Queue_new)).1.

(** Two continuations of one state side by side: [s1] goes on with
    [stream_start], [s2] with [stream_stop] and then [stream_start]. *)
Inductive start_twice (language : option string) (rest : list call)
  : system → system → Prop :=
| start_twice_call s1 s2 :
    shared s1 = shared s2 → stream (stt s1) ≠ None →
    pc s1 = at_call → todo s1 = stream_start language :: rest →
    pc s2 = at_call → todo s2 = stream_stop :: stream_start language :: rest →
    start_twice language rest s1 s2
| start_twice_join s1 s2 :
    shared s1 = shared s2 →
    pc s1 = joining (then_start language) → todo s1 = rest →
    pc s2 = joining return_text → todo s2 = stream_start language :: rest →
    start_twice language rest s1 s2
| start_twice_body s1 s2 :
    shared s1 = shared s2 → stream (stt s1) = None →
    pc s1 = starting language → todo s1 = rest →
    pc s2 = at_call → todo s2 = stream_start language :: rest →
    start_twice language rest s1 s2
| start_twice_after s1 s2 :
    shared s1 = shared s2 → pc s1 = pc s2 → todo s1 = todo s2 →
    start_twice language rest s1 s2.


(* ===================================================================== *)
(** ** The stop of an open stream *)
(* ===================================================================== *)

(** The call that ends with [k] once [join] has returned. *)
Definition call_of (k : after_join) (c : call) : Prop :=
  match k, c with
  | return_text, stream_stop => True
  | return_text, execute _ _ => True
  | then_start l, stream_start l' => l' = l
  | _, _ => False
  end.

Section Stop.

(** The thread of the open stream and its queue, by address; the thread
    as it will end; what had been put into the queue when the call was
    made; what the call goes on with after [join]; the results and the
    calls the caller had and will have around the call; the threads and
    queues there were. *)
Variables (t tq : nat) (final : StreamThread) (log : list item).
Variables (k : after_join) (rs : list (result (option string))).
Variables (rest : list call) (nt nq : nat).

(** The call has returned. *)
Definition after_stop (s : system) : Prop :=
  match k with
  | return_text =>
      results s = rs ++ [Ok (th_text final)]
      ∧ stream (stt s) = None ∧ queue (stt s) = None
      ∧ length (threads s) = nt
  | then_start _ =>
      (results s = rs ++ [Ok None]
       ∧ stream (stt s) = Some nt ∧ queue (stt s) = Some (S nq)
       ∧ length (threads s) = S nt
       ∧ ∃ th', threads s !! nt = Some th' ∧ th_queue th' = S nq
                ∧ th_state th' ≠ not_started)
      ∨ (results s
         = rs ++ [Raise (ValueError "Deepspeech is currently english only")]
         ∧ stream (stt s) = None
         ∧ length (threads s) = nt)
  end.

(** The states a call that stops the open stream leads through: the
    call is about to be made; the end mark is put and the caller waits in
    [join]; [stream_start] is past its [stream_stop]; the call has
    returned; the caller has gone on to its next calls. *)
Inductive stop_phase : system → Prop :=
| stop_called s th q c :
    pc s = at_call → todo s = c :: rest → call_of k c → results s = rs →
    stream (stt s) = Some t → threads s !! t = Some th →
    th_queue th = tq → queues s !! tq = Some q → put_log q = log →
    (resume th (Queue_put None q)).1 = final →
    length (threads s) = nt → length (queues s) = nq →
    stop_phase s
| stop_joining s th q :
    pc s = joining k → todo s = rest → results s = rs →
    stream (stt s) = Some t → threads s !! t = Some th →
    th_queue th = tq → queues s !! tq = Some q → put_log q = log ++ [None] →
    (resume th q).1 = final →
    length (threads s) = nt → length (queues s) = nq →
    stop_phase s
| stop_starting s l q e :
    k = then_start l →
    pc s = starting l → todo s = rest → results s = rs →
    stream (stt s) = None → queue (stt s) = None →
    threads s !! t = Some final → th_state final = finished e →
    queues s !! tq = Some q → put_log q = log ++ [None] →
    length (threads s) = nt → length (queues s) = nq →
    stop_phase s
| stop_returned s q e :
    pc s = at_call → todo s = rest →
    threads s !! t = Some final → th_state final = finished e →
    queues s !! tq = Some q → put_log q = log ++ [None] →
    after_stop s →
    stop_phase s
| stop_beyond s e :
    length (todo s) < length rest →
    threads s !! t = Some final → th_state final = finished e →
    stop_phase s.

End Stop.

Section Session.

(** A session begun when no stream is open: the handlers; the address
    the thread of the session gets and the one of its queue; the language
    the thread is bound to; the results the caller had; the argument of
    [stream_start]; the chunks sent. *)
Variable transport : nat → string → audio_handler.
Variables (t0 q0 : nat) (lang0 : string).
Variables (rs0 : list (result (option string))) (l0 : option string).
Variable chunks : list bytes.

(** The states of the session: before [stream_start], while chunks are
    sent, inside [stream_stop], and after it. *)
Inductive session_from : system → Prop :=
| session_idle s :
    pc s = at_call →
    todo s = stream_start l0 :: map stream_data chunks ++ [stream_stop] →
    results s = rs0 → stream (stt s) = None →
    length (threads s) = t0 → S (length (queues s)) = q0 →
    thread_language (stt s) = lang0 → thread_accepts (stt s) = true →
    session_from s
| session_open s th q rest n :
    stream (stt s) = Some t0 → threads s !! t0 = Some th →
    queues s !! q0 = Some q → th_queue th = q0 → th_language th = lang0 →
    length (threads s) = S t0 →
    pc s = at_call → todo s = map stream_data rest ++ [stream_stop] →
    put_log q ++ stream_of rest = stream_of chunks →
    results s = rs0 ++ repeat (Ok None) n → n + length rest = S (length chunks) →
    session_from s
| session_closing s th q :
    stream (stt s) = Some t0 → threads s !! t0 = Some th →
    queues s !! q0 = Some q → th_queue th = q0 → th_language th = lang0 →
    length (threads s) = S t0 →
    pc s = joining return_text → todo s = [] →
    put_log q = stream_of chunks →
    results s = rs0 ++ repeat (Ok None) (S (length chunks)) →
    session_from s
| session_closed s th q :
    pc s = at_call → todo s = [] →
    stream (stt s) = None → queue (stt s) = None →
    threads s !! t0 = Some th → length (threads s) = S t0 →
    queues s !! q0 = Some q →
    resume (Thread_start transport t0 (StreamThread_init q0 lang0))
           (put_all (stream_of chunks) Queue_new) = (th, q) →
    (∃ e, th_state th = finished e) →
    th_seen th ++ items q = stream_of chunks →
    results s
    = rs0 ++ repeat (Ok None) (S (length chunks)) ++ [Ok (th_text th)] →
    session_from s.

End Session.
(* ===================================================================== *)
(** ** Sample objects *)
(* ===================================================================== *)

Definition some_audio : AudioData :=
  {| sample_rate := 16000; sample_width := 2; frame_data := [] |}.

Definition some_mycroft : MycroftSTT :=
  {| mycroft_base := {| lang := "en-US"; config := VDict ∅;
                        credential := VDict ∅; can_stream := false |};
     api := "stt" |}.

Definition unauthorized : result pyval :=
  Raise (HTTPError (Some {| status_code := 401; text := "" |})).

Definition no_repr : pyval → string := fun _ => "".

Definition google_empty_token : gmap string pyval :=
  {[ "stt" := VDict {[ "module" := VStr "google";
                       "google" := VDict {[ "credential" :=
                                              VDict {[ "token" := VStr "" ]} ]} ]} ]}.

Definition tokenless : TokenSTT :=
  {| token_base := {| lang := "en-US";
                      config := VDict {[ "credential" :=
                                           VDict {[ "token" := VStr "" ]} ]};
                      credential := VDict {[ "token" := VStr "" ]};
                      can_stream := false |};
     token := "" |}.


Definition ibm_empty_token : gmap string pyval :=
  {[ "stt" := VDict {[ "module" := VStr "ibm";
                       "ibm" := VDict {[ "credential" :=
                                           VDict {[ "token" := VStr "" ]};
                                         "url" := VStr "https://ibm" ]} ]} ]}.


Definition ibm_ready : TokenSTT :=
  {| token_base := {| lang := "en-US";
                      config := VDict {[ "url" := VStr "https://ibm" ]};
                      credential := VDict ∅; can_stream := false |};
     token := "key" |}.

Definition english : STT :=
  {| lang := "en-US"; config := VDict ∅; credential := VDict ∅;
     can_stream := false |}.

Definition chunk_a : bytes := [Byte.x01; Byte.x02].
Definition chunk_b : bytes := [Byte.x03].

(** A handler that reads its argument to the end, for up to [n] chunks,
    and then does [k]: the upload of [DeepSpeechStreamThread]. *)
Fixpoint read_chunks (n : nat) (k : audio_handler) : audio_handler :=
  match n with
  | O => next_chunk (fun _ => k)
  | S n' =>
      next_chunk (fun r =>
        match r with
        | Yielded _ => read_chunks n' k
        | _ => k
        end)
  end.

Definition upload_all (n : nat) (l : string) : audio_handler :=
  read_chunks 2 (set_text (Some "hello") handler_return).

(** A handler in the manner of [GoogleStreamThread]: a final result is
    recorded after the first chunk, then the transport fails. *)
Definition result_then_error (n : nat) (l : string) : audio_handler :=
  next_chunk (fun _ =>
    set_text (Some "hello")
      (next_chunk (fun _ =>
         handler_raise (OtherError "TransportError" "stream broken")))).

(** A handler whose transport fails before any result. *)
Definition error_at_once (n : nat) (l : string) : audio_handler :=
  next_chunk (fun _ =>
    handler_raise (OtherError "TransportError" "stream broken")).

(** The caller runs first as far as it can, then the worker, then the
    caller again. *)
Definition caller_first : list thread_id :=
  repeat caller 4 ++ repeat (worker 0) 12 ++ repeat caller 4.

(** The two threads take turns. *)
Definition by_turns : list thread_id :=
  concat (repeat [caller; worker 0; worker 0] 12).

Definition ok_reply : result pyval :=
  Ok (VResponse {| status_code := 200; text := "" |}).

Definition yandex_ready : YandexSTT :=
  {| yandex_base := {| lang := "en-US"; config := VDict ∅;
                       credential := VDict {[ "api_key" := VStr "key" ]};
                       can_stream := false |};
     api_key := VStr "key" |}.

Definition ibm_without_token : gmap string pyval :=
  {[ "stt" := VDict {[ "module" := VStr "ibm";
                       "ibm" := VDict {[ "credential" := VDict ∅;
                                         "url" := VStr "https://ibm" ]} ]} ]}.

Definition ibm_base : STT :=
  {| lang := "en-US";
     config := VDict {[ "credential" := VDict ∅; "url" := VStr "https://ibm" ]};
     credential := VDict ∅; can_stream := false |}.


(** One session, a second [stream_start] and a chunk; the second thread
    has taken the chunk. *)
Definition second_stream : list thread_id :=
  caller_first ++ repeat caller 2 ++ repeat (worker 1) 3.

(** The caller and the second thread take turns. *)
Definition second_by_turns : list thread_id :=
  concat (repeat [caller; worker 1; worker 1] 12).
(* ===================================================================== *)
(** ** More of the synchronous backends *)
(* ===================================================================== *)

(** [self.config.get('lang') or self.lang] where the stored language is a
    string: the configured value when it is a non-empty string, the
    stored one when the configured value is false.  A configured value
    that is true and not a string would be stored as it is; the records
    here hold strings, and there is no answer for it. *)
Definition lang_override (v : pyval) (lang : string) : option string :=
  match v with
  | VStr s => Some (if str_truthy s then s else lang)
  | _ => if truthy v then None else Some lang
  end.

(** [YandexSTT.__init__]: the key is looked at once language and key are
    read, and a missing key ends the construction. *)
Definition YandexSTT_init (config_core : gmap string pyval)
  : option (result YandexSTT) :=
  match STT_init config_core with
  | Raise e => Some (Raise e)
  | Ok base =>
      match py_get (config base) "lang" VNone with
      | Raise e => Some (Raise e)
      | Ok configured =>
          match py_get (credential base) "api_key" VNone with
          | Raise e => Some (Raise e)
          | Ok VNone =>
              Some (Raise (ValueError "API key for Yandex STT is not defined"))
          | Ok key =>
              match lang_override configured (lang base) with
              | Some l =>
                  Some (Ok {| yandex_base := set_lang l base; api_key := key |})
              | None => None
              end
          end
      end
  end.

Section Json.

(** [json.loads], from the standard library. *)
Variable json_loads : string → result pyval.

(** Lines 273-282 of [YandexSTT.execute].  A reply with status 200 whose
    body carries an error code runs off the end of the function, which
    returns [None]. *)
Definition Yandex_decode_response (response : Response) : result pyval :=
  if (status_code response =? 200)%Z then
    result ← json_loads (text response);
    error_code ← py_get result "error_code" VNone;
    match error_code with
    | VNone => py_get result "result" VNone
    | _ => Ok VNone
    end
  else if (status_code response =? 401)%Z then
    Raise (Exception_ "Invalid API key for Yandex STT")
  else
    Raise (Exception_ ("Request to Yandex STT failed: code: "
                       +:+ pretty (status_code response) +:+ ", body: "
                       +:+ text response)).

End Json.

(** [MycroftDeepSpeechSTT]: the fields of the base class and the API. *)
Record MycroftDeepSpeechSTT := mkMycroftDeepSpeechSTT {
  deepspeech_base : STT;
  deepspeech_api : string
}.

(** The body of [MycroftDeepSpeechSTT.execute], before decoration.  The
    local [language] decides whether the call goes on; the request is
    made with [self.lang]. *)
Definition MycroftDeepSpeechSTT_execute_body (args : AudioData * option string)
    (self : MycroftDeepSpeechSTT) : method MycroftDeepSpeechSTT :=
  let '(audio, language) := args in
  let language := or_lang language (lang (deepspeech_base self)) in
  if negb (startswith language "en") then
    Done (self, Raise (ValueError "Deepspeech is currently english only"))
  else
    Call (api_stt (deepspeech_api self) (get_wav_data audio None)
                  (lang (deepspeech_base self)) 1)
         (fun r => Done (self, r)).

(** [MycroftDeepSpeechSTT.execute]. *)
Definition MycroftDeepSpeechSTT_execute
  : AudioData * option string → MycroftDeepSpeechSTT →
    method MycroftDeepSpeechSTT :=
  requires_pairing MycroftDeepSpeechSTT_execute_body.

(* ===================================================================== *)
(** ** [KaldiSTT.get_response] *)
(* ===================================================================== *)

(** [v[key]] for a string key. *)
Definition py_getitem (v : pyval) (key : string) : result pyval :=
  match v with
  | VDict d =>
      match d !! key with
      | Some x => Ok x
      | None => Raise (OtherError "KeyError" key)
      end
  | VList _ => Raise (TypeError "list indices must be integers or slices, not str")
  | VStr _ => Raise (TypeError "string indices must be integers")
  | _ => Raise (TypeError "object is not subscriptable")
  end.

(** The characters [\s] matches among the ASCII code points. *)
Definition is_space (c : ascii) : bool :=
  let n := nat_of_ascii c in
  ((9 <=? n)%nat && (n <=? 13)%nat) || ((28 <=? n)%nat && (n <=? 32)%nat).

Fixpoint skip_spaces (s : string) : string :=
  match s with
  | String c s' => if is_space c then skip_spaces s' else s
  | EmptyString => s
  end.

Fixpoint drop_prefix (p s : string) : option string :=
  match p, s with
  | EmptyString, _ => Some s
  | String a p', String b s' => if Ascii.eqb a b then drop_prefix p' s' else None
  | String _ _, EmptyString => None
  end.

(** A match of [\s*\[noise\]\s*] at the head of [s]: what is left of [s]
    behind it. *)
Definition match_noise (s : string) : option string :=
  match drop_prefix "[noise]" (skip_spaces s) with
  | Some rest => Some (skip_spaces rest)
  | None => None
  end.

(** [re.sub(r'\s*\[noise\]\s*', '', s)]: the matches are looked for from
    left to right, each behind the one before, and taken out. *)
Fixpoint sub_noise (fuel : nat) (s : string) : string :=
  match fuel with
  | O => s
  | S fuel' =>
      match s with
      | EmptyString => EmptyString
      | String c s' =>
          match match_noise s with
          | Some rest => sub_noise fuel' rest
          | None => String c (sub_noise fuel' s')
          end
      end
  end.

Definition re_sub_noise (s : string) : string := sub_noise (String.length s) s.

(** [KaldiSTT.get_response(response)], on what [response.json()] returns
    or raises: anything that goes wrong gives [None]. *)
Definition KaldiSTT_get_response (json : result pyval) : pyval :=
  let attempt :=
    body ← json;
    hypotheses ← py_getitem body "hypotheses";
    first ← py_index0 hypotheses;
    utterance ← py_getitem first "utterance";
    match utterance with
    | VStr u => Ok (VStr (re_sub_noise u))
    | _ => Raise (TypeError "expected string or bytes-like object")
    end in
  match attempt with
  | Ok v => v
  | Raise _ => VNone
  end.

(** [c in s] for one character, and the last character of a string. *)
Fixpoint contains (c : ascii) (s : string) : bool :=
  match s with
  | EmptyString => false
  | String c' s' => Ascii.eqb c' c || contains c s'
  end.

Fixpoint str_last (s : string) : option ascii :=
  match s with
  | EmptyString => None
  | String c EmptyString => Some c
  | String _ s' => str_last s'
  end.

(* ===================================================================== *)
(** ** [BaiduSTT] *)
(* ===================================================================== *)

Section Baidu.

(** [AipSpeech(appid, api_key, secret_key)], from the vendor's package:
    the client, or the error of its constructor. *)
Variable Client : Type.
Variable AipSpeech : pyval → pyval → pyval → result Client.

(** A [BaiduSTT] object.  The language is whatever the configuration
    holds, not always a string, and has a field of its own. *)
Record BaiduSTT := mkBaiduSTT {
  baidu_base : STT;
  baidu_lang : pyval;
  baidu_sample_rate : pyval;
  per : pyval;
  dev_pid : pyval;
  format : string;
  client : Client
}.

(** [BaiduSTT.__init__], once the vendor's package is imported. *)
Definition BaiduSTT_init (config_core : gmap string pyval) : result BaiduSTT :=
  base ← STT_init config_core;
  lang ← py_getitem (config base) "lang";
  sample_rate ← py_getitem (config base) "sample_rate";
  sample_rate ←
    match sample_rate with
    | VNone => Ok (VInt 16000)
    | _ => py_getitem (config base) "sample_rate"
    end;
  per ← py_getitem (config base) "per";
  per ←
    match per with
    | VNone => Ok (VInt 0)
    | _ => py_getitem (config base) "per"
    end;
  dev_pid ← py_getitem (config base) "dev_pid";
  appid ← py_getitem (config base) "appid";
  api_key ← py_getitem (credential base) "api_key";
  secret_key ← py_getitem (credential base) "secret_key";
  client ← AipSpeech appid api_key secret_key;
  Ok {| baidu_base := base; baidu_lang := lang;
        baidu_sample_rate := sample_rate; per := per; dev_pid := dev_pid;
        format := "pcm"; client := client |}.

End Baidu.

(** [v == z] for an integer [z]; [False == 0] and [True == 1] hold. *)
Definition py_eq_int (v : pyval) (z : Z) : bool :=
  match v with
  | VInt x => (x =? z)%Z
  | VBool b => (Z.b2z b =? z)%Z
  | _ => false
  end.

Fixpoint join_strs (l : list pyval) : option string :=
  match l with
  | [] => Some EmptyString
  | VStr s :: l' =>
      match join_strs l' with
      | Some r => Some (s +:+ r)
      | None => None
      end
  | _ => None
  end.

(** [''.join(v)].  A dict is joined by its keys in the order they were
    inserted, which a [gmap] does not keep: there is no answer for a
    dict with keys. *)
Definition str_join (v : pyval) : option (result pyval) :=
  match v with
  | VList l =>
      Some match join_strs l with
           | Some s => Ok (VStr s)
           | None => Raise (TypeError "sequence item: expected str instance")
           end
  | VStr s => Some (Ok (VStr s))
  | VDict d => if bool_decide (d = ∅) then Some (Ok (VStr "")) else None
  | _ => Some (Raise (TypeError "can only join an iterable"))
  end.

(** Lines 665-671 of [BaiduSTT.execute], on what [client.asr] returned.
    Both branches read the entry they log. *)
Definition BaiduSTT_decode (res : pyval) : option (result pyval) :=
  match py_getitem res "err_no" with
  | Raise e => Some (Raise e)
  | Ok err_no =>
      if py_eq_int err_no 0 then
        match py_getitem res "result" with
        | Raise e => Some (Raise e)
        | Ok result => str_join result
        end
      else
        match py_getitem res "err_msg" with
        | Raise e => Some (Raise e)
        | Ok _ => Some (Ok (VStr ""))
        end
  end.

(* ===================================================================== *)
(** ** The other backends that call a recognizer *)
(* ===================================================================== *)

(** [WITSTT.execute]: the language is not looked at. *)
Definition WITSTT_execute (self : TokenSTT) (audio : AudioData)
    (language : option string) : method TokenSTT :=
  Call (recognize_wit audio (token self)) (fun r => Done (self, r)).

(** [BingSTT.execute]. *)
Definition BingSTT_execute (self : TokenSTT) (audio : AudioData)
    (language : option string) : method TokenSTT :=
  let self := TokenSTT_set_lang (or_lang language (lang (token_base self))) self in
  Call (recognize_bing audio (token self) (lang (token_base self)))
       (fun r => Done (self, r)).







(** [GoVivaceSTT]: a token backend with a default address. *)
Record GoVivaceSTT := mkGoVivaceSTT {
  govivace_base : TokenSTT;
  default_uri : string
}.

(** [GoVivaceSTT.__init__]: the language is tested, the token is not. *)
Definition GoVivaceSTT_init (container_repr : pyval → string)
    (config_core : gmap string pyval) : result GoVivaceSTT :=
  base ← TokenSTT_init container_repr config_core;
  let self :=
    {| govivace_base := base;
       default_uri := "https://services.govivace.com:49149/telephony" |} in
  let lang := lang (token_base base) in
  if negb (startswith lang "en") && negb (startswith lang "es") then
    Raise NotImplementedError
  else Ok self.

Section GoVivace.

(** [response.json()], from the requests package. *)
Variable Response_json : Response → result pyval.

(** [GoVivaceSTT.get_response]. *)
Definition GoVivaceSTT_get_response (response : Response) : result pyval :=
  body ← Response_json response;
  result ← py_getitem body "result";
  hypotheses ← py_getitem result "hypotheses";
  first ← py_index0 hypotheses;
  py_getitem first "transcript".

(** [GoVivaceSTT.execute]: the token goes into the address as it is; the
    language is not looked at. *)
Definition GoVivaceSTT_execute (self : GoVivaceSTT) (audio : AudioData)
    (language : option string) : method GoVivaceSTT :=
  match py_get (config (token_base (govivace_base self))) "uri"
               (VStr (default_uri self)) with
  | Raise e => Done (self, Raise e)
  | Ok (VStr uri) =>
      let url :=
        uri +:+ "?key=" +:+ token (govivace_base self)
        +:+ "&action=find&format=8K_PCM16&validation_string=" in
      Call (put url (get_wav_data audio (Some 8000%Z)))
           (fun r => Done (self, on_response GoVivaceSTT_get_response r))
  | Ok _ => Done (self, Raise (TypeError "unsupported operand type(s) for +"))
  end.

End GoVivace.


(* ===================================================================== *)
(** ** More of what holds of a running pipeline *)
(* ===================================================================== *)

(** The generator of a thread is where the state of the thread says:
    at [get] inside of it, or outside of it. *)
Definition gen_ok (th : StreamThread) : Prop :=
  match th_state th with
  | in_get _ => th_gen th = GEN_RUNNING
  | _ => th_gen th ≠ GEN_RUNNING
  end.

(** The calls that have not returned or raised yet: the one under way
    and those to come. *)
Definition calls_open (s : system) : nat :=
  length (todo s) + match pc s with at_call => 0 | _ => 1 end.

(** What a call gives on a [DeepSpeechStreamServerSTT] whose language
    is not English: [stream_start] raises the [ValueError] of the thread
    constructor; a call returns [None]; [stream_data] raises
    [AttributeError] for want of a queue. *)
Inductive refused_outcome := start_refused | returned_none | no_queue.

Definition is_outcome (o : refused_outcome) (r : result (option string))
  : Prop :=
  match o with
  | start_refused =>
      r = Raise (ValueError "Deepspeech is currently english only")
  | returned_none => r = Ok None
  | no_queue => ∃ msg, r = Raise (AttributeError msg)
  end.

(** What the calls give, one after the other; [has_queue]: [self.queue]
    has been assigned. *)
Fixpoint refused_outcomes (has_queue : bool) (calls : list call)
  : list refused_outcome :=
  match calls with
  | [] => []
  | stream_start _ :: calls' => start_refused :: refused_outcomes true calls'
  | stream_data _ :: calls' =>
      (if has_queue then returned_none else no_queue)
      :: refused_outcomes has_queue calls'
  | stream_stop :: calls' | execute _ _ :: calls' =>
      returned_none :: refused_outcomes has_queue calls'
  end.

Definition is_stream_start (c : call) : bool :=
  match c with
  | stream_start _ => true
  | _ => false
  end.

(* ===================================================================== *)
(** ** [mycroft/util/audio_utils.py] *)
(* ===================================================================== *)

(** The environment of a process: [os.environ], or the dict a caller
    hands over. *)
Abbreviation environ := (gmap string string).

Section Audio.

Variable container_repr : pyval → string.

(** [os.environ], when the module was loaded and now. *)
Variable os_environ_loaded : environ.
Variable os_environ : environ.

(** [subprocess.Popen(cmdline, env=environment)]: the process, or the
    error of the launch. *)
Variable process : Type.
Variable Popen : list string → environ → result process.

(** [os.path.splitext], from the standard library. *)
Variable splitext : string → string * string.

(** Lines 63-64. *)
Definition _ENVIRONMENT : environ :=
  <["PULSE_PROP" := "media.role=music"]> os_environ_loaded.

Definition _get_pulse_environment (config : pyval) : result environ :=
  tts_config ← py_get config "tts" (VDict ∅);
  if truthy tts_config then
    pulse_duck ← py_get tts_config "pulse_duck" VNone;
    Ok (if truthy pulse_duck then _ENVIRONMENT else os_environ)
  else Ok os_environ.

(** Lines 88-89 of [_play_cmd]: the command line is cut at every space
    and each piece [%1] gives way to the uri. *)
Definition play_cmdline (cmd : pyval) (uri : string) : list string :=
  let cmd_elements := split " "%char (py_str container_repr cmd) in
  map (fun e => if negb (String.eqb e "%1") then e else uri) cmd_elements.

(** [_play_cmd] up to its call of [Popen]: the arguments of that call.
    An empty dict for [environment] is false, like [None]. *)
Definition _play_cmd_arguments (cmd : pyval) (uri : string) (config : pyval)
    (environment : option environ) : result (list string * environ) :=
  environment ←
    match environment with
    | Some env =>
        if bool_decide (env = ∅) then _get_pulse_environment config else Ok env
    | None => _get_pulse_environment config
    end;
  Ok (play_cmdline cmd uri, environment).

Definition _play_cmd (cmd : pyval) (uri : string) (config : pyval)
    (environment : option environ) : result process :=
  args ← _play_cmd_arguments cmd uri config environment;
  Popen args.1 args.2.

(** The [try] block of [play_wav], [play_mp3] and [play_ogg]: every
    exception of [_play_cmd] is logged and gives [None]. *)
Definition launch (cmd : pyval) (uri : string) (config : gmap string pyval)
    (environment : option environ) : option process :=
  match _play_cmd cmd uri (VDict config) environment with
  | Ok p => Some p
  | Raise _ => None
  end.

(** [play_wav], on the dict [Configuration.get()] returns: the command
    line is read with [config['play_wav_cmdline']], before the [try]. *)
Definition play_wav (config : gmap string pyval) (uri : string)
    (environment : option environ) : result (option process) :=
  play_wav_cmd ← py_getitem (VDict config) "play_wav_cmdline";
  Ok (launch play_wav_cmd uri config environment).

(** [play_mp3] and [play_ogg] read theirs with [config.get]. *)
Definition play_mp3 (config : gmap string pyval) (uri : string)
    (environment : option environ) : result (option process) :=
  let play_mp3_cmd := dict_get config "play_mp3_cmdline" VNone in
  Ok (launch play_mp3_cmd uri config environment).

Definition play_ogg (config : gmap string pyval) (uri : string)
    (environment : option environ) : result (option process) :=
  let play_ogg_cmd := dict_get config "play_ogg_cmdline" VNone in
  Ok (launch play_ogg_cmd uri config environment).

(** [play_audio_file]: the function found for the extension is called
    with two arguments; [play_wav_sync] and [play_mp3_sync] take one. *)
Definition play_audio_file (config : gmap string pyval) (uri : string)
    (environment : option environ) : result (option process) :=
  let extension := (splitext uri).2 in
  if String.eqb (lower extension) ".wav" then
    Raise (TypeError
             "play_wav_sync() takes 1 positional argument but 2 were given")
  else if String.eqb (lower extension) ".mp3" then
    Raise (TypeError
             "play_mp3_sync() takes 1 positional argument but 2 were given")
  else if String.eqb (lower extension) ".ogg" then
    play_ogg config uri environment
  else Ok None.

End Audio.

Definition yandex_without_key : gmap string pyval :=
  {[ "stt" := VDict {[ "module" := VStr "yandex";
                       "yandex" := VDict {[ "credential" := VDict ∅ ]} ]} ]}.

Definition yandex_base_without_key : STT :=
  {| lang := "en-US"; config := VDict {[ "credential" := VDict ∅ ]};
     credential := VDict ∅; can_stream := false |}.

Definition some_deepspeech : MycroftDeepSpeechSTT :=
  {| deepspeech_base := {| lang := "de-DE"; config := VDict ∅;
                           credential := VDict ∅; can_stream := false |};
     deepspeech_api := "deepspeech" |}.

Definition error_body : gmap string pyval :=
  {[ "error_code" := VStr "UNAUTHORIZED"; "result" := VStr "ignored" ]}.

Definition german : STT :=
  {| lang := "de-DE"; config := VDict ∅; credential := VDict ∅;
     can_stream := false |}.

Definition paplay : pyval := VStr "paplay %1 --stream-name=mycroft-voice".

Definition no_process : list string → environ → result nat :=
  fun _ _ => Raise (OtherError "FileNotFoundError" "").

Definition first_process : list string → environ → result nat :=
  fun _ _ => Ok 1.

Definition ext_ogg : string → string * string := fun s => (s, ".OGG").
Definition ext_wav : string → string * string := fun s => (s, ".Wav").

Definition baidu_config : gmap string pyval :=
  {[ "stt" := VDict {[ "module" := VStr "baidu";
                       "baidu" := VDict {[ "lang" := VStr "zh";
                                           "per" := VNone;
                                           "dev_pid" := VInt 1537;
                                           "appid" := VStr "id" ]} ]} ]}.

Definition baidu_base_sample : STT :=
  {| lang := "en-US";
     config := VDict {[ "lang" := VStr "zh"; "per" := VNone;
                        "dev_pid" := VInt 1537; "appid" := VStr "id" ]};
     credential := VDict ∅; can_stream := false |}.

Definition baidu_error : pyval :=
  VDict {[ "err_no" := VInt 3301; "err_msg" := VStr "speech quality error." ]}.

(* ===================================================================== *)
(** ** Facts on strings *)
(* ===================================================================== *)

Lemma split_no_sep (sep : ascii) (s : string) :
  string_forall (fun c => negb (Ascii.eqb c sep)) s = true →
  split sep s = [s].
Proof.
  induction s as [|c s IH]; simpl; [done|].
  intros [Hc Hs]%andb_prop. destruct (Ascii.eqb c sep); [done|].
  by rewrite (IH Hs).
Qed.

Lemma split_app_sep (sep : ascii) (a rest : string) :
  string_forall (fun c => negb (Ascii.eqb c sep)) a = true →
  split sep (a +:+ String sep rest) = a :: split sep rest.
Proof.
  induction a as [|c a IH]; simpl.
  - intros _. by rewrite Ascii.eqb_refl.
  - intros [Hc Ha]%andb_prop. destruct (Ascii.eqb c sep); [done|].
    by rewrite (IH Ha).
Qed.

Lemma split_tag (a b : string) :
  no_dash a = true → no_dash b = true →
  split dash (a +:+ "-" +:+ b) = [a; b].
Proof.
  intros Ha Hb. change ("-" +:+ b) with (String dash b).
  rewrite (split_app_sep dash a b Ha). by rewrite (split_no_sep dash b Hb).
Qed.

Lemma lower_char_dash (c : ascii) :
  Ascii.eqb (lower_char c) dash = Ascii.eqb c dash.
Proof. by destruct c as [[] [] [] [] [] [] [] []]. Qed.

Lemma upper_char_dash (c : ascii) :
  Ascii.eqb (upper_char c) dash = Ascii.eqb c dash.
Proof. by destruct c as [[] [] [] [] [] [] [] []]. Qed.

Lemma lower_char_idemp (c : ascii) : lower_char (lower_char c) = lower_char c.
Proof. by destruct c as [[] [] [] [] [] [] [] []]. Qed.

Lemma upper_char_idemp (c : ascii) : upper_char (upper_char c) = upper_char c.
Proof. by destruct c as [[] [] [] [] [] [] [] []]. Qed.

Lemma no_dash_lower (s : string) : no_dash (lower s) = no_dash s.
Proof.
  unfold no_dash, lower. induction s as [|c s IH]; simpl; [done|].
  by rewrite lower_char_dash, IH.
Qed.

Lemma no_dash_upper (s : string) : no_dash (upper s) = no_dash s.
Proof.
  unfold no_dash, upper. induction s as [|c s IH]; simpl; [done|].
  by rewrite upper_char_dash, IH.
Qed.

Lemma lower_idemp (s : string) : lower (lower s) = lower s.
Proof.
  unfold lower. induction s as [|c s IH]; simpl; [done|].
  by rewrite lower_char_idemp, IH.
Qed.

Lemma upper_idemp (s : string) : upper (upper s) = upper s.
Proof.
  unfold upper. induction s as [|c s IH]; simpl; [done|].
  by rewrite upper_char_idemp, IH.
Qed.

Lemma upper_lower (s : string) : upper (lower s) = upper s.
Proof.
  unfold upper, lower. induction s as [|c s IH]; simpl; [done|].
  rewrite IH. f_equal. by destruct c as [[] [] [] [] [] [] [] []].
Qed.

Lemma locale_case_tag (a b : string) :
  no_dash a = true → no_dash b = true →
  locale_case (a +:+ "-" +:+ b) = lower a +:+ "-" +:+ upper b.
Proof. intros Ha Hb. unfold locale_case. by rewrite split_tag. Qed.

(* ===================================================================== *)
(** ** Theorems: language normalisation *)
(* ===================================================================== *)

(** C8.  For a tag [a-b] of exactly two dash-separated parts, in any
    casing, [init_language] returns the first part in lower case, a dash
    and the second part in upper case.  With [xx = lower a], [yy = lower b]
    and [YY = upper b]: the rule sends [xx-yy] to [xx-YY] and [xx-YY] to
    [xx-YY], and applying it twice is applying it once. *)
Theorem init_language_casing (config_core : gmap string pyval) (a b : string) :
  is_ascii a = true → is_ascii b = true →
  no_dash a = true → no_dash b = true →
  config_core !! "lang" = Some (VStr (a +:+ "-" +:+ b)) →
  init_language config_core = Ok (lower a +:+ "-" +:+ upper b)
  ∧ locale_case (lower a +:+ "-" +:+ lower b) = lower a +:+ "-" +:+ upper b
  ∧ locale_case (lower a +:+ "-" +:+ upper b) = lower a +:+ "-" +:+ upper b
  ∧ locale_case (locale_case (a +:+ "-" +:+ b)) = locale_case (a +:+ "-" +:+ b).
Proof.
  intros _ _ Ha Hb Hcfg.
  assert (Hfix : locale_case (lower a +:+ "-" +:+ upper b)
                 = lower a +:+ "-" +:+ upper b).
  { rewrite locale_case_tag by (by rewrite ?no_dash_lower, ?no_dash_upper).
    by rewrite lower_idemp, upper_idemp. }
  split; [|split; [|split]].
  - unfold init_language, dict_get. rewrite Hcfg. by rewrite locale_case_tag.
  - rewrite locale_case_tag by (by rewrite ?no_dash_lower).
    by rewrite lower_idemp, upper_lower.
  - exact Hfix.
  - by rewrite (locale_case_tag a b Ha Hb).
Qed.

Lemma init_language_casing_witness :
  init_language {[ "lang" := VStr "EN-us" ]} = Ok "en-US"
  ∧ locale_case "en-us" = "en-US"
  ∧ locale_case "en-US" = "en-US".
Proof.
  destruct (init_language_casing {[ "lang" := VStr "EN-us" ]} "EN" "us")
    as (H1 & H2 & H3 & _); try reflexivity.
  split; [exact H1 | split; [exact H2 | exact H3]].
Defined.

(* ===================================================================== *)
(** ** Theorems: the pairing wrapper *)
(* ===================================================================== *)

Lemma answer_io_map {A B} (f : A → B) (m : io A) (replies : list (result pyval)) :
  answer (io_map f m) replies
  = match answer m replies with
    | Some (rqs, a) => Some (rqs, f a)
    | None => None
    end.
Proof.
  revert replies. induction m as [a|rq k IH]; intros replies; simpl; [done|].
  destruct replies as [|r replies]; [done|].
  rewrite IH. by destruct (answer (k r) replies) as [[rqs a]|].
Qed.




(* ===================================================================== *)
(** ** Theorems: the factory *)
(* ===================================================================== *)




(* ===================================================================== *)
(** ** Theorems: the token credential *)
(* ===================================================================== *)

(** C5, as stated, fails: with an empty token in the configuration the
    constructor returns a backend, and the first call of
    [GoogleSTT.execute] sends the empty key to the service and returns
    what the service answers. *)
Lemma token_empty_not_refused :
  TokenSTT_init no_repr google_empty_token = Ok tokenless
  ∧ answer (GoogleSTT_execute tokenless some_audio None) [Ok (VStr "hello")]
    = Some ([recognize_google some_audio "" "en-US"],
            (tokenless, Ok (VStr "hello"))).
Proof. split; vm_compute; reflexivity. Qed.

(** C5, amended.  The constructor of a token backend does not examine the
    token: once the base class is initialised and the credential is a
    dict, [TokenSTT.__init__] returns a backend that stores [str] of the
    configured token, the empty string when the token is empty, and
    [GoVivaceSTT.__init__] on top of it tests the language alone.
    [GoogleSTT.execute], [WITSTT.execute] and [BingSTT.execute] hand the
    stored token to the recognizer as it is, and [GoVivaceSTT.execute]
    writes it into the address of its request as it is, whatever the
    token.  [IBMSTT.execute] alone examines it, at the call: an empty
    stored token makes it raise [ValueError] before any request is
    issued, and leaves the backend as it was. *)
Theorem token_examined_at_call_only (container_repr : pyval → string)
    (config_core cred : gmap string pyval) (base : STT) :
  STT_init config_core = Ok base →
  credential base = VDict cred →
  TokenSTT_init container_repr config_core
  = Ok {| token_base := base;
          token := py_str container_repr (dict_get cred "token" VNone) |}
  ∧ (cred !! "token" = Some (VStr "") →
     py_str container_repr (dict_get cred "token" VNone) = "")
  ∧ (startswith (lang base) "en" = true ∨ startswith (lang base) "es" = true →
     GoVivaceSTT_init container_repr config_core
     = Ok {| govivace_base :=
               {| token_base := base;
                  token := py_str container_repr (dict_get cred "token" VNone) |};
             default_uri := "https://services.govivace.com:49149/telephony" |})
  ∧ (∀ (self : TokenSTT) audio language replies,
       replies ≠ [] →
       ∃ r replies' self' out,
         replies = r :: replies'
         ∧ answer (GoogleSTT_execute self audio language) replies
           = Some ([recognize_google audio (token self) (lang (token_base self'))],
                   (self', out))
         ∧ token self' = token self ∧ out = r)
  ∧ (∀ (self : TokenSTT) audio language replies,
       replies ≠ [] →
       ∃ r replies',
         replies = r :: replies'
         ∧ answer (WITSTT_execute self audio language) replies
           = Some ([recognize_wit audio (token self)], (self, r)))
  ∧ (∀ (self : TokenSTT) audio language replies,
       replies ≠ [] →
       ∃ r replies' self',
         replies = r :: replies'
         ∧ answer (BingSTT_execute self audio language) replies
           = Some ([recognize_bing audio (token self) (lang (token_base self'))],
                   (self', r))
         ∧ token self' = token self)
  ∧ (∀ Response_json (self : GoVivaceSTT) audio language uri replies,
       py_get (config (token_base (govivace_base self))) "uri"
              (VStr (default_uri self)) = Ok (VStr uri) →
       replies ≠ [] →
       ∃ r replies',
         replies = r :: replies'
         ∧ answer (GoVivaceSTT_execute Response_json self audio language) replies
           = Some ([put (uri +:+ "?key=" +:+ token (govivace_base self)
                         +:+ "&action=find&format=8K_PCM16&validation_string=")
                        (get_wav_data audio (Some 8000%Z))],
                   (self,
                    on_response (GoVivaceSTT_get_response Response_json) r)))
  ∧ (∀ IBM_decode (self : TokenSTT) audio language,
       token self = "" →
       IBMSTT_execute IBM_decode self audio language
       = Done (self, Raise (ValueError
                 "API key (token) for IBM Cloud is not defined."))).
Proof.
  intros Hbase Hcred.
  assert (Hinit : TokenSTT_init container_repr config_core
                  = Ok {| token_base := base;
                          token := py_str container_repr
                                     (dict_get cred "token" VNone) |}).
  { unfold TokenSTT_init. rewrite Hbase. cbn [mbind result_bind].
    by rewrite Hcred. }
  split; [done|]. split; [|split; [|split; [|split; [|split; [|split]]]]].
  - intros H. unfold dict_get. by rewrite H.
  - intros Hlang. unfold GoVivaceSTT_init. rewrite Hinit.
    cbn [mbind result_bind token_base].
    by destruct Hlang as [-> | ->]; rewrite ?andb_false_r.
  - intros self audio language [|r replies'] Hne; [done|].
    by eexists r, replies', _, _.
  - intros self audio language [|r replies'] Hne; [done|].
    by eexists r, replies'.
  - intros self audio language [|r replies'] Hne; [done|].
    by eexists r, replies', _.
  - intros json self audio language uri [|r replies'] Huri Hne; [done|].
    exists r, replies'. split; [done|].
    unfold GoVivaceSTT_execute. by rewrite Huri.
  - intros decode self audio language Htok. unfold IBMSTT_execute.
    by rewrite Htok.
Qed.

Lemma token_examined_at_call_only_witness :
  ∃ self, TokenSTT_init no_repr ibm_empty_token = Ok self
          ∧ token self = ""
          ∧ IBMSTT_execute (fun _ => Ok VNone) self some_audio None
            = Done (self, Raise (ValueError
                      "API key (token) for IBM Cloud is not defined.")).
Proof.
  pose proof (token_examined_at_call_only no_repr ibm_empty_token
                {[ "token" := VStr "" ]}
                {| lang := "en-US";
                   config := VDict {[ "credential" := VDict {[ "token" := VStr "" ]};
                                      "url" := VStr "https://ibm" ]};
                   credential := VDict {[ "token" := VStr "" ]};
                   can_stream := false |}) as H.
  destruct H as (Hinit & Hempty & _ & _ & _ & _ & _ & Hibm);
    [vm_compute; reflexivity | reflexivity |].
  eexists. split; [exact Hinit|]. split.
  - exact (Hempty eq_refl).
  - apply Hibm. exact (Hempty eq_refl).
Defined.

(* ===================================================================== *)
(** ** Theorems: the per-call language *)
(* ===================================================================== *)


Lemma or_lang_nonempty (l lang : string) : l ≠ "" → or_lang (Some l) lang = l.
Proof.
  intros Hl. unfold or_lang, str_truthy.
  by rewrite (proj2 (String.eqb_neq l "")).
Qed.

Lemma or_lang_empty (lang : string) : or_lang (Some "") lang = or_lang None lang.
Proof. done. Qed.

Lemma answer_Call_inv {A} rq (k : result pyval → io A) replies rqs a :
  answer (Call rq k) replies = Some (rqs, a) →
  ∃ r replies' rqs', replies = r :: replies' ∧ rqs = rq :: rqs'
                     ∧ answer (k r) replies' = Some (rqs', a).
Proof.
  simpl. destruct replies as [|r replies']; [done|].
  destruct (answer (k r) replies') as [[rqs' a']|] eqn:E; [|done].
  intros [= <- <-]. by exists r, replies', rqs'.
Qed.


(** [IBMSTT.execute] leaves the language alone or sets it to
    [language or self.lang]. *)
Lemma IBMSTT_execute_lang decode audio language (self : TokenSTT)
    replies rqs self' r :
  answer (IBMSTT_execute decode self audio language) replies
  = Some (rqs, (self', r)) →
  lang (token_base self') = lang (token_base self)
  ∨ lang (token_base self') = or_lang language (lang (token_base self)).
Proof.
  unfold IBMSTT_execute.
  destruct (negb (str_truthy _)); [simpl; intros [= <- <- <-]; auto|].
  destruct (py_get _ _ _) as [ub|e]; [|simpl; intros [= <- <- <-]; auto].
  destruct (negb (truthy ub)); [simpl; intros [= <- <- <-]; auto|].
  destruct ub; try (simpl; intros [= <- <- <-]; by auto).
  destruct (negb (str_in _ _)).
  - simpl. intros [= <- <- <-]. by right.
  - intros (r0 & replies' & rqs' & -> & -> & Hk)%answer_Call_inv.
    simpl in Hk. injection Hk as <- <- <-. by right.
Qed.






(* ===================================================================== *)
(** ** The worker thread on its queue *)
(* ===================================================================== *)

Lemma get_data_enter_set_state st th q :
  get_data_enter (th_set_state st th) q
  = match get_data_enter th q with
    | inl (th', q') => inl (th_set_state st th', q')
    | inr (r, th') => inr (r, th_set_state st th')
    end.
Proof.
  unfold get_data_enter. simpl.
  destruct (th_gen th); try done. by destruct (Queue_task_done q).
Qed.

Lemma get_data_get_set_state st th q :
  get_data_get (th_set_state st th) q
  = match get_data_get th q with
    | Some (r, th', q') => Some (r, th_set_state st th', q')
    | None => None
    end.
Proof.
  unfold get_data_get. destruct (Queue_get q) as [[[d|] q']|]; done.
Qed.

(** The run sets the state of the thread where it stops and does not
    read it before. *)
Lemma StreamThread_run_set_state h : ∀ st th q,
  StreamThread_run h (th_set_state st th) q = StreamThread_run h th q.
Proof.
  induction h as [k IH|t k IH| |e]; intros st th q; simpl; try done.
  - rewrite get_data_enter_set_state.
    destruct (get_data_enter th q) as [[th' q']|[r th']].
    + rewrite get_data_get_set_state.
      destruct (get_data_get th' q') as [[[r th''] q'']|]; [apply IH|done].
    + apply IH.
  - apply (IH st (th_set_text t th) q).
Qed.

(** A step of the thread is the first step of its run alone. *)
Lemma resume_step th q th' q' :
  StreamThread_step th q = Some (th', q') → resume th q = resume th' q'.
Proof.
  unfold StreamThread_step, resume.
  destruct (th_state th) as [|h|k|e] eqn:Hst; try done.
  - destruct h as [k|t k| |e]; simpl.
    + destruct (get_data_enter th q) as [[th1 q1]|[r th1]]; intros [= <- <-];
        simpl.
      * rewrite get_data_get_set_state.
        destruct (get_data_get th1 q1) as [[[r th2] q2]|]; [|done].
        by rewrite StreamThread_run_set_state.
      * by rewrite StreamThread_run_set_state.
    + intros [= <- <-]. simpl.
      by rewrite (StreamThread_run_set_state k (running k)).
    + by intros [= <- <-].
    + by intros [= <- <-].
  - destruct (get_data_get th q) as [[[r th1] q1]|]; [|done].
    intros [= <- <-]. simpl. by rewrite StreamThread_run_set_state.
Qed.

(** What a thread can do on a queue it can do after one more [put], with
    the same effect. *)
Lemma StreamThread_step_put x th q th' q' :
  StreamThread_step th q = Some (th', q') →
  (th_gen th = GEN_SUSPENDED → 1 ≤ unfinished_tasks q) →
  StreamThread_step th (Queue_put x q) = Some (th', Queue_put x q').
Proof.
  unfold StreamThread_step.
  destruct (th_state th) as [|h|k|e]; try done.
  - destruct h as [k|t k| |e]; try (by intros [= <- <-]).
    unfold get_data_enter. destruct (th_gen th); try (by intros [= <- <-]).
    unfold Queue_task_done. simpl.
    destruct (unfinished_tasks q) as [|n] eqn:Hn.
    + intros _ Hpos. specialize (Hpos eq_refl). lia.
    + by intros [= <- <-].
  - unfold get_data_get, Queue_get. simpl.
    destruct (items q) as [|[d|] rest]; [done| |]; by intros [= <- <-].
Qed.

Lemma put_all_items xs q : items (put_all xs q) = items q ++ xs.
Proof.
  revert q. induction xs as [|x xs IH]; intros q; simpl.
  - by rewrite app_nil_r.
  - unfold put_all in *. simpl. rewrite IH. simpl. by rewrite <- app_assoc.
Qed.

Lemma put_all_put_log xs q : put_log (put_all xs q) = put_log q ++ xs.
Proof.
  revert q. induction xs as [|x xs IH]; intros q; simpl.
  - by rewrite app_nil_r.
  - unfold put_all in *. simpl. rewrite IH. simpl. by rewrite <- app_assoc.
Qed.

Lemma put_all_unfinished_tasks xs q :
  unfinished_tasks (put_all xs q) = unfinished_tasks q + length xs.
Proof.
  revert q. induction xs as [|x xs IH]; intros q; simpl; [lia|].
  unfold put_all in *. simpl. rewrite IH. simpl. lia.
Qed.

Lemma StreamThread_step_put_all xs : ∀ th q th' q',
  StreamThread_step th q = Some (th', q') →
  (th_gen th = GEN_SUSPENDED → 1 ≤ unfinished_tasks q) →
  StreamThread_step th (put_all xs q) = Some (th', put_all xs q').
Proof.
  induction xs as [|x xs IH]; intros th q th' q' Hstep Hpos; [done|].
  change (put_all (x :: xs) q) with (put_all xs (Queue_put x q)).
  change (put_all (x :: xs) q') with (put_all xs (Queue_put x q')).
  apply IH.
  - by apply StreamThread_step_put.
  - intros _. simpl. lia.
Qed.

(** The fields a step of the thread leaves alone. *)
Lemma StreamThread_step_frame th q th' q' :
  StreamThread_step th q = Some (th', q') →
  th_queue th' = th_queue th ∧ th_language th' = th_language th
  ∧ put_log q' = put_log q.
Proof.
  unfold StreamThread_step.
  destruct (th_state th) as [|h|k|e]; try done.
  - destruct h as [k|t k| |e]; try (by intros [= <- <-]).
    unfold get_data_enter, Queue_task_done.
    destruct (th_gen th); try (by intros [= <- <-]).
    destruct (unfinished_tasks q); by intros [= <- <-].
  - unfold get_data_get, Queue_get.
    destruct (items q) as [|[d|] rest]; [done| |]; by intros [= <- <-].
Qed.

(** A step of a thread makes its state smaller. *)
Lemma StreamThread_step_lt th q th' q' :
  StreamThread_step th q = Some (th', q') → run_lt (th_state th') (th_state th).
Proof.
  unfold StreamThread_step.
  destruct (th_state th) as [|h|k|e]; try done.
  - destruct h as [k|t k| |e].
    + destruct (get_data_enter th q) as [[th1 q1]|[r th1]]; intros [= <- <-];
        constructor.
    + intros [= <- <-]. constructor.
    + intros [= <- <-]. constructor.
    + intros [= <- <-]. constructor.
  - destruct (get_data_get th q) as [[[r th1] q1]|]; [|done].
    intros [= <- <-]. constructor.
Qed.

Lemma run_lt_wf : well_founded run_lt.
Proof.
  assert (Hfin : ∀ e, Acc run_lt (finished e)).
  { intros e. constructor. intros y Hy. inversion Hy. }
  assert (Hrun : ∀ h, Acc run_lt (running h)).
  { induction h as [k IH|t k IH| |e].
    - assert (Hget : Acc run_lt (in_get k)).
      { constructor. intros y Hy. inversion Hy; subst. apply IH. }
      constructor. intros y Hy. inversion Hy; subst; [exact Hget | apply IH].
    - constructor. intros y Hy. inversion Hy; subst. exact IH.
    - constructor. intros y Hy. inversion Hy; subst. apply Hfin.
    - constructor. intros y Hy. inversion Hy; subst. apply Hfin. }
  intros [|h|k|e].
  - constructor. intros y Hy. inversion Hy.
  - apply Hrun.
  - constructor. intros y Hy. inversion Hy; subst. apply Hrun.
  - apply Hfin.
Qed.

Lemma list_lt_wf {A} (R : A → A → Prop) :
  well_founded R → well_founded (list_lt R).
Proof.
  intros HR.
  assert (Hcons : ∀ x, Acc R x → ∀ l, Acc (list_lt R) l → Acc (list_lt R) (x :: l)).
  { intros x Hx. induction Hx as [x Hx IHx]. intros l Hl.
    induction Hl as [l Hl IHl].
    constructor. intros y Hy. inversion Hy; subst.
    - apply IHx; [done|]. by constructor.
    - by apply IHl. }
  intros l. induction l as [|x l IH].
  - constructor. intros y Hy. inversion Hy.
  - by apply Hcons.
Qed.

Lemma list_lt_insert {A B} (R : B → B → Prop) (f : A → B) (l : list A) i x x' :
  l !! i = Some x → R (f x') (f x) →
  list_lt R (map f (<[i := x']> l)) (map f l).
Proof.
  revert i. induction l as [|y l IH]; intros [|i]; simpl; try done.
  - intros [= ->] HR. by constructor.
  - intros Hl HR. constructor. by apply IH.
Qed.


(* ===================================================================== *)
(** ** Every run of the system ends *)
(* ===================================================================== *)

Lemma caller_step_cost transport s s' :
  caller_step transport s = Some s' → caller_cost s' < caller_cost s.
Proof.
  unfold caller_step, caller_cost.
  destruct (pc s) as [|k|language] eqn:Hpc.
  - destruct (todo s) as [|c rest]; [done|]. intros [= <-].
    destruct c as [language|data| |audio language];
      unfold stream_start_call, stream_data_call, execute_call,
             stream_stop_call, stream_stop_begin, stream_start_body,
             create_streaming_thread; simpl;
      repeat (match goal with
              | |- context [match ?x with _ => _ end] => destruct x
              end; simpl); lia.
  - unfold stream_stop_end.
    destruct (stream (stt s)) as [t|]; [|done].
    destruct (threads s !! t) as [th|]; [|done].
    destruct (th_state th); try done; intros [= <-]; destruct k; simpl; lia.
  - intros [= <-]. unfold stream_start_body, create_streaming_thread. simpl.
    repeat (match goal with
            | |- context [match ?x with _ => _ end] => destruct x
            end; simpl); lia.
Qed.

Lemma step_measure transport s s' :
  step transport s s' → measure_lt (measure s') (measure s).
Proof.
  intros [[|t] Hstep]; simpl in Hstep.
  - apply left_slex. by eapply caller_step_cost.
  - unfold worker_step in Hstep.
    destruct (threads s !! t) as [th|] eqn:Hth; [|done].
    destruct (queues s !! th_queue th) as [q|]; [|done].
    destruct (StreamThread_step th q) as [[th' q']|] eqn:Hst; [|done].
    injection Hstep as <-. unfold measure, measure_lt, caller_cost. simpl.
    apply right_slex. eapply list_lt_insert; [done|].
    by eapply StreamThread_step_lt.
Qed.

(** No run goes on for ever: from every state, every sequence of steps
    is finite. *)
Lemma step_terminates transport : well_founded (fun s' s => step transport s s').
Proof.
  eapply wf_incl; [|apply (wf_inverse_image _ _ measure_lt measure)].
  - intros s' s Hstep. by eapply step_measure.
  - apply wf_slexprod; [apply lt_wf | apply list_lt_wf, run_lt_wf].
Qed.

(* ===================================================================== *)
(** ** The invariant *)
(* ===================================================================== *)

Lemma StreamThread_step_started th q th' q' :
  StreamThread_step th q = Some (th', q') → th_state th' ≠ not_started.
Proof.
  intros Hlt%StreamThread_step_lt Hns. rewrite Hns in Hlt. inversion Hlt.
Qed.

Lemma StreamThread_step_in_get th q th' q' k :
  StreamThread_step th q = Some (th', q') →
  th_state th' = in_get k → th_gen th' = GEN_RUNNING.
Proof.
  unfold StreamThread_step.
  destruct (th_state th) as [|h|k0|e]; try done.
  - destruct h as [k0|t k0| |e]; try (by intros [= <- <-]).
    unfold get_data_enter, Queue_task_done.
    destruct (th_gen th); try (by intros [= <- <-]).
    destruct (unfinished_tasks q); by intros [= <- <-].
  - destruct (get_data_get th q) as [[[r th1] q1]|]; [|done].
    by intros [= <- <-].
Qed.

Lemma StreamThread_step_tasks th q th' q' :
  StreamThread_step th q = Some (th', q') →
  length (items q) + (match th_gen th with GEN_SUSPENDED => 1 | _ => 0 end)
  ≤ unfinished_tasks q →
  length (items q') + (match th_gen th' with GEN_SUSPENDED => 1 | _ => 0 end)
  ≤ unfinished_tasks q'.
Proof.
  unfold StreamThread_step.
  destruct (th_state th) as [|h|k0|e]; try done.
  - destruct h as [k0|t k0| |e]; try (by intros [= <- <-]).
    unfold get_data_enter, Queue_task_done.
    destruct (th_gen th) eqn:Hg;
      try (intros [= <- <-]; simpl; rewrite ?Hg; lia).
    destruct (unfinished_tasks q) eqn:Hn; intros [= <- <-]; simpl;
      rewrite ?Hg, ?Hn; lia.
  - unfold get_data_get, Queue_get.
    destruct (items q) as [|[d|] rest]; [done| |]; intros [= <- <-]; simpl;
      destruct (th_gen th); lia.
Qed.

Lemma StreamThread_step_fifo th q th' q' :
  StreamThread_step th q = Some (th', q') →
  th_seen th' ++ items q' = th_seen th ++ items q.
Proof.
  unfold StreamThread_step.
  destruct (th_state th) as [|h|k0|e]; try done.
  - destruct h as [k0|t k0| |e]; try (by intros [= <- <-]).
    unfold get_data_enter, Queue_task_done.
    destruct (th_gen th); try (by intros [= <- <-]).
    destruct (unfinished_tasks q) eqn:Hn; by intros [= <- <-].
  - unfold get_data_get, Queue_get.
    destruct (items q) as [|[d|] rest]; [done| |]; intros [= <- <-]; simpl;
      by rewrite <- app_assoc.
Qed.

Lemma StreamThread_step_mark th q th' q' :
  StreamThread_step th q = Some (th', q') →
  In None (items q) ∨ th_gen th = GEN_CLOSED →
  (∀ k, th_state th = in_get k → th_gen th = GEN_RUNNING) →
  In None (items q') ∨ th_gen th' = GEN_CLOSED.
Proof.
  unfold StreamThread_step.
  destruct (th_state th) as [|h|k0|e] eqn:Hst; try done.
  - destruct h as [k0|t k0| |e]; try (by intros [= <- <-]).
    unfold get_data_enter, Queue_task_done.
    destruct (th_gen th) eqn:Hg;
      try (intros [= <- <-] [?|?] _; simpl; rewrite ?Hg; by auto).
    destruct (unfinished_tasks q) eqn:Hn; intros [= <- <-] [?|?] _;
      simpl; rewrite ?Hg; by auto.
  - unfold get_data_get, Queue_get.
    destruct (items q) as [|[d|] rest]; [done| |]; intros [= <- <-]; simpl.
    + intros [[Hd|Hin]|Hc] Hget; [done|by left|].
      specialize (Hget k0 eq_refl). congruence.
    + intros _ _. by right.
Qed.

(** The invariant of the open stream survives a step of its thread. *)
Lemma stream_inv_worker transport s s' t th q th' q' :
  stream_inv transport s t th q →
  StreamThread_step th q = Some (th', q') →
  stt s' = stt s → pc s' = pc s → todo s' = todo s →
  stream_inv transport s' t th' q'.
Proof.
  intros [Hq Hst Hget Htasks Hfifo Halone Hmark] Hstep Hstt Hpc Htodo.
  destruct (StreamThread_step_frame _ _ _ _ Hstep) as (Hfq & Hfl & Hflog).
  split.
  - by rewrite Hstt, Hfq.
  - by eapply StreamThread_step_started.
  - intros k. by eapply StreamThread_step_in_get.
  - by eapply StreamThread_step_tasks.
  - rewrite Hflog, <- Hfifo. by eapply StreamThread_step_fifo.
  - intros xs. rewrite Hflog. unfold rewind. rewrite Hfq, Hfl.
    fold (rewind transport t th). rewrite <- Halone.
    symmetry. apply resume_step.
    apply StreamThread_step_put_all; [done|].
    intros Hg. rewrite Hg in Htasks. lia.
  - intros k Hj. rewrite Hpc in Hj.
    eapply StreamThread_step_mark; [done| |done]. by eapply Hmark.
Qed.

(** It survives a [put] by the caller. *)
Lemma stream_inv_put transport s s' t th q x :
  stream_inv transport s t th q →
  stt s' = stt s →
  (∀ k, pc s' = joining k → x = None) →
  stream_inv transport s' t th (Queue_put x q).
Proof.
  intros [Hq Hst Hget Htasks Hfifo Halone Hmark] Hstt Hjoin.
  split; try done.
  - by rewrite Hstt.
  - simpl. rewrite length_app. simpl. lia.
  - simpl. by rewrite app_assoc, Hfifo.
  - intros xs. change (put_all xs (Queue_put x q)) with (put_all (x :: xs) q).
    rewrite Halone. simpl. by rewrite <- app_assoc.
  - intros k Hk. left. simpl. rewrite (Hjoin k Hk).
    apply in_or_app. right. by left.
Qed.


Lemma invariant_boot transport c base language calls :
  invariant transport (boot c base language calls).
Proof. split; simpl; done. Qed.

(** Lines 426-429 on a backend without open stream, all threads done:
    the new thread and its queue satisfy the invariant. *)
Lemma invariant_stream_start_body transport language s :
  stream (stt s) = None →
  (∀ i th, threads s !! i = Some th → ∃ e, th_state th = finished e) →
  invariant transport (stream_start_body transport language s).
Proof.
  intros Hnone Hdone. unfold stream_start_body, create_streaming_thread. simpl.
  set (q2 := length (queues s ++ [Queue_new])).
  assert (Hnew : ∀ l,
    invariant transport
      {| stt := set_stream (Some (length (threads s)))
                  (set_queue (Some q2) (set_queue (Some (length (queues s))) (stt s)));
         queues := (queues s ++ [Queue_new]) ++ [Queue_new];
         threads := threads s
                    ++ [Thread_start transport (length (threads s))
                          (StreamThread_init q2 l)];
         pc := at_call; todo := todo s; results := results s ++ [Ok None] |}).
  { intros l. split; simpl; [| |done].
    - intros t [= <-].
      eexists _, Queue_new. split; [|split].
      + rewrite lookup_app_r by lia. by rewrite Nat.sub_diag.
      + simpl. unfold q2. rewrite lookup_app_r by lia. by rewrite Nat.sub_diag.
      + split; simpl; done.
    - intros i th Hth Hi.
      destruct (decide (i < length (threads s))) as [Hlt|Hge].
      + rewrite lookup_app_l in Hth by done. by eapply Hdone.
      + rewrite lookup_app_r in Hth by lia.
        destruct (i - length (threads s)) as [|n] eqn:Hn; [|by destruct n].
        assert (i = length (threads s)) by lia. congruence. }
  assert (Hfail : ∀ e,
    invariant transport
      {| stt := set_queue (Some q2) (set_queue (Some (length (queues s))) (stt s));
         queues := (queues s ++ [Queue_new]) ++ [Queue_new];
         threads := threads s;
         pc := at_call; todo := todo s; results := results s ++ [Raise e] |}).
  { intros e. split; simpl; [| |done].
    - intros t. by rewrite Hnone.
    - intros i th Hth _. by eapply Hdone. }
  destruct (class (stt s)); [|apply Hnew].
  destruct (negb _); [apply Hfail | apply Hnew].
Qed.

(** A [put] by the caller into the queue of the backend. *)
Lemma invariant_put transport s s' x :
  invariant transport s →
  stt s' = stt s → threads s' = threads s →
  (∀ q, queue (stt s) = Some q → queues s' = alter (Queue_put x) q (queues s)) →
  (queue (stt s) = None → queues s' = queues s) →
  (∀ k, pc s' = joining k → x = None ∧ stream (stt s) ≠ None) →
  (∀ l, pc s' ≠ starting l) →
  invariant transport s'.
Proof.
  intros [Hstream Hothers Hpc] Hstt Hths Hqs Hqnone Hjoin Hstart.
  split.
  - rewrite Hstt. intros t Ht.
    destruct (Hstream t Ht) as (th & q & Hth & Hq & Hinv).
    exists th, (Queue_put x q). rewrite Hths. split; [done|]. split.
    + rewrite (Hqs _ (si_queue _ _ _ _ _ Hinv)).
      rewrite list_lookup_alter_eq. by rewrite Hq.
    + eapply stream_inv_put; [done|done|].
      intros k Hk. by apply (Hjoin k).
  - rewrite Hstt, Hths. exact Hothers.
  - destruct (pc s') as [|k|l] eqn:Hpc'; [done| |].
    + rewrite Hstt. by apply (Hjoin k).
    + by destruct (Hstart l).
Qed.

(** The caller's bookkeeping alone: no stream is open and the store stays. *)
Lemma invariant_idle transport s s' :
  invariant transport s →
  stream (stt s) = None →
  stream (stt s') = None → threads s' = threads s →
  (∀ k, pc s' ≠ joining k) →
  invariant transport s'.
Proof.
  intros [Hstream Hothers Hpc] Hnone Hnone' Hths Hj. split.
  - intros t. by rewrite Hnone'.
  - rewrite Hths, Hnone'. intros i th Hth _. eapply Hothers; [done|].
    by rewrite Hnone.
  - destruct (pc s') as [|k|l]; [done|by destruct (Hj k)|done].
Qed.

Lemma invariant_caller_step transport s s' :
  invariant transport s → caller_step transport s = Some s' →
  invariant transport s'.
Proof.
  intros Hinv. unfold caller_step.
  destruct (pc s) as [|k|language] eqn:Hpc.
  - destruct (todo s) as [|c rest] eqn:Htodo; [done|]. intros [= <-].
    assert (Hbegin : ∀ k, stream (stt s) ≠ None →
              invariant transport
                (stream_stop_begin k (set_caller at_call rest (results s) s))).
    { intros k Hsome. unfold stream_stop_begin. simpl.
      destruct (stream (stt s)) as [t|] eqn:Ht; [|done].
      destruct (inv_stream _ _ Hinv t Ht) as (th & q & Hth & Hq & Hsi).
      rewrite (si_queue _ _ _ _ _ Hsi).
      eapply (invariant_put transport s _ None Hinv); simpl; try done.
      - intros q0. rewrite (si_queue _ _ _ _ _ Hsi). by intros [= <-].
      - by rewrite (si_queue _ _ _ _ _ Hsi).
      - intros k0 _. split; [done|]. by rewrite Ht. }
    assert (Hall : stream (stt s) = None →
              ∀ i th, threads s !! i = Some th → ∃ e, th_state th = finished e).
    { intros Hnone i th Hth. eapply (inv_others _ _ Hinv); [done|].
      by rewrite Hnone. }
    destruct c as [language|data| |audio language].
    + unfold stream_start_call. simpl.
      destruct (stream (stt s)) as [t|] eqn:Ht.
      * eapply Hbegin. first [by rewrite Ht | done].
      * apply invariant_stream_start_body; simpl; [done|by apply Hall].
    + unfold stream_data_call. simpl.
      destruct (queue (stt s)) as [q0|] eqn:Hq0.
      * eapply (invariant_put transport s _ (Some data) Hinv); simpl; try done.
        -- intros q1. rewrite Hq0. by intros [= <-].
        -- by rewrite Hq0.
      * destruct (stream (stt s)) as [t|] eqn:Ht.
        -- destruct (inv_stream _ _ Hinv t Ht) as (th & q & Hth & Hq & Hsi).
           rewrite (si_queue _ _ _ _ _ Hsi) in Hq0. discriminate.
        -- eapply (invariant_idle transport s); simpl; try done.
    + unfold stream_stop_call. simpl.
      destruct (stream (stt s)) as [t|] eqn:Ht.
      * eapply (Hbegin return_text). first [by rewrite Ht | done].
      * eapply (invariant_idle transport s); simpl; try done.
    + unfold execute_call, stream_stop_call. simpl.
      destruct (stream (stt s)) as [t|] eqn:Ht.
      * eapply (Hbegin return_text). first [by rewrite Ht | done].
      * eapply (invariant_idle transport s); simpl; try done.
  - unfold stream_stop_end.
    destruct (stream (stt s)) as [t|] eqn:Ht; [|done].
    destruct (inv_stream _ _ Hinv t Ht) as (th & q & Hth & Hq & Hsi).
    rewrite Hth.
    destruct (th_state th) as [|h|k0|e] eqn:Hst; try done.
    { by destruct (si_started _ _ _ _ _ Hsi). }
    intros [= <-].
    assert (Hall : ∀ i th0, threads s !! i = Some th0 →
              ∃ e0, th_state th0 = finished e0).
    { intros i th0 Hth0. destruct (decide (i = t)) as [->|Hne].
      - rewrite Hth in Hth0. injection Hth0 as <-. by exists e.
      - eapply (inv_others _ _ Hinv); [done|]. rewrite Ht. congruence. }
    destruct k as [|language]; split; simpl; try done.
    + intros i th0 Hth0 _. by eapply Hall.
    + intros i th0 Hth0 _. by eapply Hall.
  - intros [= <-].
    pose proof (inv_pc _ _ Hinv) as Hnone. rewrite Hpc in Hnone.
    apply invariant_stream_start_body; [done|].
    intros i th Hth. eapply (inv_others _ _ Hinv); [done|]. by rewrite Hnone.
Qed.

Lemma invariant_worker_step transport t s s' :
  invariant transport s → worker_step t s = Some s' →
  invariant transport s'.
Proof.
  intros Hinv. unfold worker_step.
  destruct (threads s !! t) as [th|] eqn:Hth; [|done].
  destruct (queues s !! th_queue th) as [q|] eqn:Hq; [|done].
  destruct (StreamThread_step th q) as [[th' q']|] eqn:Hstep; [|done].
  intros [= <-].
  assert (Hcur : stream (stt s) = Some t).
  { destruct (decide (stream (stt s) = Some t)) as [|Hne]; [done|].
    destruct (inv_others _ _ Hinv t th Hth Hne) as [e He].
    unfold StreamThread_step in Hstep. by rewrite He in Hstep. }
  destruct (inv_stream _ _ Hinv t Hcur) as (th0 & q0 & Hth0 & Hq0 & Hsi).
  rewrite Hth in Hth0. injection Hth0 as <-.
  rewrite Hq in Hq0. injection Hq0 as <-.
  destruct (StreamThread_step_frame _ _ _ _ Hstep) as (Hfq & _ & _).
  split; simpl.
  - intros t0 Ht0. rewrite Hcur in Ht0. injection Ht0 as <-.
    exists th', q'. split; [|split].
    + apply list_lookup_insert_eq. by eapply lookup_lt_Some.
    + rewrite Hfq. apply list_lookup_insert_eq. by eapply lookup_lt_Some.
    + by eapply stream_inv_worker.
  - intros i th1 Hth1 Hi.
    rewrite list_lookup_insert_ne in Hth1 by congruence.
    by eapply (inv_others _ _ Hinv).
  - exact (inv_pc _ _ Hinv).
Qed.

Lemma invariant_step transport s s' :
  invariant transport s → step transport s s' → invariant transport s'.
Proof.
  intros Hinv [[|t] Hstep]; simpl in Hstep.
  - by eapply invariant_caller_step.
  - by eapply invariant_worker_step.
Qed.

Lemma invariant_run transport sched : ∀ s,
  invariant transport s → invariant transport (run transport sched s).
Proof.
  induction sched as [|i sched IH]; intros s Hinv; [done|].
  simpl. destruct (thread_step transport i s) as [s'|] eqn:Hstep.
  - apply IH. eapply invariant_step; [done|]. by exists i.
  - by apply IH.
Qed.

(** No deadlock: while the caller has calls to make or is inside one,
    some thread can move. *)
Lemma progress transport s :
  invariant transport s → ¬ caller_done s →
  ∃ i s', thread_step transport i s = Some s'.
Proof.
  intros Hinv Hnot.
  destruct (pc s) as [|k|language] eqn:Hpc.
  - destruct (todo s) as [|c rest] eqn:Htodo.
    + destruct Hnot. by split.
    + exists caller. simpl. unfold caller_step. rewrite Hpc, Htodo. eauto.
  - pose proof (inv_pc _ _ Hinv) as Hsome. rewrite Hpc in Hsome.
    destruct (stream (stt s)) as [t|] eqn:Ht; [|done].
    destruct (inv_stream _ _ Hinv t Ht) as (th & q & Hth & Hq & Hsi).
    destruct (th_state th) as [|h|k0|e] eqn:Hst.
    + by destruct (si_started _ _ _ _ _ Hsi).
    + exists (worker t). simpl. unfold worker_step. rewrite Hth, Hq.
      unfold StreamThread_step. rewrite Hst.
      destruct h as [k0|t0 k0| |e]; eauto.
      destruct (get_data_enter th q) as [[th1 q1]|[r th1]]; eauto.
    + exists (worker t). simpl. unfold worker_step. rewrite Hth, Hq.
      unfold StreamThread_step. rewrite Hst.
      unfold get_data_get, Queue_get.
      destruct (si_mark _ _ _ _ _ Hsi k Hpc) as [Hin|Hclosed].
      * destruct (items q) as [|[d|] rest]; [done| |]; eauto.
      * rewrite (si_in_get _ _ _ _ _ Hsi k0 Hst) in Hclosed. discriminate.
    + exists caller. simpl. unfold caller_step, stream_stop_end.
      rewrite Hpc, Ht, Hth, Hst. eauto.
  - exists caller. simpl. unfold caller_step. rewrite Hpc. eauto.
Qed.


(* ===================================================================== *)
(** ** One session *)
(* ===================================================================== *)

Lemma repeat_snoc {A} (x : A) n : repeat x n ++ [x] = repeat x (S n).
Proof. induction n as [|n IH]; simpl; [done|]. by rewrite IH. Qed.

Lemma session_state_step transport c base language chunks s s' :
  thread_accepts (StreamingSTT_init c base language) = true →
  invariant transport s →
  session_state transport c base language chunks s →
  step transport s s' →
  session_state transport c base language chunks s'.
Proof.
  intros Hacc Hinv Hsess [i Hstep].
  destruct Hsess as [|s th q rest n Hstream Hths Hq Hthq Hlang Hpc Htodo Hlog Hres Hn
                     |s th q Hstream Hths Hq Hthq Hlang Hpc Htodo Hlog Hres
                     |s th q Hpc Htodo Hstream Hqueue Hths Hq Hrun Hfin Hseen Hres].
  - (* before [stream_start] *)
    destruct i as [|t]; simpl in Hstep; [|done].
    unfold caller_step in Hstep. simpl in Hstep. injection Hstep as <-.
    unfold stream_start_call, stream_start_body, create_streaming_thread. simpl.
    assert (Hgoal : ∀ l, l = thread_language (StreamingSTT_init c base language) →
      session_state transport c base language chunks
        {| stt := set_stream (Some 0)
                    (set_queue (Some 1) (set_queue (Some 0)
                       (StreamingSTT_init c base language)));
           queues := [Queue_new; Queue_new];
           threads := [Thread_start transport 0 (StreamThread_init 1 l)];
           pc := at_call; todo := map stream_data chunks ++ [stream_stop];
           results := [Ok None] |}).
    { intros l ->.
      eapply (session_streaming _ _ _ _ _ _ _ Queue_new chunks 1); simpl; try done. }
    unfold thread_accepts in Hacc. simpl in Hacc.
    destruct c; simpl.
    + rewrite Hacc. simpl. by apply Hgoal.
    + by apply Hgoal.
  - (* chunks are sent *)
    destruct (inv_stream _ _ Hinv 0 Hstream) as (th0 & q0 & Hth0 & Hq0 & Hsi).
    rewrite Hths in Hth0. injection Hth0 as <-.
    rewrite Hthq, Hq in Hq0. injection Hq0 as <-.
    pose proof (si_queue _ _ _ _ _ Hsi) as Hqueue. rewrite Hthq in Hqueue.
    destruct i as [|t]; simpl in Hstep.
    + unfold caller_step in Hstep. rewrite Hpc, Htodo in Hstep.
      destruct rest as [|d rest]; simpl in Hstep; injection Hstep as <-.
      * unfold stream_stop_call, stream_stop_begin. simpl.
        rewrite Hstream, Hqueue.
        eapply (session_stopping _ _ _ _ _ _ th (Queue_put None q)); simpl;
          try done.
        -- rewrite list_lookup_alter_eq. by rewrite Hq.
        -- rewrite Hres. simpl in Hn.
           by replace n with (S (length chunks)) by lia.
      * unfold stream_data_call. simpl. rewrite Hqueue.
        eapply (session_streaming _ _ _ _ _ _ th (Queue_put (Some d) q) rest (S n));
          simpl; try done.
        -- rewrite list_lookup_alter_eq. by rewrite Hq.
        -- rewrite <- Hlog. unfold stream_of. simpl. by rewrite <- app_assoc.
        -- rewrite Hres. apply repeat_snoc.
        -- simpl in Hn. lia.
    + unfold worker_step in Hstep. rewrite Hths in Hstep.
      destruct t as [|t]; simpl in Hstep; [|done].
      rewrite Hthq, Hq in Hstep.
      destruct (StreamThread_step th q) as [[th' q']|] eqn:Hst; [|done].
      injection Hstep as <-.
      destruct (StreamThread_step_frame _ _ _ _ Hst) as (Hfq & Hfl & Hflog).
      eapply (session_streaming _ _ _ _ _ _ th' q' rest n); simpl; try done.
      * apply list_lookup_insert_eq. by eapply lookup_lt_Some.
      * by rewrite Hfq.
      * by rewrite Hfl.
      * by rewrite Hflog.
  - (* inside [stream_stop] *)
    destruct (inv_stream _ _ Hinv 0 Hstream) as (th0 & q0 & Hth0 & Hq0 & Hsi).
    rewrite Hths in Hth0. injection Hth0 as <-.
    rewrite Hthq, Hq in Hq0. injection Hq0 as <-.
    destruct i as [|t]; simpl in Hstep.
    + unfold caller_step, stream_stop_end in Hstep.
      rewrite Hpc, Hstream, Hths in Hstep. simpl in Hstep.
      destruct (th_state th) as [|h|k|e] eqn:Hst; try done.
      { by destruct (si_started _ _ _ _ _ Hsi). }
      injection Hstep as <-.
      eapply (session_stopped _ _ _ _ _ _ th q); simpl; try done.
      * pose proof (si_alone _ _ _ _ _ Hsi []) as Halone.
        rewrite app_nil_r, Hlog in Halone. simpl in Halone.
        unfold resume at 1 in Halone. rewrite Hst in Halone.
        unfold rewind in Halone. rewrite Hthq, Hlang in Halone.
        by symmetry.
      * by exists e.
      * rewrite <- Hlog. apply (si_fifo _ _ _ _ _ Hsi).
      * by rewrite Hres.
    + unfold worker_step in Hstep. rewrite Hths in Hstep.
      destruct t as [|t]; simpl in Hstep; [|done].
      rewrite Hthq, Hq in Hstep.
      destruct (StreamThread_step th q) as [[th' q']|] eqn:Hst; [|done].
      injection Hstep as <-.
      destruct (StreamThread_step_frame _ _ _ _ Hst) as (Hfq & Hfl & Hflog).
      eapply (session_stopping _ _ _ _ _ _ th' q'); simpl; try done.
      * apply list_lookup_insert_eq. by eapply lookup_lt_Some.
      * by rewrite Hfq.
      * by rewrite Hfl.
      * by rewrite Hflog.
  - (* after [stream_stop] *)
    destruct i as [|t]; simpl in Hstep.
    + unfold caller_step in Hstep. by rewrite Hpc, Htodo in Hstep.
    + unfold worker_step in Hstep. rewrite Hths in Hstep.
      destruct t as [|t]; simpl in Hstep; [|done].
      destruct (queues s !! th_queue th); [|done].
      destruct Hfin as [e He]. unfold StreamThread_step in Hstep.
      by rewrite He in Hstep.
Qed.

Lemma session_state_run transport c base language chunks sched :
  thread_accepts (StreamingSTT_init c base language) = true →
  let s := run transport sched (boot c base language (session chunks)) in
  invariant transport s ∧ session_state transport c base language chunks s.
Proof.
  intros Hacc.
  assert (Hgen : ∀ s, invariant transport s →
            session_state transport c base language chunks s →
            invariant transport (run transport sched s)
            ∧ session_state transport c base language chunks (run transport sched s)).
  { induction sched as [|i sched IH]; intros s Hinv Hsess; [done|].
    simpl. destruct (thread_step transport i s) as [s'|] eqn:Hstep.
    - apply IH.
      + eapply invariant_step; [done|]. by exists i.
      + eapply session_state_step; [done|done|done|]. by exists i.
    - by apply IH. }
  apply Hgen; [apply invariant_boot | constructor].
Qed.

(** When the caller is done, the session is over. *)
Lemma session_state_done transport c base language chunks s :
  session_state transport c base language chunks s → caller_done s →
  ∃ th q,
    stream (stt s) = None ∧ queue (stt s) = None
    ∧ threads s = [th] ∧ queues s !! 1 = Some q
    ∧ resume (first_thread transport (StreamingSTT_init c base language))
             (put_all (stream_of chunks) Queue_new) = (th, q)
    ∧ (∃ e, th_state th = finished e)
    ∧ th_seen th ++ items q = stream_of chunks
    ∧ results s = repeat (Ok None) (S (length chunks)) ++ [Ok (th_text th)].
Proof.
  intros Hsess [Hpc Htodo].
  destruct Hsess as [|s th q rest n Hstream Hths Hq Hthq Hlang Hpc' Htodo' Hlog Hres Hn
                     |s th q Hstream Hths Hq Hthq Hlang Hpc' Htodo' Hlog Hres
                     |s th q Hpc' Htodo' Hstream Hqueue Hths Hq Hrun Hfin Hseen Hres].
  - simpl in Htodo. discriminate.
  - rewrite Htodo' in Htodo. by destruct rest.
  - rewrite Hpc' in Hpc. discriminate.
  - exists th, q. repeat split; done.
Qed.


(* ===================================================================== *)
(** ** The handler alone on a complete queue *)
(* ===================================================================== *)

(** Once the generator is closed nothing more is taken from the queue. *)
Lemma StreamThread_run_closed h : ∀ th q,
  th_gen th = GEN_CLOSED →
  th_seen (StreamThread_run h th q).1 = th_seen th.
Proof.
  induction h as [k IH|t k IH| |e]; intros th q Hg; simpl; try done.
  - unfold get_data_enter. rewrite Hg. by apply IH.
  - by rewrite (IH (th_set_text t th) q).
Qed.

(** A handler that drains its argument takes every chunk and the end
    mark, in the order of the queue. *)
Lemma StreamThread_run_drains h : ∀ th q chunks rest,
  drains h chunks →
  items q = map Some chunks ++ None :: rest →
  th_gen th = GEN_CREATED ∨ th_gen th = GEN_SUSPENDED →
  length (items q) + (match th_gen th with GEN_SUSPENDED => 1 | _ => 0 end)
  ≤ unfinished_tasks q →
  th_seen (StreamThread_run h th q).1 = th_seen th ++ map Some chunks ++ [None].
Proof.
  induction h as [k IH|t k IH| |e]; intros th q chunks rest Hd Hitems Hgen Htasks;
    simpl in *; try done.
  - assert (Henter : ∃ q1, get_data_enter th q = inl (th_set_gen GEN_RUNNING th, q1)
                           ∧ items q1 = items q
                           ∧ length (items q1) ≤ unfinished_tasks q1).
    { unfold get_data_enter, Queue_task_done.
      destruct Hgen as [Hg|Hg]; rewrite Hg in *.
      - exists q. repeat split; try done; lia.
      - destruct (unfinished_tasks q) as [|n] eqn:Hn; [lia|].
        eexists. repeat split; simpl; try done; lia. }
    destruct Henter as (q1 & -> & Hitems1 & Htasks1).
    unfold get_data_get, Queue_get. rewrite Hitems1, Hitems.
    destruct chunks as [|d chunks]; simpl.
    + by rewrite StreamThread_run_closed.
    + rewrite (IH (Yielded d) _ _ chunks rest); simpl; try done.
      * by rewrite <- app_assoc.
      * by right.
      * rewrite Hitems1, Hitems in Htasks1. simpl in Htasks1. lia.
  - by apply (IH (th_set_text t th) q chunks rest).
Qed.

Lemma first_thread_drains transport self chunks :
  drains (transport 0 (thread_language self)) chunks →
  th_seen (resume (first_thread transport self)
                  (put_all (stream_of chunks) Queue_new)).1
  = stream_of chunks.
Proof.
  intros Hd. unfold resume, first_thread. simpl.
  rewrite (StreamThread_run_drains _ _ _ chunks []); simpl; try done.
  - by rewrite put_all_items.
  - by left.
  - rewrite put_all_items, put_all_unfinished_tasks. simpl. lia.
Qed.


(* ===================================================================== *)
(** ** A call that stops the open stream *)
(* ===================================================================== *)

Lemma caller_step_threads transport s s' :
  caller_step transport s = Some s' →
  threads s' = threads s
  ∨ ∃ t q l, threads s' = threads s
                          ++ [Thread_start transport t (StreamThread_init q l)].
Proof.
  assert (Hbody : ∀ l s0,
    threads (stream_start_body transport l s0) = threads s0
    ∨ ∃ t q l', threads (stream_start_body transport l s0)
                = threads s0
                  ++ [Thread_start transport t (StreamThread_init q l')]).
  { intros l s0. unfold stream_start_body, create_streaming_thread.
    cbn [stt set_queue class].
    destruct (class (stt s0)); [destruct (negb _)|]; cbn [threads]; eauto. }
  unfold caller_step.
  destruct (pc s) as [|k|language] eqn:Hpc.
  - destruct (todo s) as [|c rest] eqn:Htodo; [done|]. intros [= <-].
    destruct c as [language|data| |audio language];
      unfold stream_start_call, stream_data_call, execute_call, stream_stop_call,
        stream_stop_begin;
      cbn [stt set_caller queue].
    + destruct (stream (stt s)); [destruct (queue (stt s)); by left|].
      destruct (Hbody language (set_caller at_call rest (results s) s)); eauto.
    + destruct (queue (stt s)); by left.
    + destruct (stream (stt s)); [destruct (queue (stt s))|]; by left.
    + destruct (stream (stt s)); [destruct (queue (stt s))|]; by left.
  - unfold stream_stop_end.
    destruct (stream (stt s)) as [t|]; [|done].
    destruct (threads s !! t) as [th|]; [|done].
    destruct (th_state th); try done; intros [= <-]; left; by destruct k.
  - intros [= <-]. apply Hbody.
Qed.

Lemma worker_step_inv t s s' :
  worker_step t s = Some s' →
  ∃ th q th' q',
    threads s !! t = Some th ∧ queues s !! th_queue th = Some q
    ∧ StreamThread_step th q = Some (th', q')
    ∧ s' = {| stt := stt s; queues := <[th_queue th := q']> (queues s);
              threads := <[t := th']> (threads s);
              pc := pc s; todo := todo s; results := results s |}.
Proof.
  unfold worker_step.
  destruct (threads s !! t) as [th|]; [|done].
  destruct (queues s !! th_queue th) as [q|] eqn:Hq; [|done].
  destruct (StreamThread_step th q) as [[th' q']|] eqn:Hst; [|done].
  intros [= <-]. by exists th, q, th', q'.
Qed.

(** Only the thread of the open stream moves. *)
Lemma worker_step_open_stream transport t s s' :
  invariant transport s → worker_step t s = Some s' → stream (stt s) = Some t.
Proof.
  intros Hinv (th & q & th' & q' & Hth & _ & Hst & _)%worker_step_inv.
  destruct (decide (stream (stt s) = Some t)) as [|Hne]; [done|].
  destruct (inv_others _ _ Hinv t th Hth Hne) as [e He].
  unfold StreamThread_step in Hst. by rewrite He in Hst.
Qed.

Lemma stream_start_body_todo transport l s :
  todo (stream_start_body transport l s) = todo s.
Proof.
  unfold stream_start_body, create_streaming_thread. cbn [stt set_queue class].
  by destruct (class (stt s)); [destruct (negb _)|].
Qed.

Lemma stream_stop_begin_todo k s : todo (stream_stop_begin k s) = todo s.
Proof. unfold stream_stop_begin. by destruct (queue (stt s)). Qed.

(** A call made takes the first call from the list. *)
Lemma caller_step_pops transport s s' :
  pc s = at_call → caller_step transport s = Some s' →
  ∃ c, todo s = c :: todo s'.
Proof.
  intros Hpc. unfold caller_step. rewrite Hpc.
  destruct (todo s) as [|c rest] eqn:Htodo; [done|]. intros [= <-].
  exists c. f_equal.
  destruct c as [l|d| |a l];
    unfold stream_start_call, stream_data_call, execute_call,
      stream_stop_call.
  - destruct (stream (stt _));
      by rewrite ?stream_stop_begin_todo, ?stream_start_body_todo.
  - by destruct (queue (stt _)).
  - destruct (stream (stt _)); by rewrite ?stream_stop_begin_todo.
  - destruct (stream (stt _)); by rewrite ?stream_stop_begin_todo.
Qed.

(** A step takes no call from the list, or the first one. *)
Lemma thread_step_todo transport i s s' :
  thread_step transport i s = Some s' →
  todo s' = todo s ∨ (pc s = at_call ∧ ∃ c, todo s = c :: todo s').
Proof.
  destruct i as [|t]; cbn [thread_step].
  - destruct (pc s) as [|k|l] eqn:Hpc.
    + intros Hstep. right. split; [done|]. by eapply caller_step_pops.
    + unfold caller_step. rewrite Hpc. unfold stream_stop_end.
      destruct (stream (stt s)) as [t|]; [|done].
      destruct (threads s !! t) as [th|]; [|done].
      destruct (th_state th); try done; intros [= <-]; left; by destruct k.
    + unfold caller_step. rewrite Hpc.
      intros [= <-]. left. apply stream_start_body_todo.
  - intros (th & q & th' & q' & _ & _ & _ & ->)%worker_step_inv. by left.
Qed.

(** A thread that is done stays as it is. *)
Lemma thread_step_finished transport i s s' t th e :
  thread_step transport i s = Some s' →
  threads s !! t = Some th → th_state th = finished e →
  threads s' !! t = Some th.
Proof.
  intros Hstep Hth He. destruct i as [|t']; cbn [thread_step] in Hstep.
  - destruct (caller_step_threads _ _ _ Hstep) as [->|(t1 & q & l & ->)];
      [done|].
    by apply lookup_app_l_Some.
  - apply worker_step_inv in Hstep
      as (th1 & q & th' & q' & Hth1 & _ & Hst & ->).
    cbn [threads]. destruct (decide (t' = t)) as [->|Hne].
    + rewrite Hth in Hth1. injection Hth1 as <-.
      unfold StreamThread_step in Hst. by rewrite He in Hst.
    + by rewrite list_lookup_insert_ne.
Qed.

(** The caller may be given other calls to make: the invariant stays. *)
Lemma invariant_set_caller transport cs rs s :
  invariant transport s → invariant transport (set_caller at_call cs rs s).
Proof.
  intros [Hstream Hothers _]. split; simpl; [|done|done].
  intros t Ht. destruct (Hstream t Ht) as (th & q & Hth & Hq & Hsi).
  exists th, q. split; [done|]. split; [done|].
  destruct Hsi as [H1 H2 H3 H4 H5 H6 _]. by split.
Qed.

Section StopSteps.

Variable transport : nat → string → audio_handler.
Variables (t tq : nat) (final : StreamThread) (log : list item).
Variables (k : after_join) (rs : list (result (option string))).
Variables (rest : list call) (nt nq : nat).
Hypothesis Ht : t < nt.
Hypothesis Htq : tq < nq.

Abbreviation phase := (stop_phase t tq final log k rs rest nt nq).

(** The thread of the stream moves before the end mark is put. *)
Lemma stop_called_worker s s' th q c t' :
  invariant transport s →
  pc s = at_call → todo s = c :: rest → call_of k c → results s = rs →
  stream (stt s) = Some t → threads s !! t = Some th →
  th_queue th = tq → queues s !! tq = Some q → put_log q = log →
  (resume th (Queue_put None q)).1 = final →
  length (threads s) = nt → length (queues s) = nq →
  worker_step t' s = Some s' → phase s'.
Proof.
  intros Hinv Hpc Htodo Hc Hres Hstream Hth Hthq Hq Hlog Hfinal Hnt Hnq Hstep.
  pose proof (worker_step_open_stream _ _ _ _ Hinv Hstep) as Hopen.
  rewrite Hstream in Hopen. injection Hopen as <-.
  destruct (inv_stream _ _ Hinv t Hstream) as (th0 & q0 & Hth0 & Hq0 & Hsi).
  rewrite Hth in Hth0. injection Hth0 as <-.
  rewrite Hthq, Hq in Hq0. injection Hq0 as <-.
  apply worker_step_inv in Hstep as (th1 & q1 & th' & q' & Hth1 & Hq1 & Hst & ->).
  rewrite Hth in Hth1. injection Hth1 as <-.
  rewrite Hthq, Hq in Hq1. injection Hq1 as <-.
  destruct (StreamThread_step_frame _ _ _ _ Hst) as (Hfq & _ & Hflog).
  eapply (stop_called _ _ _ _ _ _ _ _ _ _ th' q' c); cbn [pc todo results stt
    threads queues]; try done.
  - apply list_lookup_insert_eq. by eapply lookup_lt_Some.
  - congruence.
  - rewrite Hthq. apply list_lookup_insert_eq. by eapply lookup_lt_Some.
  - congruence.
  - rewrite <- Hfinal. f_equal. symmetry. apply resume_step.
    apply StreamThread_step_put; [done|]. intros Hg.
    pose proof (si_tasks _ _ _ _ _ Hsi) as Htasks. rewrite Hg in Htasks. lia.
  - by rewrite length_insert.
  - by rewrite length_insert.
Qed.

(** The thread of the stream moves while the caller waits. *)
Lemma stop_joining_worker s s' th q t' :
  invariant transport s →
  pc s = joining k → todo s = rest → results s = rs →
  stream (stt s) = Some t → threads s !! t = Some th →
  th_queue th = tq → queues s !! tq = Some q → put_log q = log ++ [None] →
  (resume th q).1 = final →
  length (threads s) = nt → length (queues s) = nq →
  worker_step t' s = Some s' → phase s'.
Proof.
  intros Hinv Hpc Htodo Hres Hstream Hth Hthq Hq Hlog Hfinal Hnt Hnq Hstep.
  pose proof (worker_step_open_stream _ _ _ _ Hinv Hstep) as Hopen.
  rewrite Hstream in Hopen. injection Hopen as <-.
  apply worker_step_inv in Hstep as (th1 & q1 & th' & q' & Hth1 & Hq1 & Hst & ->).
  rewrite Hth in Hth1. injection Hth1 as <-.
  rewrite Hthq, Hq in Hq1. injection Hq1 as <-.
  destruct (StreamThread_step_frame _ _ _ _ Hst) as (Hfq & _ & Hflog).
  eapply (stop_joining _ _ _ _ _ _ _ _ _ _ th' q'); cbn [pc todo results stt
    threads queues]; try done.
  - apply list_lookup_insert_eq. by eapply lookup_lt_Some.
  - congruence.
  - rewrite Hthq. apply list_lookup_insert_eq. by eapply lookup_lt_Some.
  - congruence.
  - rewrite <- Hfinal. f_equal. symmetry. by apply resume_step.
  - by rewrite length_insert.
  - by rewrite length_insert.
Qed.

(** Lines 426-429 once the old stream is stopped. *)
Lemma stop_starting_body s l q e :
  k = then_start l →
  todo s = rest → results s = rs →
  stream (stt s) = None →
  threads s !! t = Some final → th_state final = finished e →
  queues s !! tq = Some q → put_log q = log ++ [None] →
  length (threads s) = nt → length (queues s) = nq →
  phase (stream_start_body transport l s).
Proof.
  intros Hk Htodo Hres Hstream Hth He Hq Hlog Hnt Hnq.
  assert (Hq2 : ((queues s ++ [Queue_new]) ++ [Queue_new]) !! tq = Some q).
  { apply lookup_app_l_Some. by apply lookup_app_l_Some. }
  unfold stream_start_body, create_streaming_thread.
  cbn [stt set_queue class streaming_base language].
  rewrite length_app, Hnq. cbn [length].
  replace (nq + 1) with (S nq) by lia.
  assert (Hnew : ∀ lang0,
    phase {| stt := set_stream (Some (length (threads s)))
                      (set_queue (Some (S nq)) (set_queue (Some nq) (stt s)));
             queues := (queues s ++ [Queue_new]) ++ [Queue_new];
             threads := threads s
                        ++ [Thread_start transport (length (threads s))
                              (StreamThread_init (S nq) lang0)];
             pc := at_call; todo := todo s;
             results := results s ++ [Ok None] |}).
  { intros lang0. eapply (stop_returned _ _ _ _ _ _ _ _ _ _ q e);
      cbn [pc todo threads queues]; try done.
    - by apply lookup_app_l_Some.
    - unfold after_stop. rewrite Hk. left.
      cbn [results stt stream queue set_stream set_queue threads].
      rewrite Hres, Hnt, length_app, Hnt. cbn [length].
      split; [done|]. split; [done|]. split; [done|]. split; [lia|].
      eexists. split.
      + rewrite lookup_app_r by lia. rewrite Hnt, Nat.sub_diag. done.
      + done. }
  assert (Hfail :
    phase {| stt := set_queue (Some (S nq)) (set_queue (Some nq) (stt s));
             queues := (queues s ++ [Queue_new]) ++ [Queue_new];
             threads := threads s;
             pc := at_call; todo := todo s;
             results := results s
                        ++ [Raise (ValueError
                                     "Deepspeech is currently english only")] |}).
  { eapply (stop_returned _ _ _ _ _ _ _ _ _ _ q e);
      cbn [pc todo threads queues]; try done.
    unfold after_stop. rewrite Hk. right.
    cbn [results stt stream queue set_stream set_queue threads].
    by rewrite Hres. }
  destruct (class (stt s)); [|apply Hnew].
  destruct (negb _); [apply Hfail|apply Hnew].
Qed.

(** The phases are closed under the steps of the system. *)
Lemma stop_phase_step i s s' :
  invariant transport s → phase s →
  thread_step transport i s = Some s' → phase s'.
Proof.
  intros Hinv Hphase Hstep.
  destruct Hphase
    as [s th q c Hpc Htodo Hc Hres Hstream Hth Hthq Hq Hlog Hfinal Hnt Hnq
       |s th q Hpc Htodo Hres Hstream Hth Hthq Hq Hlog Hfinal Hnt Hnq
       |s l q e Hk Hpc Htodo Hres Hstream Hqueue Hth He Hq Hlog Hnt Hnq
       |s q e Hpc Htodo Hth He Hq Hlog Hafter
       |s e Hlen Hth He].
  - (* the call is made *)
    destruct i as [|t']; cbn [thread_step] in Hstep;
      [|by eapply stop_called_worker].
    destruct (inv_stream _ _ Hinv t Hstream) as (th0 & q0 & Hth0 & Hq0 & Hsi).
    rewrite Hth in Hth0. injection Hth0 as <-.
    pose proof (si_queue _ _ _ _ _ Hsi) as Hsq. rewrite Hthq in Hsq.
    unfold caller_step in Hstep. rewrite Hpc, Htodo in Hstep.
    injection Hstep as <-.
    assert (Hbegin :
      phase (stream_stop_begin k (set_caller at_call rest (results s) s))).
    { unfold stream_stop_begin. cbn [set_caller stt]. rewrite Hsq.
      eapply (stop_joining _ _ _ _ _ _ _ _ _ _ th (Queue_put None q));
        cbn [pc todo results stt threads queues set_caller]; try done.
      - rewrite list_lookup_alter_eq. by rewrite Hq.
      - cbn [Queue_put put_log]. by rewrite Hlog.
      - by rewrite length_alter. }
    destruct k as [|l0], c as [l|d| |a l]; cbn [call_of] in Hc; try done;
      unfold stream_start_call, stream_stop_call, execute_call,
        stream_stop_call; cbn [set_caller stt]; rewrite Hstream;
      [exact Hbegin|exact Hbegin|subst l; exact Hbegin].
  - (* the caller waits in [join] *)
    destruct i as [|t']; cbn [thread_step] in Hstep;
      [|by eapply stop_joining_worker].
    destruct (inv_stream _ _ Hinv t Hstream) as (th0 & q0 & Hth0 & Hq0 & Hsi).
    rewrite Hth in Hth0. injection Hth0 as <-.
    unfold caller_step in Hstep. rewrite Hpc in Hstep.
    unfold stream_stop_end in Hstep. rewrite Hstream, Hth in Hstep.
    destruct (th_state th) as [|h|k0|e] eqn:Hst; try done.
    { by destruct (si_started _ _ _ _ _ Hsi). }
    assert (Hfin : final = th).
    { rewrite <- Hfinal. unfold resume. by rewrite Hst. }
    subst th. injection Hstep as <-.
    destruct k as [|l].
    + eapply (stop_returned _ _ _ _ _ _ _ _ _ _ q e);
        cbn [pc todo threads queues]; try done.
      unfold after_stop. cbn [results stt stream queue set_stream set_queue
                              threads].
      by rewrite Hres.
    + eapply (stop_starting _ _ _ _ _ _ _ _ _ _ l q e);
        cbn [pc todo threads queues results stt stream queue set_stream
             set_queue]; try done.
  - (* [stream_start] is past its [stream_stop] *)
    destruct i as [|t']; cbn [thread_step] in Hstep.
    + unfold caller_step in Hstep. rewrite Hpc in Hstep.
      injection Hstep as <-. by eapply stop_starting_body.
    + pose proof (worker_step_open_stream _ _ _ _ Hinv Hstep) as Hopen.
      by rewrite Hstream in Hopen.
  - (* the call has returned *)
    destruct i as [|t']; cbn [thread_step] in Hstep.
    + destruct (caller_step_pops transport s s' Hpc Hstep) as [c Hc].
      eapply (stop_beyond _ _ _ _ _ _ _ _ _ _ e); [| |done].
      * rewrite <- Htodo, Hc. cbn [length]. lia.
      * by eapply (thread_step_finished transport caller).
    + pose proof (worker_step_open_stream _ _ _ _ Hinv Hstep) as Hopen.
      pose proof (thread_step_finished transport (worker t') s s' t final e
                    Hstep Hth He) as Hth'.
      apply worker_step_inv in Hstep
        as (th1 & q1 & th' & q' & Hth1 & Hq1 & Hst & ->).
      destruct (StreamThread_step_frame _ _ _ _ Hst) as (Hfq & _ & Hflog).
      unfold after_stop in Hafter. destruct k as [|l].
      { destruct Hafter as (_ & Hnone & _). by rewrite Hnone in Hopen. }
      destruct Hafter as [(Hres & Hstream & Hqueue & Hlen & th2 & Hth2 & Hq2 & Hs2)
                         |(_ & Hnone & _)];
        [|by rewrite Hnone in Hopen].
      rewrite Hstream in Hopen. injection Hopen as <-.
      rewrite Hth2 in Hth1. injection Hth1 as <-.
      eapply (stop_returned _ _ _ _ _ _ _ _ _ _ q e);
        cbn [pc todo threads queues]; try done.
      * rewrite list_lookup_insert_ne by lia. done.
      * unfold after_stop. left.
        cbn [results stt stream queue threads].
        split; [done|]. split; [done|]. split; [done|].
        split; [by rewrite length_insert|].
        exists th'. split; [|split].
        -- apply list_lookup_insert_eq. by eapply lookup_lt_Some.
        -- congruence.
        -- by eapply StreamThread_step_started.
  - (* the caller has gone on *)
    eapply (stop_beyond _ _ _ _ _ _ _ _ _ _ e); [| |done].
    + destruct (thread_step_todo transport i s s' Hstep)
        as [->|(_ & c & Hc)]; [done|].
      rewrite Hc in Hlen. cbn [length] in Hlen. lia.
    + by eapply thread_step_finished.
Qed.

Lemma stop_phase_run sched : ∀ s,
  invariant transport s → phase s →
  invariant transport (run transport sched s) ∧ phase (run transport sched s).
Proof.
  induction sched as [|i sched IH]; intros s Hinv Hphase; cbn [run]; [done|].
  destruct (thread_step transport i s) as [s'|] eqn:Hstep; [|by apply IH].
  apply IH.
  - eapply invariant_step; [done|]. by exists i.
  - by eapply stop_phase_step.
Qed.

(** Some schedule brings the call to its return. *)
Lemma stop_phase_returns s :
  invariant transport s → phase s → length rest ≤ length (todo s) →
  ∃ sched, pc (run transport sched s) = at_call
           ∧ todo (run transport sched s) = rest.
Proof.
  induction (step_terminates transport s) as [s _ IH].
  intros Hinv Hphase Hlen.
  assert (Hgo : ¬ caller_done s →
                (∀ i s', thread_step transport i s = Some s' →
                         length rest ≤ length (todo s')) →
                ∃ sched, pc (run transport sched s) = at_call
                         ∧ todo (run transport sched s) = rest).
  { intros Hnot Hkeep.
    destruct (progress transport s Hinv Hnot) as (i & s' & Hstep).
    destruct (IH s') as [sched Hsched].
    - by exists i.
    - eapply invariant_step; [done|]. by exists i.
    - by eapply stop_phase_step.
    - by eapply Hkeep.
    - exists (i :: sched). cbn [run]. by rewrite Hstep. }
  destruct Hphase
    as [s th q c Hpc Htodo Hc Hres Hstream Hth Hthq Hq Hlog Hfinal Hnt Hnq
       |s th q Hpc Htodo Hres Hstream Hth Hthq Hq Hlog Hfinal Hnt Hnq
       |s l q e Hk Hpc Htodo Hres Hstream Hqueue Hth He Hq Hlog Hnt Hnq
       |s q e Hpc Htodo Hth He Hq Hlog Hafter
       |s e Hlen' Hth He].
  - apply Hgo.
    + intros [_ Hd]. by rewrite Htodo in Hd.
    + intros i s' Hstep.
      destruct (thread_step_todo transport i s s' Hstep)
        as [->|(_ & c' & Hc')].
      * rewrite Htodo. cbn [length]. lia.
      * rewrite Htodo in Hc'. injection Hc' as _ <-. done.
  - apply Hgo.
    + intros [Hd _]. by rewrite Hpc in Hd.
    + intros i s' Hstep.
      destruct (thread_step_todo transport i s s' Hstep)
        as [->|(Hd & _)]; [by rewrite Htodo|by rewrite Hpc in Hd].
  - apply Hgo.
    + intros [Hd _]. by rewrite Hpc in Hd.
    + intros i s' Hstep.
      destruct (thread_step_todo transport i s s' Hstep)
        as [->|(Hd & _)]; [by rewrite Htodo|by rewrite Hpc in Hd].
  - by exists [].
  - lia.
Qed.

End StopSteps.

(** What a phase says of a state in which the call has returned and the
    next has not been made. *)
Lemma stop_phase_returned t tq final log k rs rest nt nq s :
  stop_phase t tq final log k rs rest nt nq s →
  pc s = at_call → todo s = rest →
  ∃ q e, threads s !! t = Some final ∧ th_state final = finished e
         ∧ queues s !! tq = Some q ∧ put_log q = log ++ [None]
         ∧ after_stop final k rs nt nq s.
Proof.
  intros Hphase Hpc Htodo.
  destruct Hphase
    as [s th q c Hpc' Htodo' Hc Hres Hstream Hth Hthq Hq Hlog Hfinal Hnt Hnq
       |s th q Hpc' Htodo' Hres Hstream Hth Hthq Hq Hlog Hfinal Hnt Hnq
       |s l q e Hk Hpc' Htodo' Hres Hstream Hqueue Hth He Hq Hlog Hnt Hnq
       |s q e Hpc' Htodo' Hth He Hq Hlog Hafter
       |s e Hlen Hth He].
  - rewrite Htodo in Htodo'. apply (f_equal length) in Htodo'.
    cbn [length] in Htodo'. lia.
  - by rewrite Hpc in Hpc'.
  - by rewrite Hpc in Hpc'.
  - by exists q, e.
  - rewrite Htodo in Hlen. lia.
Qed.


(** A state with an open stream whose caller is given a call that stops
    the stream is in the first phase. *)
Lemma stop_phase_enter s t th q k c rest rs :
  stream (stt s) = Some t → threads s !! t = Some th →
  queues s !! th_queue th = Some q → call_of k c →
  t < length (threads s) ∧ th_queue th < length (queues s)
  ∧ stop_phase t (th_queue th) (resume th (Queue_put None q)).1 (put_log q)
               k rs rest (length (threads s)) (length (queues s))
               (set_caller at_call (c :: rest) rs s).
Proof.
  intros Hstream Hth Hq Hc.
  split; [by eapply lookup_lt_Some|]. split; [by eapply lookup_lt_Some|].
  by eapply (stop_called _ _ _ _ _ _ _ _ _ _ th q c).
Qed.


(** As long as the thread of the stopped stream is alive, no thread has
    been added and the backend holds that stream. *)
Lemma stop_phase_alive t tq final log k rs rest nt nq s th1 :
  stop_phase t tq final log k rs rest nt nq s →
  threads s !! t = Some th1 → is_alive th1 = true →
  length (threads s) = nt ∧ stream (stt s) = Some t.
Proof.
  intros Hphase Hth1 Halive.
  assert (Hdone : ∀ e, threads s !! t = Some final →
                       th_state final = finished e → False).
  { intros e Hth He. rewrite Hth in Hth1. injection Hth1 as <-.
    unfold is_alive in Halive. by rewrite He in Halive. }
  destruct Hphase
    as [s th q c Hpc Htodo Hc Hres Hstream Hth Hthq Hq Hlog Hfinal Hnt Hnq
       |s th q Hpc Htodo Hres Hstream Hth Hthq Hq Hlog Hfinal Hnt Hnq
       |s l q e Hk Hpc Htodo Hres Hstream Hqueue Hth He Hq Hlog Hnt Hnq
       |s q e Hpc Htodo Hth He Hq Hlog Hafter
       |s e Hlen Hth He]; try done; by destruct (Hdone e).
Qed.

(** [stream_start] past its [stream_stop]: the backend holds neither
    thread nor queue, and no thread has been added. *)
Lemma stop_phase_released t tq final log k rs rest nt nq s l :
  stop_phase t tq final log k rs rest nt nq s →
  pc s = starting l → todo s = rest →
  stream (stt s) = None ∧ queue (stt s) = None
  ∧ length (threads s) = nt ∧ results s = rs
  ∧ threads s !! t = Some final.
Proof.
  intros Hphase Hpc Htodo.
  destruct Hphase
    as [s th q c Hpc' Htodo' Hc Hres Hstream Hth Hthq Hq Hlog Hfinal Hnt Hnq
       |s th q Hpc' Htodo' Hres Hstream Hth Hthq Hq Hlog Hfinal Hnt Hnq
       |s l0 q e Hk Hpc' Htodo' Hres Hstream Hqueue Hth He Hq Hlog Hnt Hnq
       |s q e Hpc' Htodo' Hth He Hq Hlog Hafter
       |s e Hlen Hth He].
  - by rewrite Hpc in Hpc'.
  - by rewrite Hpc in Hpc'.
  - done.
  - by rewrite Hpc in Hpc'.
  - rewrite Htodo in Hlen. lia.
Qed.
(* ===================================================================== *)
(** ** A session after any history *)
(* ===================================================================== *)

Section SessionSteps.

Variable transport : nat → string → audio_handler.
Variables (t0 q0 : nat) (lang0 : string).
Variables (rs0 : list (result (option string))) (l0 : option string).
Variable chunks : list bytes.

#[local] Abbreviation sess :=
  (session_from transport t0 q0 lang0 rs0 l0 chunks).

Lemma session_from_worker s s' t th q :
  invariant transport s →
  stream (stt s) = Some t0 → threads s !! t0 = Some th →
  queues s !! q0 = Some q → th_queue th = q0 →
  worker_step t s = Some s' →
  ∃ th' q', threads s' !! t0 = Some th' ∧ queues s' !! q0 = Some q'
            ∧ th_queue th' = q0 ∧ th_language th' = th_language th
            ∧ put_log q' = put_log q
            ∧ stt s' = stt s ∧ pc s' = pc s ∧ todo s' = todo s
            ∧ results s' = results s
            ∧ length (threads s') = length (threads s).
Proof.
  intros Hinv Hstream Hth Hq Hthq Hstep.
  pose proof (worker_step_open_stream _ _ _ _ Hinv Hstep) as Ht.
  rewrite Hstream in Ht. injection Ht as <-.
  apply worker_step_inv in Hstep as (th1 & q1 & th' & q' & Hth1 & Hq1 & Hst & ->).
  rewrite Hth in Hth1. injection Hth1 as <-.
  rewrite Hthq, Hq in Hq1. injection Hq1 as <-.
  destruct (StreamThread_step_frame _ _ _ _ Hst) as (Hfq & Hfl & Hflog).
  exists th', q'. cbn [threads queues stt pc todo results].
  rewrite Hthq, length_insert.
  repeat split; try done.
  - apply list_lookup_insert_eq. by eapply lookup_lt_Some.
  - apply list_lookup_insert_eq. by eapply lookup_lt_Some.
  - by rewrite Hfq.
Qed.

Lemma session_from_step s s' :
  invariant transport s → sess s → step transport s s' → sess s'.
Proof.
  intros Hinv Hsess [i Hstep].
  destruct Hsess as [s Hpc Htodo Hres Hstream Hnt Hnq Hlang Hacc
                     |s th q rest n Hstream Hth Hq Hthq Hlang Hnt Hpc Htodo Hlog Hres Hn
                     |s th q Hstream Hth Hq Hthq Hlang Hnt Hpc Htodo Hlog Hres
                     |s th q Hpc Htodo Hstream Hqueue Hth Hnt Hq Hrun Hfin Hseen Hres].
  - (* before [stream_start] *)
    destruct i as [|t]; cbn [thread_step] in Hstep.
    + unfold caller_step in Hstep. rewrite Hpc, Htodo in Hstep.
      injection Hstep as <-.
      unfold stream_start_call. cbn [set_caller stt]. rewrite Hstream.
      unfold stream_start_body, create_streaming_thread.
      cbn [set_caller stt queues threads todo results set_queue class
           streaming_base language].
      assert (Hgoal : ∀ self,
        sess {| stt := set_stream (Some (length (threads s))) self;
                queues := (queues s ++ [Queue_new]) ++ [Queue_new];
                threads := threads s
                  ++ [Thread_start transport (length (threads s))
                        (StreamThread_init (length (queues s ++ [Queue_new]))
                                           lang0)];
                pc := at_call;
                todo := map stream_data chunks ++ [stream_stop];
                results := results s ++ [Ok None] |}).
      { intros self.
        eapply (session_open _ _ _ _ _ _ _ _ _ Queue_new chunks 1);
          cbn [stt queues threads pc todo results set_stream stream].
        - by rewrite Hnt.
        - rewrite <- Hnt. rewrite lookup_app_r by done.
          by rewrite Nat.sub_diag.
        - rewrite <- Hnq. rewrite lookup_app_r by (rewrite length_app; simpl; lia).
          rewrite length_app. simpl.
          by replace (S (length (queues s)) - (length (queues s) + 1)) with 0 by lia.
        - cbn. rewrite length_app. simpl. lia.
        - done.
        - rewrite length_app. simpl. lia.
        - done.
        - done.
        - done.
        - by rewrite Hres.
        - simpl. lia. }
      unfold thread_accepts in Hacc. unfold thread_language in Hlang.
      destruct (class (stt s)).
      * rewrite Hacc. cbn [negb]. rewrite Hlang. apply Hgoal.
      * rewrite Hlang. apply Hgoal.
    + apply (worker_step_open_stream transport) in Hstep; [|done].
      by rewrite Hstream in Hstep.
  - (* chunks are sent *)
    destruct (inv_stream _ _ Hinv t0 Hstream) as (th1 & q1 & Hth1 & Hq1 & Hsi).
    rewrite Hth in Hth1. injection Hth1 as <-.
    rewrite Hthq, Hq in Hq1. injection Hq1 as <-.
    pose proof (si_queue _ _ _ _ _ Hsi) as Hqueue. rewrite Hthq in Hqueue.
    destruct i as [|t]; cbn [thread_step] in Hstep.
    + unfold caller_step in Hstep. rewrite Hpc, Htodo in Hstep.
      destruct rest as [|d rest]; simpl in Hstep; injection Hstep as <-.
      * unfold stream_stop_call, stream_stop_begin. simpl.
        rewrite Hstream, Hqueue.
        eapply (session_closing _ _ _ _ _ _ _ _ th (Queue_put None q)); simpl;
          try done.
        -- rewrite list_lookup_alter_eq. by rewrite Hq.
        -- rewrite Hres. simpl in Hn.
           by replace n with (S (length chunks)) by lia.
      * unfold stream_data_call. simpl. rewrite Hqueue.
        eapply (session_open _ _ _ _ _ _ _ _ th (Queue_put (Some d) q) rest (S n));
          simpl; try done.
        -- rewrite list_lookup_alter_eq. by rewrite Hq.
        -- rewrite <- Hlog. unfold stream_of. simpl. by rewrite <- app_assoc.
        -- rewrite Hres, <- app_assoc. f_equal. apply repeat_snoc.
        -- simpl in Hn. lia.
    + destruct (session_from_worker _ _ _ _ _ Hinv Hstream Hth Hq Hthq Hstep)
        as (th' & q' & Hth' & Hq' & Hthq' & Hl' & Hlog' & Hstt & Hpc' & Htodo'
            & Hres' & Hlen').
      eapply (session_open _ _ _ _ _ _ _ _ th' q' rest n); try done.
      * by rewrite Hstt.
      * by rewrite Hl'.
      * by rewrite Hlen'.
      * by rewrite Hpc'.
      * by rewrite Htodo'.
      * by rewrite Hlog'.
      * by rewrite Hres'.
  - (* inside [stream_stop] *)
    destruct (inv_stream _ _ Hinv t0 Hstream) as (th1 & q1 & Hth1 & Hq1 & Hsi).
    rewrite Hth in Hth1. injection Hth1 as <-.
    rewrite Hthq, Hq in Hq1. injection Hq1 as <-.
    destruct i as [|t]; cbn [thread_step] in Hstep.
    + unfold caller_step, stream_stop_end in Hstep.
      rewrite Hpc, Hstream, Hth in Hstep. simpl in Hstep.
      destruct (th_state th) as [|h|k|e] eqn:Hst; try done.
      { by destruct (si_started _ _ _ _ _ Hsi). }
      injection Hstep as <-.
      eapply (session_closed _ _ _ _ _ _ _ _ th q); simpl; try done.
      * pose proof (si_alone _ _ _ _ _ Hsi []) as Halone.
        rewrite app_nil_r, Hlog in Halone. simpl in Halone.
        unfold resume at 1 in Halone. rewrite Hst in Halone.
        unfold rewind in Halone. rewrite Hthq, Hlang in Halone.
        by symmetry.
      * by exists e.
      * rewrite <- Hlog. apply (si_fifo _ _ _ _ _ Hsi).
      * by rewrite Hres, <- app_assoc.
    + destruct (session_from_worker _ _ _ _ _ Hinv Hstream Hth Hq Hthq Hstep)
        as (th' & q' & Hth' & Hq' & Hthq' & Hl' & Hlog' & Hstt & Hpc' & Htodo'
            & Hres' & Hlen').
      eapply (session_closing _ _ _ _ _ _ _ _ th' q'); try done.
      * by rewrite Hstt.
      * by rewrite Hl'.
      * by rewrite Hlen'.
      * by rewrite Hpc'.
      * by rewrite Htodo'.
      * by rewrite Hlog'.
      * by rewrite Hres'.
  - (* after [stream_stop] *)
    destruct i as [|t]; cbn [thread_step] in Hstep.
    + unfold caller_step in Hstep. by rewrite Hpc, Htodo in Hstep.
    + apply (worker_step_open_stream transport) in Hstep; [|done].
      by rewrite Hstream in Hstep.
Qed.

Lemma session_from_run sched : ∀ s,
  invariant transport s → sess s →
  invariant transport (run transport sched s) ∧ sess (run transport sched s).
Proof.
  induction sched as [|i sched IH]; intros s Hinv Hsess; [done|].
  simpl. destruct (thread_step transport i s) as [s'|] eqn:Hstep.
  - apply IH.
    + eapply invariant_step; [done|]. by exists i.
    + eapply session_from_step; [done|done|]. by exists i.
  - by apply IH.
Qed.

(** What the loop has taken is an initial part of what the session puts. *)
Lemma session_from_prefix s th :
  invariant transport s → sess s → threads s !! t0 = Some th →
  th_seen th `prefix_of` stream_of chunks.
Proof.
  intros Hinv Hsess Hth0.
  destruct Hsess as [s Hpc Htodo Hres Hstream Hnt Hnq Hlang Hacc
                     |s th1 q rest n Hstream Hth Hq Hthq Hlang Hnt Hpc Htodo Hlog Hres Hn
                     |s th1 q Hstream Hth Hq Hthq Hlang Hnt Hpc Htodo Hlog Hres
                     |s th1 q Hpc Htodo Hstream Hqueue Hth Hnt Hq Hrun Hfin Hseen Hres].
  - apply lookup_lt_Some in Hth0. lia.
  - destruct (inv_stream _ _ Hinv t0 Hstream) as (th2 & q2 & Hth2 & Hq2 & Hsi).
    rewrite Hth in Hth0. injection Hth0 as <-.
    rewrite Hth in Hth2. injection Hth2 as <-.
    rewrite Hthq, Hq in Hq2. injection Hq2 as <-.
    exists (items q ++ stream_of rest).
    by rewrite <- Hlog, <- (si_fifo _ _ _ _ _ Hsi), <- app_assoc.
  - destruct (inv_stream _ _ Hinv t0 Hstream) as (th2 & q2 & Hth2 & Hq2 & Hsi).
    rewrite Hth in Hth0. injection Hth0 as <-.
    rewrite Hth in Hth2. injection Hth2 as <-.
    rewrite Hthq, Hq in Hq2. injection Hq2 as <-.
    exists (items q). by rewrite <- Hlog, <- (si_fifo _ _ _ _ _ Hsi).
  - rewrite Hth in Hth0. injection Hth0 as <-. by exists (items q).
Qed.

(** When the caller is done, the session is over. *)
Lemma session_from_done s :
  sess s → caller_done s →
  ∃ th q,
    stream (stt s) = None ∧ queue (stt s) = None
    ∧ threads s !! t0 = Some th ∧ length (threads s) = S t0
    ∧ resume (Thread_start transport t0 (StreamThread_init q0 lang0))
             (put_all (stream_of chunks) Queue_new) = (th, q)
    ∧ (∃ e, th_state th = finished e)
    ∧ results s
      = rs0 ++ repeat (Ok None) (S (length chunks)) ++ [Ok (th_text th)].
Proof.
  intros Hsess [Hpc Htodo].
  destruct Hsess as [s Hpc' Htodo' Hres Hstream Hnt Hnq Hlang Hacc
                     |s th q rest n Hstream Hth Hq Hthq Hlang Hnt Hpc' Htodo' Hlog Hres Hn
                     |s th q Hstream Hth Hq Hthq Hlang Hnt Hpc' Htodo' Hlog Hres
                     |s th q Hpc' Htodo' Hstream Hqueue Hth Hnt Hq Hrun Hfin Hseen Hres].
  - rewrite Htodo' in Htodo. discriminate.
  - rewrite Htodo' in Htodo. by destruct rest.
  - rewrite Hpc' in Hpc. discriminate.
  - exists th, q. repeat split; done.
Qed.

(** A handler that iterates its argument to the end takes all of it. *)
Lemma session_thread_drains :
  drains (transport t0 lang0) chunks →
  th_seen (resume (Thread_start transport t0 (StreamThread_init q0 lang0))
                  (put_all (stream_of chunks) Queue_new)).1
  = stream_of chunks.
Proof.
  intros Hd. unfold resume, Thread_start. simpl.
  rewrite (StreamThread_run_drains _ _ _ chunks []); simpl; try done.
  - by rewrite put_all_items.
  - by left.
  - rewrite put_all_items, put_all_unfinished_tasks. simpl. lia.
Qed.

End SessionSteps.

(* ===================================================================== *)
(** ** Theorems: the streaming pipeline *)
(* ===================================================================== *)

(** C1, as stated, fails: a handler that raises after the first chunk
    leaves the second chunk and the end mark in the queue, and a
    [DeepSpeechStreamServerSTT] whose language is not English starts no
    thread at all; in both cases the four calls return or raise and the
    session is over. *)
Lemma session_not_delivered :
  (let s := run error_at_once caller_first
                (boot DeepSpeechStreamServerSTT english "en-US"
                      (session [chunk_a; chunk_b])) in
   caller_done s
   ∧ ∃ th, threads s = [th] ∧ th_seen th = [Some chunk_a]
           ∧ th_seen th ≠ [Some chunk_a; Some chunk_b; None])
  ∧ (let s := run upload_all caller_first
                  (boot DeepSpeechStreamServerSTT german "de-DE"
                        (session [chunk_a; chunk_b])) in
     caller_done s ∧ threads s = []).
Proof.
  split; (split; [split; vm_compute; reflexivity|]).
  - eexists. split; [vm_compute; reflexivity|]. split; [reflexivity|].
    discriminate.
  - vm_compute; reflexivity.
Qed.

(** C1, amended.  A backend has reached, from its constructor and under
    any calls and schedule, a state in which no stream is open; the
    constructor of its thread accepts its language; it is given
    [stream_start], [stream_data(a)], [stream_data(b)], [stream_stop] to
    call.  In every state of every interleaving the items the loop of
    [_get_data] of the thread of this session has taken are an initial
    part of [a, b, None], and as long as the caller is not through, some
    thread can move.  When the handler of the thread iterates its
    argument to the end and [stream_stop] has returned, the loop has
    taken exactly [a], [b] and the end mark, in this order, each once,
    the end mark last, the thread is done, and it is the only thread the
    session has started. *)
Theorem session_delivers_in_order (transport : nat → string → audio_handler)
    (c : streaming_class) (base : STT) (language : string)
    (calls : list call) (sched0 : list thread_id)
    (l : option string) (a b : bytes) (rs : list (result (option string))) :
  let s := run transport sched0 (boot c base language calls) in
  let t0 := length (threads s) in
  let s0 := set_caller at_call
              [stream_start l; stream_data a; stream_data b; stream_stop] rs s in
  stream (stt s) = None →
  thread_accepts (stt s) = true →
  ∀ sched,
    let s1 := run transport sched s0 in
    (∀ th, threads s1 !! t0 = Some th →
           th_seen th `prefix_of` [Some a; Some b; None])
    ∧ (¬ caller_done s1 → ∃ i s', thread_step transport i s1 = Some s')
    ∧ (drains (transport t0 (thread_language (stt s))) [a; b] →
       caller_done s1 →
       ∃ th, threads s1 !! t0 = Some th
             ∧ length (threads s1) = S t0
             ∧ th_seen th = [Some a; Some b; None]
             ∧ (∃ e, th_state th = finished e)
             ∧ results s1 = rs ++ [Ok None; Ok None; Ok None; Ok (th_text th)]).
Proof.
  intros s t0 s0 Hstream Hacc sched s1.
  assert (Hinv0 : invariant transport s0)
    by apply invariant_set_caller, invariant_run, invariant_boot.
  assert (Hsess0 : session_from transport t0 (S (length (queues s)))
                     (thread_language (stt s)) rs l [a; b] s0)
    by (by apply session_idle).
  destruct (session_from_run transport _ _ _ _ _ _ sched s0 Hinv0 Hsess0)
    as [Hinv Hsess].
  fold s1 in Hinv, Hsess. split; [|split].
  - intros th Hth.
    by apply (session_from_prefix transport _ _ _ _ _ _ s1 th Hinv Hsess).
  - by apply progress.
  - intros Hdrains Hdone.
    destruct (session_from_done _ _ _ _ _ _ _ _ Hsess Hdone)
      as (th & q & _ & _ & Hth & Hlen & Hrun & Hfin & Hres).
    exists th. split; [done|]. split; [done|].
    pose proof (session_thread_drains transport t0 (S (length (queues s)))
                  _ [a; b] Hdrains) as Hseen.
    rewrite Hrun in Hseen. done.
Qed.

(** The second session of a backend. *)
Lemma session_delivers_in_order_witness :
  let s := run upload_all by_turns
               (boot DeepSpeechStreamServerSTT english "en-US"
                     (session [chunk_b])) in
  let s1 := run upload_all second_by_turns
                (set_caller at_call
                   [stream_start None; stream_data chunk_a;
                    stream_data chunk_b; stream_stop] [] s) in
  ∃ th, threads s1 !! 1 = Some th
        ∧ th_seen th = [Some chunk_a; Some chunk_b; None].
Proof.
  intros s s1.
  destruct (session_delivers_in_order upload_all DeepSpeechStreamServerSTT
              english "en-US" (session [chunk_b]) by_turns None
              chunk_a chunk_b [] eq_refl eq_refl second_by_turns)
    as (_ & _ & Hdone).
  destruct (Hdone I) as (th & Hth & _ & Hseen & _).
  - split; vm_compute; reflexivity.
  - exact (ex_intro _ th (conj Hth Hseen)).
Defined.

Lemma StreamThread_run_no_text h : ∀ th q,
  sets_no_text h → th_text (StreamThread_run h th q).1 = th_text th.
Proof.
  induction h as [k IH|t k IH| |e]; intros th q Hno; simpl in *; try done.
  destruct (get_data_enter th q) as [[th1 q1]|[r th1]] eqn:Henter.
  - assert (Ht1 : th_text th1 = th_text th).
    { revert Henter. unfold get_data_enter.
      destruct (th_gen th); try (by intros [= <- <-]).
      destruct (Queue_task_done q); by intros [= <- <-]. }
    destruct (get_data_get th1 q1) as [[[r th2] q2]|] eqn:Hget; [|done].
    rewrite IH by done. rewrite <- Ht1.
    revert Hget. unfold get_data_get.
    destruct (Queue_get q1) as [[[d|] q3]|]; [| |done]; by intros [= <- <- <-].
  - rewrite IH by done.
    revert Henter. unfold get_data_enter.
    destruct (th_gen th); try (by intros [= <- <-]).
    destruct (Queue_task_done q); by intros [= <- <-].
Qed.

(** C2, as stated, fails: a handler that has recorded a text before its
    transport raises leaves that text in the thread, and [stream_stop]
    returns it. *)
Lemma stream_stop_returns_text_after_error :
  let s := run result_then_error by_turns
               (boot GoogleCloudStreamingSTT english "en-US"
                     (session [chunk_a])) in
  caller_done s
  ∧ (∃ th, threads s = [th]
           ∧ th_state th
             = finished (Some (OtherError "TransportError" "stream broken")))
  ∧ results s = [Ok None; Ok None; Ok (Some "hello")]
  ∧ last (results s) ≠ Some (Ok None).
Proof.
  split; [split; vm_compute; reflexivity|]. split; [|split].
  - eexists. split; vm_compute; reflexivity.
  - vm_compute; reflexivity.
  - vm_compute. discriminate.
Qed.

(** C2, amended.  A backend has reached, from its constructor and under
    any calls and schedule, a state in which a stream is open, and is
    given [stream_stop] to call.  When the handler of the thread of that
    stream, going on from where it is with the end mark behind what is in
    its queue, ends by raising: every run from there is finite (the handlers
    are those that end), some schedule brings [stream_stop] to its return,
    and no schedule gets stuck before; and once [stream_stop] has returned, it has returned,
    without raising, the text the thread holds as its handler left it,
    the thread is done, and the backend holds neither thread nor queue.
    That text is [None] when the handler assigns no text. *)
Theorem stream_stop_after_worker_error (transport : nat → string → audio_handler)
    (c : streaming_class) (base : STT) (language : string)
    (calls : list call) (sched0 : list thread_id)
    (t : nat) (th : StreamThread) (q : Queue)
    (rest : list call) (rs : list (result (option string))) (e : exn) :
  let s := run transport sched0 (boot c base language calls) in
  let final := (resume th (Queue_put None q)).1 in
  let s0 := set_caller at_call (stream_stop :: rest) rs s in
  stream (stt s) = Some t → threads s !! t = Some th →
  queues s !! th_queue th = Some q →
  th_state final = finished (Some e) →
  Acc (fun s' s => step transport s s') s0
  ∧ (∃ sched, pc (run transport sched s0) = at_call
              ∧ todo (run transport sched s0) = rest)
  ∧ (sets_no_text (transport t (th_language th)) → th_text final = None)
  ∧ ∀ sched,
      let s1 := run transport sched s0 in
      (¬ caller_done s1 → ∃ i s', thread_step transport i s1 = Some s')
      ∧ (pc s1 = at_call → todo s1 = rest →
         results s1 = rs ++ [Ok (th_text final)]
         ∧ threads s1 !! t = Some final
         ∧ stream (stt s1) = None ∧ queue (stt s1) = None).
Proof.
  intros s final s0 Hstream Hth Hq Hraise.
  assert (Hinv : invariant transport s) by apply invariant_run, invariant_boot.
  assert (Hinv0 : invariant transport s0) by (by apply invariant_set_caller).
  destruct (stop_phase_enter s t th q return_text stream_stop rest rs
              Hstream Hth Hq I) as (Ht & Htq & Hphase).
  fold final s0 in Hphase.
  split; [apply step_terminates|]. split; [|split].
  - eapply (stop_phase_returns transport); [exact Ht|exact Htq|done|done|].
    unfold s0. cbn [set_caller todo length]. lia.
  - intros Hno.
    destruct (inv_stream _ _ Hinv t Hstream) as (th0 & q0 & Hth0 & Hq0 & Hsi).
    fold s in Hth0, Hq0. rewrite Hth in Hth0. injection Hth0 as <-.
    rewrite Hq in Hq0. injection Hq0 as <-.
    pose proof (si_alone _ _ _ _ _ Hsi [None]) as Halone.
    change (put_all [None] q) with (Queue_put None q) in Halone.
    unfold final. rewrite Halone. unfold rewind, Thread_start, resume.
    cbn [th_set_state th_state StreamThread_init th_language].
    rewrite StreamThread_run_set_state.
    by rewrite StreamThread_run_no_text.
  - intros sched s1.
    destruct (stop_phase_run transport _ _ _ _ _ _ _ _ _ Ht Htq sched s0
                Hinv0 Hphase) as [Hinv1 Hphase1].
    fold s1 in Hinv1, Hphase1. split; [by apply progress|].
    intros Hpc Htodo.
    destruct (stop_phase_returned _ _ _ _ _ _ _ _ _ s1 Hphase1 Hpc Htodo)
      as (qf & e' & Hthf & _ & _ & _ & Hafter).
    unfold after_stop in Hafter.
    destruct Hafter as (Hres & Hnone & Hqnone & _). done.
Qed.

(** The second stream of a backend, whose handler has recorded a text
    and then fails. *)
Lemma stream_stop_after_worker_error_witness :
  let s := run result_then_error second_stream
               (boot GoogleCloudStreamingSTT english "en-US"
                     (session [chunk_a]
                      ++ [stream_start None; stream_data chunk_b])) in
  let s1 := run result_then_error second_by_turns
                (set_caller at_call [stream_stop] [] s) in
  results s1 = [Ok (Some "hello")] ∧ stream (stt s1) = None.
Proof.
  intros s s1.
  assert (Hth : ∃ th, threads s !! 1 = Some th)
    by (eexists; vm_compute; reflexivity).
  destruct Hth as [th Hth].
  assert (Hq : ∃ q, queues s !! 3 = Some q)
    by (eexists; vm_compute; reflexivity).
  destruct Hq as [q Hq].
  assert (Hthq : th_queue th = 3).
  { revert Hth. vm_compute. by intros [= <-]. }
  assert (Hraise : th_state (resume th (Queue_put None q)).1
                   = finished (Some (OtherError "TransportError"
                                                "stream broken"))).
  { revert Hth Hq. vm_compute. by intros [= <-] [= <-]. }
  assert (Htext : th_text (resume th (Queue_put None q)).1 = Some "hello").
  { revert Hth Hq. vm_compute. by intros [= <-] [= <-]. }
  rewrite <- Hthq in Hq.
  destruct (stream_stop_after_worker_error result_then_error
              GoogleCloudStreamingSTT english "en-US"
              (session [chunk_a] ++ [stream_start None; stream_data chunk_b])
              second_stream 1 th q [] [] _
              ltac:(vm_compute; reflexivity) Hth Hq Hraise)
    as (_ & _ & _ & H).
  destruct (H second_by_turns) as [_ Hret].
  destruct Hret as (Hres & _ & Hnone & _);
    [vm_compute; reflexivity|vm_compute; reflexivity|].
  fold s s1 in Hres, Hnone. rewrite Htext in Hres. by split.
Defined.

(** C6.  [stream_stop] on a backend that holds no thread returns [None]
    without raising, in one step of the caller that leaves the backend
    and the store as they were.  A backend holds no thread when it comes
    from its constructor, and when [stream_stop] has collected the text
    of the previous stream. *)
Theorem stream_stop_without_stream (transport : nat → string → audio_handler)
    (s : system) (rest : list call) :
  pc s = at_call → todo s = stream_stop :: rest → stream (stt s) = None →
  (∃ s', caller_step transport s = Some s'
         ∧ results s' = results s ++ [Ok None]
         ∧ shared s' = shared s
         ∧ pc s' = at_call ∧ todo s' = rest)
  ∧ (∀ c base language calls, stream (stt (boot c base language calls)) = None)
  ∧ (∀ s0 s1 text,
       stream_stop_end return_text s0 = Some s1 →
       results s1 = results s0 ++ [Ok text] →
       stream (stt s1) = None).
Proof.
  intros Hpc Htodo Hnone. split; [|split].
  - eexists. unfold caller_step. rewrite Hpc, Htodo.
    unfold stream_stop_call. simpl. rewrite Hnone. by repeat split.
  - done.
  - intros s0 s1 text. unfold stream_stop_end.
    destruct (stream (stt s0)) as [t|]; [|done].
    destruct (threads s0 !! t) as [th|]; [|done].
    destruct (th_state th); try done; intros [= <-]; simpl; [|done].
    intros Hres. apply app_inv_head in Hres. discriminate.
Qed.

Lemma stream_stop_without_stream_witness :
  ∃ s', caller_step upload_all
          (boot GoogleCloudStreamingSTT english "en-US" [stream_stop]) = Some s'
        ∧ results s' = [Ok None]
        ∧ stt s' = StreamingSTT_init GoogleCloudStreamingSTT english "en-US".
Proof.
  destruct (stream_stop_without_stream upload_all
              (boot GoogleCloudStreamingSTT english "en-US" [stream_stop]) []
              eq_refl eq_refl eq_refl) as [(s' & Hstep & Hres & Hshared & _) _].
  exists s'. split; [exact Hstep|]. split; [exact Hres|].
  unfold shared in Hshared. by injection Hshared as -> _ _.
Defined.

(** C9.  Whatever [audio] and [language] are, [execute(audio, language)]
    is the step [stream_stop()] is, and under every schedule the system
    goes on as after [stream_stop()]; the call puts nothing into a queue
    but the end mark, starts no thread and hands the audio to none. *)
Theorem execute_is_stream_stop (transport : nat → string → audio_handler)
    (s : system) (audio : AudioData) (language : option string)
    (rest : list call) (rs : list (result (option string))) :
  caller_step transport (set_caller at_call (execute audio language :: rest) rs s)
  = caller_step transport (set_caller at_call (stream_stop :: rest) rs s)
  ∧ (∀ sched,
       run transport (caller :: sched)
           (set_caller at_call (execute audio language :: rest) rs s)
       = run transport (caller :: sched)
             (set_caller at_call (stream_stop :: rest) rs s))
  ∧ (∀ s',
       caller_step transport
         (set_caller at_call (execute audio language :: rest) rs s) = Some s' →
       threads s' = threads s
       ∧ (queues s' = queues s
          ∨ ∃ q, queue (stt s) = Some q
                 ∧ queues s' = alter (Queue_put None) q (queues s))).
Proof.
  split; [done|]. split.
  - intros sched. simpl. done.
  - intros s'. unfold caller_step. simpl.
    unfold execute_call, stream_stop_call, stream_stop_begin. simpl.
    destruct (stream (stt s)); [|intros [= <-]; simpl; by auto].
    destruct (queue (stt s)) as [q|]; intros [= <-]; simpl; [|by auto].
    split; [done|]. right. by exists q.
Qed.


(* ===================================================================== *)
(** ** [stream_start] on an open stream *)
(* ===================================================================== *)

Lemma filter_alive_nil (l : list StreamThread) :
  (∀ i th, l !! i = Some th → is_alive th = false) →
  filter (fun th => is_alive th = true) l = [].
Proof.
  induction l as [|x l IH]; intros Hall; [done|].
  rewrite filter_cons_False.
  - apply IH. intros i th Hth. by apply (Hall (S i)).
  - rewrite (Hall 0 x eq_refl). discriminate.
Qed.

Lemma live_workers_invariant transport s :
  invariant transport s → live_workers s ≤ 1.
Proof.
  intros Hinv. unfold live_workers.
  assert (Hgen : ∀ (l : list StreamThread) (t : option nat),
            (∀ i th, l !! i = Some th → t ≠ Some i → is_alive th = false) →
            length (filter (fun th => is_alive th = true) l) ≤ 1).
  { induction l as [|x l IH]; intros t Hall; [simpl; lia|].
    destruct (decide (t = Some 0)) as [->|Hne].
    - assert (Hrest : filter (fun th => is_alive th = true) l = []).
      { apply filter_alive_nil. intros i th Hth. by apply (Hall (S i)). }
      destruct (decide (is_alive x = true)).
      + rewrite filter_cons_True by done. rewrite Hrest. simpl. lia.
      + rewrite filter_cons_False by done. rewrite Hrest. simpl. lia.
    - rewrite filter_cons_False.
      + apply (IH (pred <$> t)). intros i th Hth Hi.
        apply (Hall (S i)); [done|].
        destruct t as [[|n]|]; simpl in *; congruence.
      + rewrite (Hall 0 x eq_refl Hne). discriminate. }
  apply (Hgen _ (stream (stt s))).
  intros i th Hth Hi.
  destruct (inv_others _ _ Hinv i th Hth Hi) as [e He].
  unfold is_alive. by rewrite He.
Qed.

Lemma shared_eq s1 s2 :
  shared s1 = shared s2 →
  stt s1 = stt s2 ∧ queues s1 = queues s2 ∧ threads s1 = threads s2.
Proof. unfold shared. by intros [= -> -> ->]. Qed.

(** A step of a worker reads and writes the store alone. *)
Lemma worker_step_shared t s1 s2 :
  shared s1 = shared s2 →
  (worker_step t s1 = None ∧ worker_step t s2 = None)
  ∨ ∃ a b, worker_step t s1 = Some a ∧ worker_step t s2 = Some b
           ∧ shared a = shared b
           ∧ pc a = pc s1 ∧ todo a = todo s1 ∧ pc b = pc s2 ∧ todo b = todo s2
           ∧ stt a = stt s1.
Proof.
  intros (Hstt & Hqs & Hths)%shared_eq. unfold worker_step.
  rewrite Hths, Hqs.
  destruct (threads s2 !! t) as [th|]; [|by left].
  destruct (queues s2 !! th_queue th) as [q|]; [|by left].
  destruct (StreamThread_step th q) as [[th' q']|]; [|by left].
  right. eexists _, _. repeat split. unfold shared. simpl. by rewrite Hstt.
Qed.

(** Lines 426-429 read the store and the calls to come, not the
    results. *)
Lemma stream_start_body_shared transport language s1 s2 :
  shared s1 = shared s2 → todo s1 = todo s2 →
  shared (stream_start_body transport language s1)
  = shared (stream_start_body transport language s2)
  ∧ pc (stream_start_body transport language s1)
    = pc (stream_start_body transport language s2)
  ∧ todo (stream_start_body transport language s1)
    = todo (stream_start_body transport language s2).
Proof.
  intros (Hstt & Hqs & Hths)%shared_eq Htodo.
  unfold stream_start_body, create_streaming_thread. simpl.
  rewrite Hstt, Hqs, Hths, Htodo.
  destruct (class (stt s2)); [destruct (negb _)|]; done.
Qed.

Lemma stream_stop_begin_shared k1 k2 s1 s2 q :
  shared s1 = shared s2 → queue (stt s1) = Some q →
  shared (stream_stop_begin k1 s1) = shared (stream_stop_begin k2 s2)
  ∧ pc (stream_stop_begin k1 s1) = joining k1
  ∧ pc (stream_stop_begin k2 s2) = joining k2
  ∧ todo (stream_stop_begin k1 s1) = todo s1
  ∧ todo (stream_stop_begin k2 s2) = todo s2.
Proof.
  intros (Hstt & Hqs & Hths)%shared_eq Hq. unfold stream_stop_begin.
  rewrite <- Hstt, Hq. unfold shared. simpl. by rewrite Hstt, Hqs, Hths.
Qed.

(** After the second [stream_start] both callers make the same calls on
    the same store. *)
Lemma thread_step_after transport i s1 s2 :
  shared s1 = shared s2 → pc s1 = pc s2 → todo s1 = todo s2 →
  (thread_step transport i s1 = None ∧ thread_step transport i s2 = None)
  ∨ ∃ a b, thread_step transport i s1 = Some a
           ∧ thread_step transport i s2 = Some b
           ∧ shared a = shared b ∧ pc a = pc b ∧ todo a = todo b.
Proof.
  intros Hshared Hpc Htodo. destruct i as [|t]; simpl.
  - pose proof Hshared as (Hstt & Hqs & Hths)%shared_eq.
    unfold caller_step. rewrite Hpc, Htodo.
    destruct (pc s2) as [|k|language].
    + destruct (todo s2) as [|c rest]; [by left|]. right.
      eexists _, _. split; [done|]. split; [done|].
      destruct c as [language|data| |audio language];
        unfold stream_start_call, stream_data_call, execute_call,
               stream_stop_call, stream_stop_begin; simpl;
        rewrite Hstt.
      * destruct (stream (stt s2)).
        -- destruct (queue (stt s2)); unfold shared; simpl;
             by rewrite ?Hstt, ?Hqs, ?Hths.
        -- by apply stream_start_body_shared.
      * destruct (queue (stt s2)); unfold shared; simpl;
          by rewrite ?Hstt, ?Hqs, ?Hths.
      * destruct (stream (stt s2)); [destruct (queue (stt s2))|];
          unfold shared; simpl; by rewrite ?Hstt, ?Hqs, ?Hths.
      * destruct (stream (stt s2)); [destruct (queue (stt s2))|];
          unfold shared; simpl; by rewrite ?Hstt, ?Hqs, ?Hths.
    + unfold stream_stop_end. rewrite Hstt, Hths.
      destruct (stream (stt s2)) as [t|]; [|by left].
      destruct (threads s2 !! t) as [th|]; [|by left].
      destruct (th_state th); try (by left); right; eexists _, _;
        (split; [done|]); (split; [done|]);
        destruct k; unfold shared; simpl; by rewrite ?Hstt, ?Hqs, ?Hths.
    + right. eexists _, _. split; [done|]. split; [done|].
      by apply stream_start_body_shared.
  - destruct (worker_step_shared t s1 s2 Hshared)
      as [?|(a & b & Ha & Hb & Hs & Hpa & Hta & Hpb & Htb & _)]; [by left|].
    right. exists a, b. repeat split; try done; congruence.
Qed.

(** The two continuations move in step. *)
Lemma start_twice_step transport language rest i s1 s2 :
  invariant transport s1 → start_twice language rest s1 s2 →
  (thread_step transport i s1 = None ∧ thread_step transport i s2 = None)
  ∨ ∃ a b, thread_step transport i s1 = Some a
           ∧ thread_step transport i s2 = Some b
           ∧ start_twice language rest a b.
Proof.
  intros Hinv Hrel.
  assert (Hs : shared s1 = shared s2) by (by destruct Hrel).
  pose proof Hs as (Hstt & Hqs & Hths)%shared_eq.
  destruct i as [|t]; simpl.
  2: { destruct (worker_step_shared t s1 s2 Hs)
         as [?|(a & b & Ha & Hb & Hsab & Hpa & Hta & Hpb & Htb & Hstta)];
         [by left|].
       right. exists a, b. split; [done|]. split; [done|].
       destruct Hrel;
         [apply start_twice_call | apply start_twice_join
         | apply start_twice_body | apply start_twice_after]; congruence. }
  destruct Hrel as [s1 s2 _ Hsome Hpc1 Htodo1 Hpc2 Htodo2
                   |s1 s2 _ Hpc1 Htodo1 Hpc2 Htodo2
                   |s1 s2 _ Hnone Hpc1 Htodo1 Hpc2 Htodo2
                   |s1 s2 _ Hpc Htodo].
  - (* both are about to call *)
    right. unfold caller_step. rewrite Hpc1, Htodo1, Hpc2, Htodo2.
    eexists _, _. split; [done|]. split; [done|].
    unfold stream_start_call, stream_stop_call. simpl. rewrite <- Hstt.
    destruct (stream (stt s1)) as [t|] eqn:Ht; [|done].
    destruct (inv_stream _ _ Hinv t Ht) as (th & q & _ & _ & Hsi).
    destruct (stream_stop_begin_shared (then_start language) return_text
                (set_caller at_call rest (results s1) s1)
                (set_caller at_call (stream_start language :: rest)
                            (results s2) s2)
                (th_queue th))
      as (H1 & H2 & H3 & H4 & H5);
      [unfold shared; simpl; by rewrite Hstt, Hqs, Hths
      |exact (si_queue _ _ _ _ _ Hsi)|].
    by apply start_twice_join.
  - (* both wait in [join] *)
    unfold caller_step. rewrite Hpc1, Hpc2. unfold stream_stop_end.
    rewrite <- Hstt, <- Hths.
    destruct (stream (stt s1)) as [t|] eqn:Ht; [|by left].
    destruct (inv_stream _ _ Hinv t Ht) as (th & q & Hth & _ & Hsi).
    rewrite Hth.
    destruct (th_state th) as [|h|k|e] eqn:Hst; try (by left).
    { by destruct (si_started _ _ _ _ _ Hsi). }
    right. eexists _, _. split; [done|]. split; [done|].
    apply start_twice_body; simpl; try done.
    unfold shared. simpl. by rewrite Hstt, Hqs, Hths.
  - (* the first is past its [stream_stop], the second calls *)
    right. unfold caller_step. rewrite Hpc1, Hpc2, Htodo2.
    eexists _, _. split; [done|]. split; [done|].
    unfold stream_start_call. simpl. rewrite <- Hstt, Hnone.
    destruct (stream_start_body_shared transport language s1
                (set_caller at_call rest (results s2) s2))
      as (H1 & H2 & H3); [unfold shared; simpl; by rewrite Hstt, Hqs, Hths|done|].
    by apply start_twice_after.
  - destruct (thread_step_after transport caller s1 s2 Hs Hpc Htodo)
      as [?|(a & b & Ha & Hb & Hsab & Hpab & Htab)]; [by left|].
    right. exists a, b. split; [done|]. split; [done|].
    by apply start_twice_after.
Qed.

Lemma start_twice_run transport language rest sched : ∀ s1 s2,
  invariant transport s1 → start_twice language rest s1 s2 →
  start_twice language rest (run transport sched s1) (run transport sched s2).
Proof.
  induction sched as [|i sched IH]; intros s1 s2 Hinv Hrel; [done|].
  simpl.
  destruct (start_twice_step transport language rest i s1 s2 Hinv Hrel)
    as [[-> ->]|(a & b & Ha & Hb & Hab)].
  - by apply IH.
  - rewrite Ha, Hb. apply IH; [|done].
    eapply invariant_step; [done|]. by exists i.
Qed.

Lemma start_twice_same language rest s1 s2 :
  start_twice language rest s1 s2 →
  shared s1 = shared s2 ∧ (caller_done s1 ↔ caller_done s2).
Proof.
  unfold caller_done.
  intros [s1' s2' Hs _ Hpc1 Htodo1 Hpc2 Htodo2
         |s1' s2' Hs Hpc1 Htodo1 Hpc2 Htodo2
         |s1' s2' Hs _ Hpc1 Htodo1 Hpc2 Htodo2
         |s1' s2' Hs Hpc Htodo]; (split; [done|]).
  - rewrite Htodo1, Htodo2. split; intros [_ ?]; discriminate.
  - rewrite Hpc1, Hpc2. split; intros [? _]; discriminate.
  - rewrite Hpc1, Htodo2. split; intros [? ?]; discriminate.
  - by rewrite Hpc, Htodo.
Qed.

(** C7.  In every state a backend reaches from its constructor, whatever
    calls it is given and however the threads interleave, at most one
    thread runs.  When a stream is open in such a state, going on with
    [stream_start] and going on with [stream_stop] followed by
    [stream_start] lead, under every schedule, through the same backend,
    the same queues and the same threads, and the one caller is through
    when the other is.  And [stream_start] on the open stream goes
    through the stop of that stream: its first step puts the end mark into
    the queue of the stream and leaves the caller in [join]; some
    schedule brings the call to its return (the handlers are those that
    end) and none gets stuck before;
    as long as the thread of the stream is alive, no thread has been
    added and the backend still holds the stream; when the caller is past
    [join], the backend holds neither thread nor queue and still no
    thread has been added; and when the call has returned, the old thread
    is done as it ends on its queue with the end mark behind what was in
    it, the text of the old thread has not been returned, and the backend
    holds a new thread, started, on a new queue (or, where the
    constructor of the thread refuses the language, none). *)
Theorem stream_start_stops_first (transport : nat → string → audio_handler)
    (c : streaming_class) (base : STT) (language : string)
    (calls : list call) (sched0 : list thread_id) :
  let s := run transport sched0 (boot c base language calls) in
  live_workers s ≤ 1
  ∧ (stream (stt s) ≠ None →
     ∀ l rest rs sched,
       let s1 := run transport sched
                     (set_caller at_call (stream_start l :: rest) rs s) in
       let s2 := run transport sched
                     (set_caller at_call (stream_stop :: stream_start l :: rest)
                                 rs s) in
       shared s1 = shared s2
       ∧ (caller_done s1 ↔ caller_done s2)
       ∧ live_workers s1 ≤ 1)
  ∧ (∀ t th q l rest rs,
       stream (stt s) = Some t → threads s !! t = Some th →
       queues s !! th_queue th = Some q →
       let final := (resume th (Queue_put None q)).1 in
       let s0 := set_caller at_call (stream_start l :: rest) rs s in
       (∃ s', caller_step transport s0 = Some s'
              ∧ pc s' = joining (then_start l)
              ∧ queues s' = alter (Queue_put None) (th_queue th) (queues s)
              ∧ threads s' = threads s ∧ stt s' = stt s ∧ results s' = rs)
       ∧ (∃ sched, pc (run transport sched s0) = at_call
                   ∧ todo (run transport sched s0) = rest)
       ∧ ∀ sched,
           let s1 := run transport sched s0 in
           (¬ caller_done s1 → ∃ i s', thread_step transport i s1 = Some s')
           ∧ (∀ th1, threads s1 !! t = Some th1 → is_alive th1 = true →
                     length (threads s1) = length (threads s)
                     ∧ stream (stt s1) = Some t)
           ∧ (pc s1 = starting l → todo s1 = rest →
              stream (stt s1) = None ∧ queue (stt s1) = None
              ∧ length (threads s1) = length (threads s) ∧ results s1 = rs
              ∧ threads s1 !! t = Some final)
           ∧ (pc s1 = at_call → todo s1 = rest →
              threads s1 !! t = Some final
              ∧ (∃ e, th_state final = finished e)
              ∧ (∃ qf, queues s1 !! th_queue th = Some qf
                       ∧ put_log qf = put_log q ++ [None])
              ∧ ((results s1 = rs ++ [Ok None]
                  ∧ stream (stt s1) = Some (length (threads s))
                  ∧ queue (stt s1) = Some (S (length (queues s)))
                  ∧ length (threads s1) = S (length (threads s))
                  ∧ ∃ th', threads s1 !! length (threads s) = Some th'
                           ∧ th_queue th' = S (length (queues s))
                           ∧ th_state th' ≠ not_started)
                 ∨ (results s1
                    = rs ++ [Raise (ValueError
                                      "Deepspeech is currently english only")]
                    ∧ stream (stt s1) = None
                    ∧ length (threads s1) = length (threads s))))).
Proof.
  intros s.
  assert (Hinv : invariant transport s).
  { apply invariant_run, invariant_boot. }
  split; [by eapply live_workers_invariant|]. split.
  - intros Hsome l rest rs sched s1 s2.
    assert (Hinv1 : invariant transport
                      (set_caller at_call (stream_start l :: rest) rs s)).
    { by apply invariant_set_caller. }
    assert (Hrel : start_twice l rest s1 s2).
    { apply start_twice_run; [done|]. by apply start_twice_call. }
    destruct (start_twice_same _ _ _ _ Hrel) as [H1 H2].
    split; [done|]. split; [done|].
    eapply live_workers_invariant. by apply invariant_run.
  - intros t th q l rest rs Hstream Hth Hq final s0.
    assert (Hinv0 : invariant transport s0) by (by apply invariant_set_caller).
    destruct (stop_phase_enter s t th q (then_start l) (stream_start l) rest rs
                Hstream Hth Hq eq_refl) as (Ht & Htq & Hphase).
    fold final s0 in Hphase.
    split; [|split].
    + destruct (inv_stream _ _ Hinv t Hstream) as (th0 & q0 & Hth0 & _ & Hsi).
      fold s in Hth0. rewrite Hth in Hth0. injection Hth0 as <-.
      eexists. unfold caller_step, s0. cbn [set_caller pc todo].
      split; [done|]. unfold stream_start_call. cbn [set_caller stt results].
      rewrite Hstream. unfold stream_stop_begin. cbn [set_caller stt].
      rewrite (si_queue _ _ _ _ _ Hsi). done.
    + eapply (stop_phase_returns transport); [exact Ht|exact Htq|done|done|].
      unfold s0. cbn [set_caller todo length]. lia.
    + intros sched s1.
      destruct (stop_phase_run transport _ _ _ _ _ _ _ _ _ Ht Htq sched s0
                  Hinv0 Hphase) as [Hinv1 Hphase1].
      fold s1 in Hinv1, Hphase1.
      split; [by apply progress|]. split; [|split].
      * intros th1 Hth1 Halive. by eapply stop_phase_alive.
      * intros Hpc Htodo. by eapply stop_phase_released.
      * intros Hpc Htodo.
        destruct (stop_phase_returned _ _ _ _ _ _ _ _ _ s1 Hphase1 Hpc Htodo)
          as (qf & e & Hthf & He & Hqf & Hlog & Hafter).
        split; [done|]. split; [by exists e|]. split; [by exists qf|].
        exact Hafter.
Qed.

(** A session left open after its first chunk, and a second
    [stream_start]: the first thread is done, the second runs. *)
Lemma stream_start_stops_first_witness :
  let s := run upload_all caller_first
               (boot DeepSpeechStreamServerSTT english "en-US"
                     [stream_start None; stream_data chunk_a]) in
  let s1 := run upload_all by_turns
                (set_caller at_call [stream_start None] [] s) in
  stream (stt s) = Some 0
  ∧ shared s1
    = shared (run upload_all by_turns
                  (set_caller at_call [stream_stop; stream_start None] [] s))
  ∧ ∃ th0 e, threads s1 !! 0 = Some th0 ∧ th_state th0 = finished e.
Proof.
  intros s s1. split; [vm_compute; reflexivity|].
  destruct (stream_start_stops_first upload_all DeepSpeechStreamServerSTT
              english "en-US" [stream_start None; stream_data chunk_a]
              caller_first) as (_ & Hsame & Hstop).
  split.
  - destruct (Hsame ltac:(vm_compute; discriminate) None [] [] by_turns)
      as [Hshared _].
    exact Hshared.
  - assert (Hth : ∃ th, threads s !! 0 = Some th)
      by (eexists; vm_compute; reflexivity).
    destruct Hth as [th Hth].
    assert (Hq : ∃ q, queues s !! 1 = Some q)
      by (eexists; vm_compute; reflexivity).
    destruct Hq as [q Hq].
    assert (Hthq : th_queue th = 1).
    { revert Hth. vm_compute. by intros [= <-]. }
    rewrite <- Hthq in Hq.
    destruct (Hstop 0 th q None [] [] ltac:(vm_compute; reflexivity) Hth Hq)
      as (_ & _ & Hrun).
    destruct (Hrun by_turns) as (_ & _ & _ & Hret).
    destruct Hret as (Hth0 & [e He] & _);
      [vm_compute; reflexivity|vm_compute; reflexivity|].
    exact (ex_intro _ _ (ex_intro _ e (conj Hth0 He))).
Defined.

(* ===================================================================== *)
(** ** More on language normalisation *)
(* ===================================================================== *)

Lemma split_cons (sep : ascii) (s : string) :
  ∃ p ps, split sep s = p :: ps
          ∧ string_forall (fun c => negb (Ascii.eqb c sep)) p = true
          ∧ match ps with
            | [] => s = p
            | _ :: _ => ∃ rest, s = p +:+ String sep rest ∧ split sep rest = ps
            end.
Proof.
  induction s as [|c s (p & ps & Hsplit & Hp & Hps)]; simpl.
  - by exists EmptyString, [].
  - destruct (Ascii.eqb c sep) eqn:Hc.
    + apply Ascii.eqb_eq in Hc as ->.
      exists EmptyString, (p :: ps). rewrite Hsplit. repeat split.
      by exists s.
    + rewrite Hsplit. exists (String c p), ps. split; [done|]. split.
      * simpl. by rewrite Hc, Hp.
      * destruct ps as [|p' ps]; [by rewrite Hps|].
        destruct Hps as (rest & -> & Hrest). by exists rest.
Qed.

Lemma split_two (s a b : string) :
  split dash s = [a; b] →
  s = a +:+ "-" +:+ b ∧ no_dash a = true ∧ no_dash b = true.
Proof.
  intros Hs.
  destruct (split_cons dash s) as (p & ps & Hsplit & Hp & Hps).
  rewrite Hs in Hsplit. injection Hsplit as <- <-.
  destruct Hps as (rest & -> & Hrest).
  destruct (split_cons dash rest) as (p & ps & Hsplit & Hp' & Hps).
  rewrite Hrest in Hsplit. injection Hsplit as <- <-.
  subst rest. done.
Qed.

(** X1.  On every ASCII string the casing rule of [init_language] is
    idempotent, and a string that does not consist of exactly two parts
    around one dash (no dash, or two and more) is returned as it is. *)
Theorem locale_case_idempotent (lang : string) :
  is_ascii lang = true →
  locale_case (locale_case lang) = locale_case lang
  ∧ (length (split dash lang) ≠ 2 → locale_case lang = lang).
Proof.
  intros _. split.
  - destruct (split dash lang) as [|a [|b [|c parts]]] eqn:Hs;
      try (unfold locale_case at 2; rewrite Hs;
           unfold locale_case; by rewrite Hs).
    destruct (split_two _ _ _ Hs) as (-> & Ha & Hb).
    rewrite (locale_case_tag a b Ha Hb).
    rewrite locale_case_tag by (by rewrite ?no_dash_lower, ?no_dash_upper).
    by rewrite lower_idemp, upper_idemp.
  - intros Hlen. unfold locale_case.
    by destruct (split dash lang) as [|a [|b [|c parts]]].
Qed.

Lemma locale_case_idempotent_witness :
  locale_case (locale_case "ZH-hans-cn") = locale_case "ZH-hans-cn"
  ∧ locale_case "ZH-hans-cn" = "ZH-hans-cn".
Proof.
  destruct (locale_case_idempotent "ZH-hans-cn" eq_refl) as [H1 H2].
  split; [exact H1|]. apply H2. vm_compute. discriminate.
Defined.

(* ===================================================================== *)
(** ** The sample rate of [YandexSTT.execute] *)
(* ===================================================================== *)

(** X2.  The rate [YandexSTT.execute] converts the audio to is always one
    of 8000, 16000 and 48000: the rate of the audio when that is one of
    them, otherwise the lowest of them above it, and 48000 for audio
    above 48000. *)
Theorem Yandex_sample_rate_supported (audio : AudioData) :
  In (Yandex_sample_rate audio) Yandex_supported_sample_rates
  ∧ (In (sample_rate audio) Yandex_supported_sample_rates →
     Yandex_sample_rate audio = sample_rate audio)
  ∧ ((sample_rate audio <= 48000)%Z →
     (sample_rate audio <= Yandex_sample_rate audio)%Z
     ∧ ∀ r, In r Yandex_supported_sample_rates → (sample_rate audio <= r)%Z →
            (Yandex_sample_rate audio <= r)%Z)
  ∧ ((48000 < sample_rate audio)%Z → Yandex_sample_rate audio = 48000%Z).
Proof.
  unfold Yandex_sample_rate, Yandex_supported_sample_rates. simpl.
  destruct (Z.eqb_spec (sample_rate audio) 8000);
    destruct (Z.eqb_spec (sample_rate audio) 16000);
    destruct (Z.eqb_spec (sample_rate audio) 48000);
    destruct (Z.ltb_spec (sample_rate audio) 8000);
    destruct (Z.ltb_spec (sample_rate audio) 16000);
    destruct (Z.ltb_spec (sample_rate audio) 48000);
    simpl; try lia;
    (split; [lia|]); (split; [intros [?|[?|[?|[]]]]; lia|]);
    (split; [intros ?; split; [lia|intros r [?|[?|[?|[]]]] ?; lia]|lia]).
Qed.


(** Audio at 16000 Hz is sent at 16000 Hz. *)
Lemma Yandex_sample_rate_supported_witness :
  Yandex_sample_rate some_audio = 16000%Z.
Proof.
  apply (proj1 (proj2 (Yandex_sample_rate_supported some_audio))).
  right; left; reflexivity.
Defined.

(* ===================================================================== *)
(** ** More on the synchronous backends *)
(* ===================================================================== *)

Lemma str_in_In (s : string) (l : list string) : str_in s l = true ↔ In s l.
Proof.
  unfold str_in. rewrite existsb_exists. split.
  - intros (x & Hx & Heq). apply String.eqb_eq in Heq. by subst.
  - intros Hin. exists s. split; [done|]. apply String.eqb_refl.
Qed.

(** X3.  [IBMSTT.execute] issues at most one request, and issues it only
    when the stored token is not empty, the configured URL is a string
    that is not empty and the language in force is one of the supported
    ones; otherwise it raises without a request.  The request goes to
    the URL followed by /v1/recognize, authenticates with the token, and
    asks for the narrow-band model of the language exactly when the
    audio is sampled below 16000 Hz and the language is not ar-AR. *)
Theorem IBMSTT_request_guard (decode : Response → result pyval)
    (self self' : TokenSTT) (audio : AudioData) (language : option string)
    (replies : list (result pyval)) (rqs : list request) (out : result pyval) :
  answer (IBMSTT_execute decode self audio language) replies
  = Some (rqs, (self', out)) →
  (rqs = [] ∧ ∃ e, out = Raise e)
  ∨ ∃ url_base model,
      rqs = [post (url_base +:+ "/v1/recognize") (Some ("apikey", token self))
                  [ ("Content-Type", "audio/x-flac");
                    ("X-Watson-Learning-Opt-Out", "true") ]
                  [ ("model", lang (token_base self') +:+ "_" +:+ model);
                    ("profanity_filter", "false") ]
                  (get_flac_data audio None)]
      ∧ token self ≠ ""
      ∧ py_get (config (token_base self)) "url" (VStr "") = Ok (VStr url_base)
      ∧ url_base ≠ ""
      ∧ lang (token_base self') = or_lang language (lang (token_base self))
      ∧ In (lang (token_base self')) IBM_supported_languages
      ∧ (model = "NarrowbandModel" ∨ model = "BroadbandModel")
      ∧ (model = "NarrowbandModel" ↔
         (sample_rate audio < 16000)%Z ∧ lang (token_base self') ≠ "ar-AR").
Proof.
  unfold IBMSTT_execute.
  destruct (negb (str_truthy (token self))) eqn:Htok;
    [simpl; intros [= <- <- <-]; left; eauto|].
  destruct (py_get _ _ _) as [ub|e] eqn:Hurl;
    [|simpl; intros [= <- <- <-]; left; eauto].
  destruct (negb (truthy ub)) eqn:Hub;
    [simpl; intros [= <- <- <-]; left; eauto|].
  destruct ub as [| | |u| | |]; try (simpl; intros [= <- <- <-]; left; by eauto).
  destruct (negb (str_in _ _)) eqn:Hin.
  - simpl. intros [= <- <- <-]. left. eauto.
  - intros (r0 & replies' & rqs' & -> & -> & Hk)%answer_Call_inv.
    simpl in Hk. injection Hk as <- <- <-. right.
    eexists u, _. split; [reflexivity|].
    apply negb_false_iff in Htok, Hub, Hin.
    split; [|split; [done|split; [|split; [done|split; [|split]]]]].
    + unfold str_truthy in Htok. apply negb_true_iff, String.eqb_neq in Htok.
      done.
    + simpl in Hub. by apply negb_true_iff, String.eqb_neq in Hub.
    + by apply str_in_In.
    + destruct (_ && _); auto.
    + simpl.
      destruct (Z.ltb_spec (sample_rate audio) 16000);
        destruct (String.eqb_spec
                    (or_lang language (lang (token_base self))) "ar-AR");
        simpl; split; try done; try (intros [? ?]; done); try lia.
Qed.

Lemma IBMSTT_request_guard_witness :
  In (lang (token_base (TokenSTT_set_lang "de-DE" ibm_ready)))
     IBM_supported_languages.
Proof.
  destruct (IBMSTT_request_guard (fun _ => Ok VNone) ibm_ready
              (TokenSTT_set_lang "de-DE" ibm_ready) some_audio (Some "de-DE")
              [ok_reply] _ (Ok VNone) eq_refl)
    as [[Hnil _]|(u & m & _ & _ & _ & _ & _ & Hin & _)].
  - discriminate Hnil.
  - exact Hin.
Defined.

(** X4.  A language that [IBMSTT.execute] or [YandexSTT.execute] refuses
    has been stored before it is refused: the call raises [ValueError]
    without a request, the object keeps the refused language, and every
    later call without language raises the same error, again without a
    request. *)
Theorem refused_language_is_stored (l : string) :
  l ≠ "" →
  (∀ decode (self : TokenSTT) audio audio' url,
     token self ≠ "" →
     py_get (config (token_base self)) "url" (VStr "") = Ok (VStr url) →
     url ≠ "" →
     str_in l IBM_supported_languages = false →
     IBMSTT_execute decode self audio (Some l)
     = Done (TokenSTT_set_lang l self,
             Raise (ValueError ("Unsupported language " +:+ dquote +:+ l
                                +:+ dquote +:+ " for IBM STT.")))
     ∧ IBMSTT_execute decode (TokenSTT_set_lang l self) audio' None
       = Done (TokenSTT_set_lang l self,
               Raise (ValueError ("Unsupported language " +:+ dquote +:+ l
                                  +:+ dquote +:+ " for IBM STT."))))
  ∧ (∀ decode container_repr (self : YandexSTT) audio audio',
     str_in l ["en-US"; "ru-RU"; "tr-TR"] = false →
     YandexSTT_execute decode container_repr self audio (Some l)
     = Done (YandexSTT_set_lang l self,
             Raise (ValueError ("Unsupported language '" +:+ l
                                +:+ "' for Yandex STT")))
     ∧ YandexSTT_execute decode container_repr (YandexSTT_set_lang l self)
                         audio' None
       = Done (YandexSTT_set_lang l self,
               Raise (ValueError ("Unsupported language '" +:+ l
                                  +:+ "' for Yandex STT")))).
Proof.
  intros Hl. split.
  - intros decode self audio audio' url Htok Hurl Hne Hin.
    assert (Hstep : ∀ (self0 : TokenSTT) audio0 language0,
              token self0 = token self →
              config (token_base self0) = config (token_base self) →
              or_lang language0 (lang (token_base self0)) = l →
              IBMSTT_execute decode self0 audio0 language0
              = Done (TokenSTT_set_lang l self0,
                      Raise (ValueError ("Unsupported language " +:+ dquote +:+ l
                                         +:+ dquote +:+ " for IBM STT.")))).
    { intros self0 audio0 language0 Ht Hc Hor.
      unfold IBMSTT_execute, str_truthy. rewrite Ht, Hc.
      rewrite (proj2 (String.eqb_neq (token self) "") Htok).
      cbn [negb]. rewrite Hurl. cbn [negb truthy].
      rewrite (proj2 (String.eqb_neq url "") Hne).
      cbn [negb TokenSTT_set_lang token_base token lang set_lang].
      rewrite Hor, Hin. done. }
    split.
    + apply Hstep; try done. by apply or_lang_nonempty.
    + by rewrite (Hstep (TokenSTT_set_lang l self) audio' None).
  - intros decode container_repr self audio audio' Hin.
    assert (Hstep : ∀ (self0 : YandexSTT) audio0 language0,
              or_lang language0 (lang (yandex_base self0)) = l →
              YandexSTT_execute decode container_repr self0 audio0 language0
              = Done (YandexSTT_set_lang l self0,
                      Raise (ValueError ("Unsupported language '" +:+ l
                                         +:+ "' for Yandex STT")))).
    { intros self0 audio0 language0 Hor. unfold YandexSTT_execute.
      cbn [YandexSTT_set_lang yandex_base lang set_lang].
      rewrite Hor, Hin. done. }
    split.
    + apply Hstep. by apply or_lang_nonempty.
    + by rewrite (Hstep (YandexSTT_set_lang l self) audio' None).
Qed.

Lemma refused_language_is_stored_witness :
  IBMSTT_execute (fun _ => Ok VNone) (TokenSTT_set_lang "xx-XX" ibm_ready)
                 some_audio None
  = Done (TokenSTT_set_lang "xx-XX" ibm_ready,
          Raise (ValueError ("Unsupported language " +:+ dquote +:+ "xx-XX"
                             +:+ dquote +:+ " for IBM STT."))).
Proof.
  destruct (refused_language_is_stored "xx-XX") as [Hibm _]; [discriminate|].
  exact (proj2 (Hibm (fun _ => Ok VNone) ibm_ready some_audio some_audio
                     "https://ibm" ltac:(discriminate) eq_refl
                     ltac:(discriminate) eq_refl)).
Defined.

(** X5.  A configuration without token gives a [TokenSTT] whose token is
    the text "None"; that text is not empty, so [IBMSTT.execute] does not
    refuse it and, with a URL and a supported language, sends its request
    with "None" as the API key. *)
Theorem IBMSTT_missing_token_is_sent (container_repr : pyval → string)
    (decode : Response → result pyval)
    (config_core cred : gmap string pyval) (base : STT) (url : string)
    (audio : AudioData) (language : option string) (reply : result pyval) :
  STT_init config_core = Ok base →
  credential base = VDict cred →
  cred !! "token" = None →
  py_get (config base) "url" (VStr "") = Ok (VStr url) →
  url ≠ "" →
  str_in (or_lang language (lang base)) IBM_supported_languages = true →
  ∃ self,
    TokenSTT_init container_repr config_core = Ok self
    ∧ token self = "None"
    ∧ ∃ params self',
        answer (IBMSTT_execute decode self audio language) [reply]
        = Some ([post (url +:+ "/v1/recognize") (Some ("apikey", "None"))
                      [ ("Content-Type", "audio/x-flac");
                        ("X-Watson-Learning-Opt-Out", "true") ]
                      params (get_flac_data audio None)],
                (self', on_response decode reply)).
Proof.
  intros Hbase Hcred Htok Hurl Hne Hin.
  exists {| token_base := base; token := "None" |}. split; [|split; [done|]].
  - unfold TokenSTT_init. rewrite Hbase. simpl. rewrite Hcred. simpl.
    unfold dict_get. by rewrite Htok.
  - unfold IBMSTT_execute, str_truthy.
    cbn [token token_base negb String.eqb Ascii.eqb Bool.eqb].
    rewrite Hurl. cbn [negb truthy].
    rewrite (proj2 (String.eqb_neq url "") Hne).
    cbn [negb TokenSTT_set_lang token_base token lang set_lang].
    destruct (str_in (or_lang language (lang base)) IBM_supported_languages);
      [|discriminate].
    cbn [negb]. by eexists _, _.
Qed.

Lemma IBMSTT_missing_token_is_sent_witness :
  ∃ self, TokenSTT_init no_repr ibm_without_token = Ok self
          ∧ token self = "None".
Proof.
  assert (Hbase : STT_init ibm_without_token = Ok ibm_base)
    by (vm_compute; reflexivity).
  destruct (IBMSTT_missing_token_is_sent no_repr (fun _ => Ok VNone)
              ibm_without_token ∅ ibm_base "https://ibm" some_audio None
              ok_reply Hbase eq_refl eq_refl eq_refl ltac:(discriminate)
              eq_refl) as (self & Hinit & Htok & _).
  exact (ex_intro _ self (conj Hinit Htok)).
Defined.

(** X6.  [YandexSTT.execute] issues at most one request, and only with a
    language among en-US, ru-RU and tr-TR; otherwise it raises
    [ValueError] without a request.  The request names that language and
    a supported sample rate in its URL and carries the audio converted to
    that rate at two bytes a sample. *)
Theorem YandexSTT_request_guard (decode : Response → result pyval)
    (container_repr : pyval → string) (self self' : YandexSTT)
    (audio : AudioData) (language : option string)
    (replies : list (result pyval)) (rqs : list request) (out : result pyval) :
  answer (YandexSTT_execute decode container_repr self audio language) replies
  = Some (rqs, (self', out)) →
  lang (yandex_base self') = or_lang language (lang (yandex_base self))
  ∧ ((rqs = [] ∧ (∃ msg, out = Raise (ValueError msg))
      ∧ ¬ In (lang (yandex_base self')) ["en-US"; "ru-RU"; "tr-TR"])
     ∨ (rqs = [post ("https://stt.api.cloud.yandex.net/speech/v1/stt:recognize"
                     +:+ "?" +:+ "lang=" +:+ lang (yandex_base self') +:+ "&"
                     +:+ "format=lpcm" +:+ "&" +:+ "sampleRateHertz="
                     +:+ pretty (Yandex_sample_rate audio))
                    None
                    [ ("Authorization",
                       "Api-Key " +:+ py_str container_repr (api_key self)) ]
                    []
                    (get_raw_data audio (Some (Yandex_sample_rate audio))
                                  (Some 2%Z))]
        ∧ In (lang (yandex_base self')) ["en-US"; "ru-RU"; "tr-TR"]
        ∧ In (Yandex_sample_rate audio) Yandex_supported_sample_rates
        ∧ out = on_response decode (hd (Ok VNone) replies))).
Proof.
  unfold YandexSTT_execute.
  cbn [YandexSTT_set_lang yandex_base lang set_lang api_key].
  destruct (negb (str_in _ _)) eqn:Hin.
  - cbn [answer]. intros [= <- <- <-]. split; [done|]. left.
    split; [done|]. split; [eauto|].
    apply negb_true_iff in Hin. intros Hc. apply str_in_In in Hc.
    cbn [YandexSTT_set_lang yandex_base lang set_lang] in Hc. congruence.
  - intros (r0 & replies' & rqs' & -> & -> & Hk)%answer_Call_inv.
    cbn [answer] in Hk. injection Hk as <- <- <-. split; [done|]. right.
    split; [done|]. apply negb_false_iff in Hin. split; [by apply str_in_In|].
    split; [apply Yandex_sample_rate_supported|done].
Qed.

Lemma YandexSTT_request_guard_witness :
  In (lang (yandex_base (YandexSTT_set_lang "ru-RU" yandex_ready)))
     ["en-US"; "ru-RU"; "tr-TR"].
Proof.
  destruct (YandexSTT_request_guard (fun _ => Ok VNone) no_repr yandex_ready
              (YandexSTT_set_lang "ru-RU" yandex_ready) some_audio
              (Some "ru-RU") [ok_reply] _ (Ok VNone) eq_refl)
    as [_ [(Hnil & _)|(_ & Hin & _)]].
  - discriminate Hnil.
  - exact Hin.
Defined.

(** X7.  What [YandexSTT.execute] makes of the reply to its request: a
    reply with status 401 raises "Invalid API key", a reply with any
    status other than 200 raises; a reply with status 200 whose body is
    an object with an error code makes the call return [None] without
    raising, and one without error code makes it return the entry
    [result] of the body, [None] when there is none. *)
Theorem YandexSTT_reply (json_loads : string → result pyval)
    (container_repr : pyval → string) (self : YandexSTT) (audio : AudioData)
    (resp : Response) :
  str_in (lang (yandex_base self)) ["en-US"; "ru-RU"; "tr-TR"] = true →
  (∃ rq, answer (YandexSTT_execute (Yandex_decode_response json_loads)
                                   container_repr self audio None)
                [Ok (VResponse resp)]
         = Some ([rq], (self, Yandex_decode_response json_loads resp)))
  ∧ (status_code resp = 401%Z →
     Yandex_decode_response json_loads resp
     = Raise (Exception_ "Invalid API key for Yandex STT"))
  ∧ (status_code resp ≠ 200%Z →
     ∃ msg, Yandex_decode_response json_loads resp = Raise (Exception_ msg))
  ∧ (status_code resp = 200%Z →
     ∀ body, json_loads (text resp) = Ok (VDict body) →
       (∀ code, body !! "error_code" = Some code → code ≠ VNone →
                Yandex_decode_response json_loads resp = Ok VNone)
       ∧ (body !! "error_code" = None ∨ body !! "error_code" = Some VNone →
          Yandex_decode_response json_loads resp
          = Ok (dict_get body "result" VNone))).
Proof.
  intros Hin. split; [|split; [|split]].
  - unfold YandexSTT_execute.
    assert (Hself : YandexSTT_set_lang (or_lang None (lang (yandex_base self))) self
                    = self) by (by destruct self as [[] ?]).
    rewrite Hself. rewrite Hin. cbn [negb answer]. by eexists.
  - intros Hst. unfold Yandex_decode_response. by rewrite Hst.
  - intros Hst. unfold Yandex_decode_response.
    destruct (Z.eqb_spec (status_code resp) 200); [done|].
    destruct (status_code resp =? 401)%Z; eauto.
  - intros Hst body Hbody. unfold Yandex_decode_response.
    rewrite Hst, Hbody. cbn [Z.eqb Pos.eqb mbind result_bind py_get].
    unfold dict_get. split.
    + intros code -> Hcode. by destruct code.
    + intros [->| ->]; done.
Qed.

Lemma YandexSTT_reply_witness :
  Yandex_decode_response (fun _ => Ok (VDict error_body))
                         {| status_code := 200; text := "{}" |}
  = Ok VNone.
Proof.
  destruct (YandexSTT_reply (fun _ => Ok (VDict error_body)) no_repr
              yandex_ready some_audio {| status_code := 200; text := "{}" |}
              eq_refl) as (_ & _ & _ & H200).
  destruct (H200 eq_refl error_body eq_refl) as [Herr _].
  apply (Herr (VStr "UNAUTHORIZED")); [vm_compute; reflexivity|discriminate].
Defined.

Lemma STT_init_config (config_core : gmap string pyval) (base : STT) :
  STT_init config_core = Ok base → ∃ d, config base = VDict d.
Proof.
  unfold STT_init.
  destruct (init_language config_core) as [l|e]; [|done].
  cbn [mbind result_bind].
  destruct (py_get _ "module" VNone) as [m|e]; [|done].
  cbn [mbind result_bind].
  destruct (py_get_key _ m _) as [cfg|e]; [|done].
  cbn [mbind result_bind].
  destruct cfg; try done. simpl. intros [= <-]. by eexists.
Qed.

(** X8.  [YandexSTT] examines its key at construction: once the base
    class is initialised and the credential is a dict, a configuration
    without [api_key], or with [null] for it, makes the constructor raise
    [ValueError]; any other value of the key, the empty string too, is
    accepted and stored as it is. *)
Theorem YandexSTT_init_requires_key (config_core cred : gmap string pyval)
    (base : STT) :
  STT_init config_core = Ok base →
  credential base = VDict cred →
  (cred !! "api_key" = None ∨ cred !! "api_key" = Some VNone →
   YandexSTT_init config_core
   = Some (Raise (ValueError "API key for Yandex STT is not defined")))
  ∧ (∀ key cfg l,
       cred !! "api_key" = Some key → key ≠ VNone →
       config base = VDict cfg →
       lang_override (dict_get cfg "lang" VNone) (lang base) = Some l →
       YandexSTT_init config_core
       = Some (Ok {| yandex_base := set_lang l base; api_key := key |})).
Proof.
  intros Hbase Hcred.
  destruct (STT_init_config _ _ Hbase) as [d Hd].
  unfold YandexSTT_init. rewrite Hbase, Hd, Hcred. cbn [py_get]. split.
  - intros Hkey.
    assert (dict_get cred "api_key" VNone = VNone) as ->
      by (unfold dict_get; by destruct Hkey as [->| ->]).
    done.
  - intros key cfg l Hkey Hnone [= <-] Hl.
    assert (dict_get cred "api_key" VNone = key) as ->
      by (unfold dict_get; by rewrite Hkey).
    rewrite Hl. by destruct key.
Qed.

Lemma YandexSTT_init_requires_key_witness :
  YandexSTT_init yandex_without_key
  = Some (Raise (ValueError "API key for Yandex STT is not defined")).
Proof.
  assert (Hbase : STT_init yandex_without_key = Ok yandex_base_without_key)
    by (vm_compute; reflexivity).
  destruct (YandexSTT_init_requires_key yandex_without_key ∅
              yandex_base_without_key Hbase eq_refl) as [H _].
  apply H. by left.
Defined.

(** X9.  [MycroftSTT.execute] asks the service once, with the audio
    converted to 16000 Hz, and returns the first element of the answer.
    When that request raises, whatever the error, or its answer has no
    first element, it asks a second time with the unconverted audio, and
    only the outcome of the second request reaches the pairing test: an
    [HTTPError] 401 on the first request is followed by a second request
    and gives 'pair my device' only when the second fails with 401
    too. *)
Theorem MycroftSTT_execute_retries (audio : AudioData)
    (language : option string) (self : MycroftSTT) (r1 r2 : result pyval) :
  let self' :=
    MycroftSTT_set_lang (or_lang language (lang (mycroft_base self))) self in
  let rq1 := api_stt (api self) (get_flac_data audio (Some 16000%Z))
                     (lang (mycroft_base self')) 1 in
  let rq2 := api_stt (api self) (get_flac_data audio None)
                     (lang (mycroft_base self')) 1 in
  (∀ v, r1 ≫= py_index0 = Ok v →
        answer (MycroftSTT_execute (audio, language) self) [r1]
        = Some ([rq1], (self', Ok v)))
  ∧ (∀ e, r1 ≫= py_index0 = Raise e →
          answer (MycroftSTT_execute (audio, language) self) [r1; r2]
          = Some ([rq1; rq2], (self', pairing_handler (r2 ≫= py_index0))))
  ∧ (∀ resp v, r1 = Raise (HTTPError (Some resp)) → r2 ≫= py_index0 = Ok v →
          answer (MycroftSTT_execute (audio, language) self) [r1; r2]
          = Some ([rq1; rq2], (self', Ok v))).
Proof.
  intros self' rq1 rq2.
  unfold MycroftSTT_execute, requires_pairing. rewrite !answer_io_map.
  unfold MycroftSTT_execute_body. fold self'.
  cbn [answer MycroftSTT_set_lang mycroft_base api lang set_lang].
  split; [|split].
  - intros v ->. done.
  - intros e ->. done.
  - intros resp v -> Hr2. cbn [mbind result_bind answer fst snd].
    by rewrite Hr2.
Qed.

(** X10.  [MycroftDeepSpeechSTT.execute] never changes the object.  Its
    language argument, or the stored language when there is none, only
    decides whether the call is made: when it does not begin with "en"
    the call raises [ValueError] without a request; when it does, the
    one request is made with the stored language, not with the
    argument. *)
Theorem MycroftDeepSpeechSTT_language_gate (audio : AudioData)
    (language : option string) (self self' : MycroftDeepSpeechSTT)
    (replies : list (result pyval)) (rqs : list request) (out : result pyval) :
  answer (MycroftDeepSpeechSTT_execute (audio, language) self) replies
  = Some (rqs, (self', out)) →
  self' = self
  ∧ ((startswith (or_lang language (lang (deepspeech_base self))) "en" = false
      ∧ rqs = []
      ∧ out = Raise (ValueError "Deepspeech is currently english only"))
     ∨ (startswith (or_lang language (lang (deepspeech_base self))) "en" = true
        ∧ rqs = [api_stt (deepspeech_api self) (get_wav_data audio None)
                         (lang (deepspeech_base self)) 1]
        ∧ out = pairing_handler (hd (Ok VNone) replies))).
Proof.
  unfold MycroftDeepSpeechSTT_execute, requires_pairing.
  rewrite answer_io_map. unfold MycroftDeepSpeechSTT_execute_body.
  destruct (startswith _ "en") eqn:Hen; cbn [negb].
  - destruct replies as [|r replies']; [done|]. cbn [answer fst snd hd].
    intros [= <- <- <-]. split; [done|]. right. done.
  - cbn [answer fst snd]. intros [= <- <- <-]. split; [done|]. by left.
Qed.

(** An English override on a backend whose stored language is German:
    the request is made, in German. *)
Lemma MycroftDeepSpeechSTT_language_gate_witness :
  answer (MycroftDeepSpeechSTT_execute (some_audio, Some "en-US") some_deepspeech)
         [Ok (VStr "hallo")]
  = Some ([api_stt "deepspeech" (get_wav_data some_audio None) "de-DE" 1],
          (some_deepspeech, Ok (VStr "hallo"))).
Proof.
  destruct (MycroftDeepSpeechSTT_language_gate some_audio (Some "en-US")
              some_deepspeech some_deepspeech [Ok (VStr "hallo")] _
              (Ok (VStr "hallo")) eq_refl) as [_ [(H & _)|(_ & Hrq & _)]].
  - discriminate H.
  - reflexivity.
Defined.

(** A first request refused with status 401, a second one answered. *)
Lemma MycroftSTT_execute_retries_witness :
  answer (MycroftSTT_execute (some_audio, None) some_mycroft)
         [unauthorized; Ok (VList [VStr "hello"])]
  = Some ([api_stt "stt" (get_flac_data some_audio (Some 16000%Z)) "en-US" 1;
           api_stt "stt" (get_flac_data some_audio None) "en-US" 1],
          (some_mycroft, Ok (VStr "hello"))).
Proof.
  exact (proj2 (proj2 (MycroftSTT_execute_retries some_audio None some_mycroft
                         unauthorized (Ok (VList [VStr "hello"]))))
               {| status_code := 401; text := "" |} (VStr "hello")
               eq_refl eq_refl).
Defined.


(* ===================================================================== *)
(** ** Theorems: [KaldiSTT.get_response] *)
(* ===================================================================== *)

Lemma skip_spaces_length (s : string) :
  String.length (skip_spaces s) ≤ String.length s.
Proof.
  induction s as [|c s IH]; cbn [skip_spaces]; [done|].
  destruct (is_space c); cbn [String.length] in *; lia.
Qed.

Lemma drop_prefix_length (p s rest : string) :
  drop_prefix p s = Some rest →
  String.length rest + String.length p = String.length s.
Proof.
  revert s. induction p as [|a p IH]; intros [|b s]; cbn [drop_prefix String.length];
    try done.
  - intros [= <-]. done.
  - intros [= <-]. cbn [String.length]. lia.
  - destruct (Ascii.eqb a b); [|done]. intros H%IH. lia.
Qed.

Lemma match_noise_length (s rest : string) :
  match_noise s = Some rest → String.length rest + 7 ≤ String.length s.
Proof.
  unfold match_noise.
  destruct (drop_prefix _ _) as [r|] eqn:Hd; [|done]. intros [= <-].
  apply drop_prefix_length in Hd. cbn [String.length] in Hd.
  pose proof (skip_spaces_length s). pose proof (skip_spaces_length r). lia.
Qed.

(** Fuel beyond the length of the string is not used. *)
Lemma sub_noise_fuel (n m : nat) (s : string) :
  String.length s ≤ n → String.length s ≤ m → sub_noise n s = sub_noise m s.
Proof.
  revert m s. induction n as [|n IH]; intros m s Hn Hm.
  - destruct s; [|cbn [String.length] in Hn; lia]. by destruct m.
  - destruct m as [|m].
    + destruct s; [done|cbn [String.length] in Hm; lia].
    + destruct s as [|c s]; [done|]. cbn [sub_noise].
      destruct (match_noise (String c s)) as [rest|] eqn:Hmatch.
      * apply match_noise_length in Hmatch. cbn [String.length] in *.
        apply IH; lia.
      * cbn [String.length] in *. f_equal. apply IH; lia.
Qed.

Lemma re_sub_noise_cons (c : ascii) (s : string) :
  re_sub_noise (String c s)
  = match match_noise (String c s) with
    | Some rest => re_sub_noise rest
    | None => String c (re_sub_noise s)
    end.
Proof.
  unfold re_sub_noise. cbn [String.length sub_noise].
  destruct (match_noise (String c s)) as [rest|] eqn:Hmatch; [|done].
  apply match_noise_length in Hmatch. cbn [String.length] in Hmatch.
  apply sub_noise_fuel; lia.
Qed.

Lemma sub_noise_length (n : nat) (s : string) :
  String.length (sub_noise n s) ≤ String.length s.
Proof.
  revert s. induction n as [|n IH]; intros s; cbn [sub_noise]; [done|].
  destruct s as [|c s]; [done|].
  destruct (match_noise (String c s)) as [rest|] eqn:Hmatch.
  - apply match_noise_length in Hmatch. specialize (IH rest). lia.
  - cbn [String.length]. specialize (IH s). lia.
Qed.

Lemma skip_spaces_no_bracket (s : string) :
  contains "[" s = false → contains "[" (skip_spaces s) = false.
Proof.
  induction s as [|c s IH]; cbn [skip_spaces contains]; [done|].
  intros [Hc Hs]%orb_false_iff. destruct (is_space c); [by apply IH|].
  cbn [contains]. by rewrite Hc, Hs.
Qed.

Lemma match_noise_no_bracket (s : string) :
  contains "[" s = false → match_noise s = None.
Proof.
  intros H%skip_spaces_no_bracket. unfold match_noise.
  destruct (skip_spaces s) as [|c s']; [done|].
  cbn [contains] in H. apply orb_false_iff in H as [Hc _].
  cbn [drop_prefix]. rewrite Ascii.eqb_sym. by rewrite Hc.
Qed.

(** X11.  [KaldiSTT.get_response], on a reply whose utterance, if it has
    one, is ASCII text (where [is_space] is what [\s] matches), never
    raises and returns a string or [None].  It returns a string exactly
    when the decoded reply is an object whose [hypotheses] is a list that
    begins with an object whose [utterance] is a string, and the string
    it returns is that utterance without its noise marks; a reply that
    cannot be decoded, and every other shape, gives [None]. *)
Theorem KaldiSTT_get_response_shape (json : result pyval) (v : pyval) :
  (∀ body first rest u,
     json = Ok (VDict body) →
     body !! "hypotheses" = Some (VList (VDict first :: rest)) →
     first !! "utterance" = Some (VStr u) → is_ascii u = true) →
  KaldiSTT_get_response json = v →
  (v = VNone ∨ ∃ s, v = VStr s)
  ∧ (∀ s, v = VStr s ↔
          ∃ body first rest u,
            json = Ok (VDict body)
            ∧ body !! "hypotheses" = Some (VList (VDict first :: rest))
            ∧ first !! "utterance" = Some (VStr u)
            ∧ s = re_sub_noise u).
Proof.
  intros _ <-.
  assert (Hchar : ∀ s,
    KaldiSTT_get_response json = VStr s ↔
    ∃ body first rest u,
      json = Ok (VDict body)
      ∧ body !! "hypotheses" = Some (VList (VDict first :: rest))
      ∧ first !! "utterance" = Some (VStr u)
      ∧ s = re_sub_noise u).
  { intros s. unfold KaldiSTT_get_response. split.
    - destruct json as [body|e]; cbn [mbind result_bind]; [|done].
      destruct body as [| | | | |body|]; cbn [py_getitem mbind result_bind];
        try done.
      destruct (body !! "hypotheses") as [hyps|] eqn:Hh;
        cbn [mbind result_bind]; [|done].
      destruct hyps as [| | |[|c ?]|[|first rest]| |];
        cbn [py_index0 mbind result_bind py_getitem]; try done.
      destruct first as [| | | | |first|]; cbn [py_getitem mbind result_bind];
        try done.
      destruct (first !! "utterance") as [u|] eqn:Hu;
        cbn [mbind result_bind]; [|done].
      destruct u as [| | |u| | |]; try done.
      intros [= <-]. by exists body, first, rest, u.
    - intros (body & first & rest & u & -> & Hh & Hu & ->).
      cbn [mbind result_bind py_getitem]. rewrite Hh.
      cbn [mbind result_bind py_index0 py_getitem]. rewrite Hu. done. }
  split; [|exact Hchar].
  unfold KaldiSTT_get_response.
  destruct json as [body|e]; cbn [mbind result_bind]; [|by left].
  destruct (py_getitem body "hypotheses") as [hyps|]; cbn [mbind result_bind];
    [|by left].
  destruct (py_index0 hyps) as [first|]; cbn [mbind result_bind]; [|by left].
  destruct (py_getitem first "utterance") as [u|]; cbn [mbind result_bind];
    [|by left].
  destruct u; try (by left). right. by eexists.
Qed.

Lemma KaldiSTT_get_response_shape_witness :
  ∃ body first rest u,
    Ok (VDict {[ "hypotheses" := VList [VDict {[ "utterance" := VStr "yes" ]}] ]})
    = Ok (VDict body)
    ∧ body !! "hypotheses" = Some (VList (VDict first :: rest))
    ∧ first !! "utterance" = Some (VStr u)
    ∧ "yes" = re_sub_noise u.
Proof.
  refine (proj1 (proj2 (KaldiSTT_get_response_shape
    (Ok (VDict {[ "hypotheses" := VList [VDict {[ "utterance" := VStr "yes" ]}] ]}))
    (VStr "yes") _ _) "yes") eq_refl).
  - intros body first rest u [= <-] Hh. vm_compute in Hh.
    injection Hh as <- _. intros Hu. vm_compute in Hu.
    by injection Hu as <-.
  - vm_compute; reflexivity.
Defined.

(** X12.  Taking the noise marks out never makes the utterance longer,
    and an utterance without an opening bracket is returned as it is. *)
Theorem re_sub_noise_bounds (s : string) :
  String.length (re_sub_noise s) ≤ String.length s
  ∧ (contains "[" s = false → re_sub_noise s = s).
Proof.
  split; [apply sub_noise_length|].
  induction s as [|c s IH]; [done|]. intros Hs.
  rewrite re_sub_noise_cons, (match_noise_no_bracket _ Hs).
  cbn [contains] in Hs. apply orb_false_iff in Hs as [_ Hs].
  by rewrite (IH Hs).
Qed.

Lemma re_sub_noise_bounds_witness :
  re_sub_noise "turn on the light" = "turn on the light".
Proof. apply (proj2 (re_sub_noise_bounds "turn on the light")). reflexivity. Defined.

Lemma append_nil (t : string) : "" +:+ t = t.
Proof. reflexivity. Qed.

Lemma append_cons (c : ascii) (s t : string) :
  String c s +:+ t = String c (s +:+ t).
Proof. reflexivity. Qed.

Lemma skip_spaces_app (ws t : string) :
  skip_spaces ws = "" → skip_spaces (ws +:+ t) = skip_spaces t.
Proof.
  induction ws as [|c ws IH]; rewrite ?append_nil, ?append_cons;
    cbn [skip_spaces]; [done|].
  destruct (is_space c); [exact IH|done].
Qed.

Lemma match_noise_space (c : ascii) (s : string) :
  is_space c = true → match_noise (String c s) = match_noise s.
Proof. intros Hc. unfold match_noise. cbn [skip_spaces]. by rewrite Hc. Qed.

Lemma match_noise_mark (ws1 ws2 b : string) :
  skip_spaces ws1 = "" → skip_spaces ws2 = "" → skip_spaces b = b →
  match_noise (ws1 +:+ "[noise]" +:+ ws2 +:+ b) = Some b.
Proof.
  intros H1 H2 Hb. unfold match_noise. rewrite (skip_spaces_app _ _ H1).
  change ("[noise]" +:+ ws2 +:+ b)
    with (String "[" (String "n" (String "o" (String "i" (String "s"
            (String "e" (String "]" (ws2 +:+ b)))))))).
  cbn [skip_spaces]. replace (is_space "[") with false by done.
  cbn [drop_prefix]. rewrite !Ascii.eqb_refl.
  by rewrite (skip_spaces_app _ _ H2), Hb.
Qed.

Lemma str_last_cons (c : ascii) (s : string) :
  s ≠ "" → str_last (String c s) = str_last s.
Proof. by destruct s. Qed.

Lemma match_noise_before_mark (a t : string) :
  a ≠ "" → contains "[" a = false →
  (∀ c, str_last a = Some c → is_space c = false) →
  match_noise (a +:+ t) = None.
Proof.
  induction a as [|c a IH]; [done|]. intros _ Hbr Hlast.
  cbn [contains] in Hbr. apply orb_false_iff in Hbr as [Hc Hbr].
  rewrite append_cons. destruct (is_space c) eqn:Hsp.
  - rewrite (match_noise_space _ _ Hsp).
    assert (Ha : a ≠ "").
    { intros ->. specialize (Hlast c eq_refl). congruence. }
    apply IH; [done..|]. intros c' Hc'. apply Hlast.
    by rewrite (str_last_cons _ _ Ha).
  - unfold match_noise. cbn [skip_spaces]. rewrite Hsp.
    cbn [drop_prefix]. rewrite Ascii.eqb_sym. by rewrite Hc.
Qed.

(** X13.  What a noise mark in the middle of an utterance does: the mark
    goes together with the white space on both sides of it, so the words
    before and after it are joined without a space between them.  For
    text [a] without bracket that does not end in white space, white
    space [ws1] and [ws2], and text [b] that does not begin with white
    space, the outcome on [a ws1 [noise] ws2 b] is [a] followed by the
    outcome on [b].  The text is ASCII, where [is_space] is what [\s]
    matches. *)
Theorem re_sub_noise_joins_words (a ws1 ws2 b : string) :
  is_ascii a = true → is_ascii b = true →
  contains "[" a = false →
  (∀ c, str_last a = Some c → is_space c = false) →
  skip_spaces ws1 = "" → skip_spaces ws2 = "" → skip_spaces b = b →
  re_sub_noise (a +:+ ws1 +:+ "[noise]" +:+ ws2 +:+ b) = a +:+ re_sub_noise b.
Proof.
  intros _ _ Hbr Hlast H1 H2 Hb.
  pose proof (match_noise_mark ws1 ws2 b H1 H2 Hb) as Hmark.
  induction a as [|c a IH].
  - rewrite !append_nil.
    destruct (ws1 +:+ "[noise]" +:+ ws2 +:+ b) as [|c s] eqn:Ht; [done|].
    by rewrite re_sub_noise_cons, Hmark.
  - rewrite (append_cons c a (ws1 +:+ _)), re_sub_noise_cons.
    rewrite <- (append_cons c a (ws1 +:+ _)).
    assert (Hne : String c a ≠ "") by done.
    rewrite (match_noise_before_mark _ _ Hne Hbr Hlast).
    rewrite !append_cons. f_equal.
    cbn [contains] in Hbr. apply orb_false_iff in Hbr as [_ Hbr].
    apply IH; [done|]. intros c' Hc'. destruct a as [|c'' a]; [done|].
    apply Hlast. by rewrite str_last_cons.
Qed.

Lemma re_sub_noise_joins_words_witness :
  re_sub_noise "lights  [noise] on" = "lightson".
Proof.
  apply (re_sub_noise_joins_words "lights" "  " " " "on").
  - reflexivity.
  - reflexivity.
  - reflexivity.
  - intros c [= <-]. reflexivity.
  - reflexivity.
  - reflexivity.
  - reflexivity.
Defined.

(* ===================================================================== *)
(** ** Theorems: more of the factory *)
(* ===================================================================== *)

(** X14.  When [STTFactory.create] raises.  A module entry that is not a
    string (a number, [null]) fails in the [try] block and is answered by
    the default backend, like an unknown name.  And [create] raises only
    in three cases: the [stt] entry is not a dict, and the handler's own
    test raises [UnboundLocalError]; the module is "mycroft" and the
    constructor of [MycroftSTT] raised that exception; the module is
    something else and the constructor of [MycroftSTT], called to fall
    back, raised it.  A failure of the plugin loader or of the constructor
    of any other class never reaches the caller. *)
Theorem create_raises_only (Backend : Type)
    (load_stt_plugin : string → result stt_class)
    (instantiate : nat → stt_class → result Backend)
    (config_core : gmap string pyval) :
  (∀ config module,
     dict_get config_core "stt" (VDict ∅) = VDict config →
     dict_get config "module" (VStr "mycroft") = module →
     (∀ m, module ≠ VStr m) →
     create Backend load_stt_plugin instantiate config_core
     = instantiate 1 MycroftSTT_class)
  ∧ (∀ e,
     create Backend load_stt_plugin instantiate config_core = Raise e →
     ((∀ config, dict_get config_core "stt" (VDict ∅) ≠ VDict config)
      ∧ e = UnboundLocalError
              "local variable 'module' referenced before assignment")
     ∨ (∃ config,
          dict_get config_core "stt" (VDict ∅) = VDict config
          ∧ dict_get config "module" (VStr "mycroft") = VStr "mycroft"
          ∧ instantiate 0 MycroftSTT_class = Raise e)
     ∨ (∃ config,
          dict_get config_core "stt" (VDict ∅) = VDict config
          ∧ dict_get config "module" (VStr "mycroft") ≠ VStr "mycroft"
          ∧ instantiate 1 MycroftSTT_class = Raise e)).
Proof.
  assert (Hdefault : CLASSES !! "mycroft" = Some MycroftSTT_class)
    by (vm_compute; reflexivity).
  split.
  - intros config module Hstt Hmod Hns. unfold create. rewrite Hstt, Hmod.
    unfold create_attempt, is_str. destruct module; try done.
    by destruct (Hns s).
  - intros e. unfold create.
    destruct (dict_get config_core "stt" (VDict ∅)) as [| | | | |config|] eqn:Hstt;
      try (intros [= <-]; by left).
    destruct (create_attempt _ _ _ _) as [backend|e'] eqn:Hat; [done|].
    destruct (is_str _ "mycroft") eqn:Hm; cbn [negb].
    + intros [= <-]. right; left. exists config. split; [done|].
      unfold is_str in Hm.
      destruct (dict_get config "module" (VStr "mycroft")) as [| | |m| | |];
        try done.
      apply String.eqb_eq in Hm as ->. split; [done|].
      unfold create_attempt, resolve in Hat. rewrite Hdefault in Hat.
      exact Hat.
    + intros He. right; right. exists config. split; [done|]. split; [|done].
      intros Heq. rewrite Heq in Hm. cbn [is_str] in Hm.
      by rewrite String.eqb_refl in Hm.
Qed.

(** A configuration whose module is [null]: the default backend. *)
Lemma create_raises_only_witness :
  create nat (fun _ => Raise (OtherError "PluginNotFound" ""))
         (fun n _ => Ok n)
         {[ "stt" := VDict {[ "module" := VNone ]} ]}
  = Ok 1.
Proof.
  pose proof (create_raises_only nat
                (fun _ => Raise (OtherError "PluginNotFound" ""))
                (fun n _ => Ok n)
                {[ "stt" := VDict {[ "module" := VNone ]} ]}) as [H _].
  apply (H {[ "module" := VNone ]} VNone); [reflexivity|reflexivity|].
  intros m. discriminate.
Defined.


(* ===================================================================== *)
(** ** Theorems: every sequence of calls *)
(* ===================================================================== *)

Lemma caller_done_dec (s : system) : {caller_done s} + {¬ caller_done s}.
Proof.
  unfold caller_done. destruct (pc s); [|right; intros [? _]; done..].
  destruct (todo s); [by left|right; intros [_ ?]; done].
Qed.

(** From a state that satisfies the invariant some schedule brings the
    caller through all its calls. *)
Lemma some_schedule_completes transport s :
  invariant transport s → ∃ sched, caller_done (run transport sched s).
Proof.
  induction (step_terminates transport s) as [s _ IH]. intros Hinv.
  destruct (caller_done_dec s) as [Hdone|Hnot]; [by exists []|].
  destruct (progress transport s Hinv Hnot) as (i & s' & Hstep).
  destruct (IH s') as [sched Hsched].
  - by exists i.
  - eapply invariant_step; [done|]. by exists i.
  - exists (i :: sched). cbn [run]. by rewrite Hstep.
Qed.

Lemma stream_start_body_count transport l s :
  pc (stream_start_body transport l s) = at_call
  ∧ todo (stream_start_body transport l s) = todo s
  ∧ length (results (stream_start_body transport l s)) = S (length (results s)).
Proof.
  unfold stream_start_body, create_streaming_thread. cbn [stt set_queue class].
  destruct (class (stt s)); [destruct (negb _)|];
    cbn [pc todo results]; rewrite length_app; cbn [length];
    (split; [done|split; [done|lia]]).
Qed.

Lemma stream_stop_begin_count k s :
  todo (stream_stop_begin k s) = todo s
  ∧ ((pc (stream_stop_begin k s) = joining k
      ∧ results (stream_stop_begin k s) = results s)
     ∨ (pc (stream_stop_begin k s) = at_call
        ∧ length (results (stream_stop_begin k s)) = S (length (results s)))).
Proof.
  unfold stream_stop_begin. destruct (queue (stt s));
    cbn [pc todo results set_caller]; (split; [done|]).
  - by left.
  - right. rewrite length_app. cbn [length]. split; [done|lia].
Qed.

Lemma caller_step_count transport s s' :
  caller_step transport s = Some s' →
  length (results s') + calls_open s' = length (results s) + calls_open s.
Proof.
  assert (Hbody : ∀ l s0 n,
    S (length (results s0) + length (todo s0)) = n →
    length (results (stream_start_body transport l s0))
    + calls_open (stream_start_body transport l s0) = n).
  { intros l s0 n <-. unfold calls_open.
    destruct (stream_start_body_count transport l s0) as (-> & -> & ->). lia. }
  assert (Hbegin : ∀ k s0 n,
    S (length (results s0) + length (todo s0)) = n →
    length (results (stream_stop_begin k s0))
    + calls_open (stream_stop_begin k s0) = n).
  { intros k s0 n <-. unfold calls_open.
    destruct (stream_stop_begin_count k s0) as [-> [[-> ->]|[-> ->]]]; lia. }
  assert (Hret : ∀ r s0 n,
    S (length (results s0) + length (todo s0)) = n →
    length (results (set_caller at_call (todo s0) (results s0 ++ [r]) s0))
    + calls_open (set_caller at_call (todo s0) (results s0 ++ [r]) s0) = n).
  { intros r s0 n <-. unfold calls_open. cbn [set_caller results todo pc].
    rewrite length_app. cbn [length]. lia. }
  unfold caller_step.
  destruct (pc s) as [|k|language] eqn:Hpc.
  - destruct (todo s) as [|c rest] eqn:Htodo; [done|]. intros [= <-].
    unfold calls_open at 2. rewrite Hpc, Htodo. cbn [length].
    destruct c as [language|data| |audio language];
      unfold stream_start_call, stream_data_call, execute_call, stream_stop_call.
    + destruct (stream (stt _)); [apply Hbegin|apply Hbody];
        cbn [set_caller results todo]; lia.
    + destruct (queue (stt _)); [|apply Hret; cbn [set_caller results todo]; lia].
      unfold calls_open. cbn [set_caller results todo pc].
      rewrite length_app. cbn [length]. lia.
    + destruct (stream (stt _)); [apply Hbegin|apply Hret];
        cbn [set_caller results todo]; lia.
    + destruct (stream (stt _)); [apply Hbegin|apply Hret];
        cbn [set_caller results todo]; lia.
  - unfold stream_stop_end.
    destruct (stream (stt s)) as [t|]; [|done].
    destruct (threads s !! t) as [th|]; [|done].
    unfold calls_open at 2. rewrite Hpc.
    destruct (th_state th); try done; intros [= <-].
    + apply Hret. lia.
    + unfold calls_open. destruct k; cbn [results todo pc];
        rewrite ?length_app; cbn [length]; lia.
  - intros [= <-]. unfold calls_open at 2. rewrite Hpc.
    apply Hbody. lia.
Qed.

Lemma worker_step_caller t s s' :
  worker_step t s = Some s' →
  stt s' = stt s ∧ pc s' = pc s ∧ todo s' = todo s ∧ results s' = results s.
Proof.
  unfold worker_step.
  destruct (threads s !! t) as [th|]; [|done].
  destruct (queues s !! th_queue th) as [q|]; [|done].
  destruct (StreamThread_step th q) as [[th' q']|]; [|done].
  by intros [= <-].
Qed.

Lemma step_count transport i s s' :
  thread_step transport i s = Some s' →
  length (results s') + calls_open s' = length (results s) + calls_open s.
Proof.
  destruct i as [|t]; cbn [thread_step].
  - apply caller_step_count.
  - intros (Hstt & Hpc & Htodo & Hres)%worker_step_caller.
    unfold calls_open. by rewrite Hpc, Htodo, Hres.
Qed.

Lemma run_count transport sched : ∀ s,
  length (results (run transport sched s)) + calls_open (run transport sched s)
  = length (results s) + calls_open s.
Proof.
  induction sched as [|i sched IH]; intros s; cbn [run]; [done|].
  destruct (thread_step transport i s) as [s'|] eqn:Hstep; [|apply IH].
  rewrite IH. by eapply step_count.
Qed.

(** X15.  Whatever calls are made on a streaming backend fresh from its
    constructor, in whatever order, with handlers that end (as every
    [audio_handler] does: whatever the generator hands it, it returns or
    raises after finitely many reads and assignments; a handler whose
    transport never comes back is not among them): some schedule brings
    the caller through all the calls; under every schedule, as long as a
    call is left or under way some thread can move, so the threads never
    wait for each other for good; and at every moment the calls made so
    far have each returned or raised exactly once, a call of
    [stream_start] that stops a stream first included. *)
Theorem calls_complete (transport : nat → string → audio_handler)
    (c : streaming_class) (base : STT) (language : string)
    (calls : list call) :
  (∃ sched, caller_done (run transport sched (boot c base language calls)))
  ∧ ∀ sched,
      let s := run transport sched (boot c base language calls) in
      (¬ caller_done s → ∃ i s', thread_step transport i s = Some s')
      ∧ length (results s) + calls_open s = length calls
      ∧ (caller_done s → length (results s) = length calls).
Proof.
  split.
  - apply some_schedule_completes, invariant_boot.
  - intros sched s.
    assert (Hcount : length (results s) + calls_open s = length calls).
    { unfold s. rewrite run_count. unfold calls_open. cbn. lia. }
    split; [|split; [done|]].
    + apply progress. apply invariant_run, invariant_boot.
    + intros [Hpc Htodo]. unfold calls_open in Hcount.
      rewrite Hpc, Htodo in Hcount. cbn [length] in Hcount. lia.
Qed.

(* ===================================================================== *)
(** ** Theorems: the generator of [_get_data] *)
(* ===================================================================== *)

Lemma StreamThread_step_gen_ok th q th' q' :
  StreamThread_step th q = Some (th', q') → gen_ok th → gen_ok th'.
Proof.
  unfold StreamThread_step, gen_ok.
  destruct (th_state th) as [|h|k|e] eqn:Hst; [done| | |done].
  - destruct h as [k|t k| |e].
    + unfold get_data_enter. destruct (th_gen th) eqn:Hg.
      * intros [= <- <-] _. done.
      * intros _ Hne. done.
      * destruct (Queue_task_done q) as [q1|e1]; intros [= <- <-] _; done.
      * intros [= <- <-] _. cbn. by rewrite Hg.
    + intros [= <- <-]. done.
    + intros [= <- <-]. done.
    + intros [= <- <-]. done.
  - unfold get_data_get. destruct (Queue_get q) as [[[d|] q1]|]; [| |done].
    + intros [= <- <-] _. done.
    + intros [= <- <-] _. done.
Qed.

Lemma gen_ok_step transport s s' :
  (∀ t th, threads s !! t = Some th → gen_ok th) →
  step transport s s' →
  ∀ t th, threads s' !! t = Some th → gen_ok th.
Proof.
  intros Hok [[|t0] Hstep]; cbn [thread_step] in Hstep.
  - destruct (caller_step_threads _ _ _ Hstep) as [->|(t1 & q & l & ->)];
      [done|].
    intros t th Hth. apply lookup_app_Some in Hth as [Hth|[_ Hth]].
    + by eapply Hok.
    + apply list_lookup_singleton_Some in Hth as [_ <-]. done.
  - unfold worker_step in Hstep.
    destruct (threads s !! t0) as [th0|] eqn:Hth0; [|done].
    destruct (queues s !! th_queue th0) as [q|]; [|done].
    destruct (StreamThread_step th0 q) as [[th' q']|] eqn:Hs; [|done].
    injection Hstep as <-. cbn [threads]. intros t th Hth.
    destruct (decide (t = t0)) as [->|Hne].
    + rewrite list_lookup_insert_eq in Hth by by eapply lookup_lt_Some.
      injection Hth as <-. eapply StreamThread_step_gen_ok; [done|].
      by eapply Hok.
    + rewrite list_lookup_insert_ne in Hth by done. by eapply Hok.
Qed.

Lemma gen_ok_run transport sched : ∀ s,
  (∀ t th, threads s !! t = Some th → gen_ok th) →
  ∀ t th, threads (run transport sched s) !! t = Some th → gen_ok th.
Proof.
  induction sched as [|i sched IH]; intros s Hok; cbn [run]; [done|].
  destruct (thread_step transport i s) as [s'|] eqn:Hstep; [|by apply IH].
  apply IH. eapply gen_ok_step; [done|]. by exists i.
Qed.

(** X16.  In every state a streaming backend can reach from its
    constructor, under any calls and any schedule, a thread that is
    alive is the thread of the open stream, and what the loop of
    [_get_data] has taken followed by what waits in the queue is what has
    been put, in this order.  When its handler asks for the next chunk,
    the generator does not raise: [task_done] has a task to sign off, and
    the generator is not entered while it runs; it goes to [get], or it
    has ended before and ends the iteration again. *)
Theorem generator_never_raises (transport : nat → string → audio_handler)
    (c : streaming_class) (base : STT) (language : string)
    (calls : list call) (sched : list thread_id) (t : nat)
    (th : StreamThread) (q : Queue) :
  let s := run transport sched (boot c base language calls) in
  threads s !! t = Some th → queues s !! th_queue th = Some q →
  is_alive th = true →
  stream (stt s) = Some t
  ∧ queue (stt s) = Some (th_queue th)
  ∧ th_seen th ++ items q = put_log q
  ∧ (∀ k, th_state th = running (next_chunk k) →
          (∃ th' q', get_data_enter th q = inl (th', q'))
          ∨ get_data_enter th q = inr (StopIteration, th)).
Proof.
  intros s Hth Hq Halive.
  assert (Hinv : invariant transport s) by apply invariant_run, invariant_boot.
  assert (Hok : gen_ok th).
  { eapply (gen_ok_run transport sched (boot c base language calls)); [|done].
    intros t0 th0. done. }
  assert (Ht : stream (stt s) = Some t).
  { destruct (decide (stream (stt s) = Some t)) as [|Hne]; [done|].
    destruct (inv_others _ _ Hinv t th Hth Hne) as [e He].
    unfold is_alive in Halive. by rewrite He in Halive. }
  destruct (inv_stream _ _ Hinv t Ht) as (th0 & q0 & Hth0 & Hq0 & Hsi).
  fold s in Hth0. rewrite Hth in Hth0. injection Hth0 as <-.
  fold s in Hq0. rewrite Hq in Hq0. injection Hq0 as <-.
  split; [done|]. split; [apply (si_queue _ _ _ _ _ Hsi)|].
  split; [apply (si_fifo _ _ _ _ _ Hsi)|].
  intros k Hst. unfold gen_ok in Hok. rewrite Hst in Hok.
  pose proof (si_tasks _ _ _ _ _ Hsi) as Htasks.
  unfold get_data_enter. destruct (th_gen th) eqn:Hg.
  - left. by eexists _, _.
  - done.
  - unfold Queue_task_done.
    destruct (unfinished_tasks q) as [|n]; [lia|]. left. by eexists _, _.
  - by right.
Qed.

(** The thread of a stream that has just been started. *)
Lemma generator_never_raises_witness :
  let s := run upload_all [caller]
               (boot DeepSpeechStreamServerSTT english "en-US"
                     (session [chunk_a])) in
  stream (stt s) = Some 0 ∧ queue (stt s) = Some 1.
Proof.
  intros s.
  destruct (generator_never_raises upload_all DeepSpeechStreamServerSTT
              english "en-US" (session [chunk_a]) [caller] 0
              (Thread_start upload_all 0 (StreamThread_init 1 "en-US"))
              Queue_new)
    as (H1 & H2 & _); [vm_compute; reflexivity..|].
  split; [exact H1|exact H2].
Defined.


(* ===================================================================== *)
(** ** Theorems: one session under two schedules *)
(* ===================================================================== *)

(** X17.  What a session returns does not depend on how the two threads
    are interleaved: on a backend whose thread constructor accepts its
    language, two schedules that bring the caller through [stream_start],
    the chunks and [stream_stop] end with the same results of the calls,
    the same thread object (its text, the items it has taken, the way its
    handler ended) and the same queue, and the text [stream_stop] has
    returned is the text of that thread. *)
Theorem session_result_schedule_independent
    (transport : nat → string → audio_handler)
    (c : streaming_class) (base : STT) (language : string)
    (chunks : list bytes) (sched1 sched2 : list thread_id) :
  thread_accepts (StreamingSTT_init c base language) = true →
  let s1 := run transport sched1 (boot c base language (session chunks)) in
  let s2 := run transport sched2 (boot c base language (session chunks)) in
  caller_done s1 → caller_done s2 →
  results s1 = results s2
  ∧ threads s1 = threads s2
  ∧ queues s1 !! 1 = queues s2 !! 1
  ∧ ∃ th, threads s1 = [th] ∧ last (results s1) = Some (Ok (th_text th)).
Proof.
  intros Hacc s1 s2 Hd1 Hd2.
  destruct (session_state_run transport c base language chunks sched1 Hacc)
    as [_ Hs1].
  destruct (session_state_run transport c base language chunks sched2 Hacc)
    as [_ Hs2].
  destruct (session_state_done _ _ _ _ _ _ Hs1 Hd1)
    as (th1 & q1 & _ & _ & Hth1 & Hq1 & Hr1 & _ & _ & Hres1).
  destruct (session_state_done _ _ _ _ _ _ Hs2 Hd2)
    as (th2 & q2 & _ & _ & Hth2 & Hq2 & Hr2 & _ & _ & Hres2).
  rewrite Hr1 in Hr2. injection Hr2 as <- <-.
  fold s1 in Hth1, Hq1, Hres1. fold s2 in Hth2, Hq2, Hres2.
  rewrite Hres1, Hres2, Hth1, Hth2, Hq1, Hq2.
  split; [done|]. split; [done|]. split; [done|].
  exists th1. split; [done|]. by rewrite last_snoc.
Qed.

Lemma session_result_schedule_independent_witness :
  results (run upload_all caller_first
               (boot DeepSpeechStreamServerSTT english "en-US"
                     (session [chunk_a; chunk_b])))
  = results (run upload_all by_turns
                 (boot DeepSpeechStreamServerSTT english "en-US"
                       (session [chunk_a; chunk_b]))).
Proof.
  refine (proj1 (session_result_schedule_independent upload_all
                   DeepSpeechStreamServerSTT english "en-US"
                   [chunk_a; chunk_b] caller_first by_turns eq_refl _ _)).
  - split; vm_compute; reflexivity.
  - split; vm_compute; reflexivity.
Defined.

(* ===================================================================== *)
(** ** Theorems: [stream_data] *)
(* ===================================================================== *)

(** X18.  [stream_data] in a state a backend can reach from its
    constructor: the call is one step of the caller, which never waits
    and touches neither the backend nor a thread.  While a stream is
    open the chunk goes to the end of the queue the thread of that stream
    reads, and the call returns [None], also when that thread is done
    already.  When the backend holds no queue, as before the first
    [stream_start] and after [stream_stop] has returned, the call raises
    [AttributeError] and puts nothing. *)
Theorem stream_data_reaches_worker (transport : nat → string → audio_handler)
    (c : streaming_class) (base : STT) (language : string)
    (calls : list call) (sched : list thread_id) (data : bytes)
    (rest : list call) :
  let s := run transport sched (boot c base language calls) in
  pc s = at_call → todo s = stream_data data :: rest →
  ∃ s', caller_step transport s = Some s'
        ∧ pc s' = at_call ∧ todo s' = rest
        ∧ stt s' = stt s ∧ threads s' = threads s
        ∧ (∀ t, stream (stt s) = Some t →
             ∃ th, threads s !! t = Some th
                   ∧ queues s'
                     = alter (Queue_put (Some data)) (th_queue th) (queues s)
                   ∧ results s' = results s ++ [Ok None])
        ∧ (queue (stt s) = None →
             queues s' = queues s
             ∧ ∃ msg, results s' = results s ++ [Raise (AttributeError msg)]).
Proof.
  intros s Hpc Htodo.
  assert (Hinv : invariant transport s) by apply invariant_run, invariant_boot.
  unfold caller_step. rewrite Hpc, Htodo. eexists. split; [done|].
  unfold stream_data_call. cbn [set_caller stt results todo queues threads].
  destruct (queue (stt s)) as [q0|] eqn:Hq0;
    cbn [pc todo stt threads queues results set_caller];
    (split; [done|]); (split; [done|]); (split; [done|]); (split; [done|]).
  - split; [|done]. intros t Ht.
    destruct (inv_stream _ _ Hinv t Ht) as (th & q & Hth & Hq & Hsi).
    exists th. split; [done|].
    pose proof (si_queue _ _ _ _ _ Hsi) as Hsq. rewrite Hq0 in Hsq.
    injection Hsq as ->. done.
  - split.
    + intros t Ht.
      destruct (inv_stream _ _ Hinv t Ht) as (th & q & Hth & Hq & Hsi).
      pose proof (si_queue _ _ _ _ _ Hsi) as Hsq. by rewrite Hq0 in Hsq.
    + intros _. split; [done|]. by eexists.
Qed.

(** Before the first [stream_start]. *)
Lemma stream_data_reaches_worker_witness :
  ∃ s', caller_step upload_all
          (boot GoogleCloudStreamingSTT english "en-US" [stream_data chunk_a])
        = Some s'
        ∧ ∃ msg, results s' = [Raise (AttributeError msg)].
Proof.
  destruct (stream_data_reaches_worker upload_all GoogleCloudStreamingSTT
              english "en-US" [stream_data chunk_a] [] chunk_a []
              eq_refl eq_refl)
    as (s' & Hstep & _ & _ & _ & _ & _ & Hnone).
  exists s'. split; [exact Hstep|]. exact (proj2 (Hnone eq_refl)).
Defined.

(* ===================================================================== *)
(** ** Theorems: a language [DeepSpeechStreamThread] refuses *)
(* ===================================================================== *)

Lemma refused_outcomes_snoc (b : bool) (done : list call) (c : call) :
  refused_outcomes b (done ++ [c])
  = refused_outcomes b done
    ++ refused_outcomes (b || existsb is_stream_start done) [c].
Proof.
  revert b. induction done as [|d done IH]; intros b.
  - cbn [app existsb refused_outcomes]. by rewrite orb_false_r.
  - cbn [app existsb]. destruct d as [l|dat| |a l];
      cbn [refused_outcomes is_stream_start]; rewrite IH; cbn [orb app];
      rewrite ?orb_true_r; done.
Qed.

Lemma is_outcome_snoc (b : bool) (done : list call) (c : call)
    (rs : list (result (option string))) (r : result (option string)) :
  Forall2 is_outcome (refused_outcomes b done) rs →
  Forall2 is_outcome
          (refused_outcomes (b || existsb is_stream_start done) [c]) [r] →
  Forall2 is_outcome (refused_outcomes b (done ++ [c])) (rs ++ [r]).
Proof.
  intros Hrs Hr. rewrite refused_outcomes_snoc. by apply Forall2_app.
Qed.

(** The states of a [DeepSpeechStreamServerSTT] whose language is not
    English are closed under the steps of the system. *)
Lemma refused_step transport base calls i s s' :
  startswith (lang base) "en" = false →
  thread_step transport i s = Some s' →
  class (stt s) = DeepSpeechStreamServerSTT →
  lang (streaming_base (stt s)) = lang base →
  threads s = [] → stream (stt s) = None → pc s = at_call →
  (∃ done, calls = done ++ todo s
           ∧ Forall2 is_outcome (refused_outcomes false done) (results s)
           ∧ (existsb is_stream_start done = true ↔ queue (stt s) ≠ None)) →
  class (stt s') = DeepSpeechStreamServerSTT
  ∧ lang (streaming_base (stt s')) = lang base
  ∧ threads s' = [] ∧ stream (stt s') = None ∧ pc s' = at_call
  ∧ ∃ done, calls = done ++ todo s'
            ∧ Forall2 is_outcome (refused_outcomes false done) (results s')
            ∧ (existsb is_stream_start done = true ↔ queue (stt s') ≠ None).
Proof.
  intros Hen Hstep Hclass Hlang Hths Hstream Hpc (done & Hcalls & Hres & Hq).
  destruct i as [|t]; cbn [thread_step] in Hstep.
  2: { unfold worker_step in Hstep. by rewrite Hths in Hstep. }
  unfold caller_step in Hstep. rewrite Hpc in Hstep.
  destruct (todo s) as [|c rest] eqn:Htodo; [done|]. injection Hstep as <-.
  assert (Hdone : calls = (done ++ [c]) ++ rest)
    by (by rewrite <- app_assoc).
  assert (Hex : existsb is_stream_start (done ++ [c])
                = existsb is_stream_start done || is_stream_start c).
  { rewrite existsb_app. cbn [existsb]. by rewrite orb_false_r. }
  destruct c as [l|dat| |a l];
    unfold stream_start_call, stream_data_call, execute_call, stream_stop_call;
    cbn [set_caller stt]; rewrite ?Hstream.
  - unfold stream_start_body, create_streaming_thread.
    cbn [set_caller stt set_queue class streaming_base queues threads todo
         results].
    rewrite Hclass, Hlang, Hen. cbn [negb stt set_queue class streaming_base
      threads pc todo results stream queue].
    repeat (split; [done|]). exists (done ++ [stream_start l]).
    split; [done|]. split.
    + apply is_outcome_snoc; [done|]. cbn [refused_outcomes].
      by repeat constructor.
    + rewrite Hex. cbn [is_stream_start]. rewrite orb_true_r. done.
  - destruct (queue (stt s)) as [q0|] eqn:Hq0;
      cbn [set_caller stt threads pc todo results stream queue class
           streaming_base]; rewrite ?Hq0;
      repeat (split; [done|]); exists (done ++ [stream_data dat]);
      (split; [done|]); rewrite Hex;
      cbn [is_stream_start orb]; rewrite orb_false_r;
      (split; [|done]); (apply is_outcome_snoc; [done|]);
      cbn [orb refused_outcomes].
    + assert (existsb is_stream_start done = true) as -> by (by apply Hq).
      by repeat constructor.
    + destruct (existsb is_stream_start done) eqn:Hd.
      * by destruct (proj1 Hq eq_refl).
      * repeat constructor. cbn [is_outcome]. by eexists.
  - cbn [set_caller stt threads pc todo results stream queue class
         streaming_base].
    repeat (split; [done|]). exists (done ++ [stream_stop]).
    split; [done|]. rewrite Hex.
    cbn [is_stream_start]. rewrite orb_false_r. split; [|done].
    apply is_outcome_snoc; [done|]. cbn [refused_outcomes].
    by repeat constructor.
  - cbn [set_caller stt threads pc todo results stream queue class
         streaming_base].
    repeat (split; [done|]). exists (done ++ [execute a l]).
    split; [done|]. rewrite Hex.
    cbn [is_stream_start]. rewrite orb_false_r. split; [|done].
    apply is_outcome_snoc; [done|]. cbn [refused_outcomes].
    by repeat constructor.
Qed.

(** X19.  A [DeepSpeechStreamServerSTT] whose language does not begin
    with "en" never has a thread.  Under every schedule, whatever calls
    are made: every [stream_start] raises [ValueError], and leaves the
    backend with a queue and without stream; [stream_data] raises
    [AttributeError] before the first [stream_start], and from then on
    returns [None] although nothing will ever read the chunk;
    [stream_stop] and [execute] return [None], never a text. *)
Theorem DeepSpeech_refused_language_outcomes
    (transport : nat → string → audio_handler)
    (base : STT) (language : string) (calls : list call)
    (sched : list thread_id) :
  startswith (lang base) "en" = false →
  let s := run transport sched
               (boot DeepSpeechStreamServerSTT base language calls) in
  threads s = [] ∧ stream (stt s) = None ∧ pc s = at_call
  ∧ (∃ done, calls = done ++ todo s
             ∧ Forall2 is_outcome (refused_outcomes false done) (results s))
  ∧ (caller_done s →
     Forall2 is_outcome (refused_outcomes false calls) (results s)).
Proof.
  intros Hen s.
  assert (Hgen : ∀ sched s0,
    class (stt s0) = DeepSpeechStreamServerSTT →
    lang (streaming_base (stt s0)) = lang base →
    threads s0 = [] → stream (stt s0) = None → pc s0 = at_call →
    (∃ done, calls = done ++ todo s0
             ∧ Forall2 is_outcome (refused_outcomes false done) (results s0)
             ∧ (existsb is_stream_start done = true ↔ queue (stt s0) ≠ None)) →
    let s1 := run transport sched s0 in
    threads s1 = [] ∧ stream (stt s1) = None ∧ pc s1 = at_call
    ∧ ∃ done, calls = done ++ todo s1
              ∧ Forall2 is_outcome (refused_outcomes false done) (results s1)).
  { clear s sched. induction sched as [|i sched IH];
      intros s0 Hc Hl Ht Hs Hp Hd; cbn [run].
    - destruct Hd as (done & ? & ? & _). eauto 10.
    - destruct (thread_step transport i s0) as [s1|] eqn:Hstep;
        [|by apply IH].
      destruct (refused_step transport base calls i s0 s1 Hen Hstep Hc Hl Ht
                  Hs Hp Hd) as (? & ? & ? & ? & ? & ?).
      by apply IH. }
  assert (Hboot : ∃ done,
    calls = done ++ todo (boot DeepSpeechStreamServerSTT base language calls)
    ∧ Forall2 is_outcome (refused_outcomes false done)
              (results (boot DeepSpeechStreamServerSTT base language calls))
    ∧ (existsb is_stream_start done = true
       ↔ queue (stt (boot DeepSpeechStreamServerSTT base language calls))
         ≠ None)).
  { exists []. cbn. split; [done|]. split; [constructor|]. split; done. }
  destruct (Hgen sched (boot DeepSpeechStreamServerSTT base language calls)
              eq_refl eq_refl eq_refl eq_refl eq_refl Hboot)
    as (Hths & Hstream & Hpc & done & Hcalls & Hres).
  fold s in Hths, Hstream, Hpc, Hcalls, Hres.
  split; [done|]. split; [done|]. split; [done|]. split; [eauto|].
  intros [_ Htodo]. rewrite Htodo, app_nil_r in Hcalls. by subst.
Qed.

(** One session on a backend configured for German: the first call
    raises, the others return [None]. *)
Lemma DeepSpeech_refused_language_outcomes_witness :
  Forall2 is_outcome
          [start_refused; returned_none; returned_none; returned_none]
          (results (run upload_all caller_first
                        (boot DeepSpeechStreamServerSTT german "de-DE"
                              (session [chunk_a; chunk_b])))).
Proof.
  apply (DeepSpeech_refused_language_outcomes upload_all german "de-DE"
           (session [chunk_a; chunk_b]) caller_first eq_refl).
  split; vm_compute; reflexivity.
Defined.


(* ===================================================================== *)
(** ** Theorems: [audio_utils] *)
(* ===================================================================== *)

Lemma split_parts_no_sep (sep : ascii) (s : string) :
  Forall (fun e => contains sep e = false) (split sep s).
Proof.
  induction s as [|c s IH]; cbn [split].
  - by constructor.
  - destruct (Ascii.eqb c sep) eqn:Hc.
    + by constructor.
    + destruct (split sep s) as [|p ps].
      * constructor; [|done]. cbn [contains]. by rewrite Hc.
      * inversion IH as [|? ? Hp Hps]; subst. constructor; [|done].
        cbn [contains]. by rewrite Hc, Hp.
Qed.

Lemma get_pulse_environment_cases (os_environ_loaded os_environ : environ)
    (config : pyval) (env : environ) :
  _get_pulse_environment os_environ_loaded os_environ config = Ok env →
  env = os_environ
  ∨ (env = _ENVIRONMENT os_environ_loaded
     ∧ env !! "PULSE_PROP" = Some "media.role=music").
Proof.
  unfold _get_pulse_environment.
  destruct (py_get config "tts" (VDict ∅)) as [tts|e]; [|done].
  cbn [mbind result_bind]. destruct (truthy tts); [|intros [= <-]; by left].
  destruct (py_get tts "pulse_duck" VNone) as [duck|e]; [|done].
  cbn [mbind result_bind]. destruct (truthy duck); intros [= <-]; [|by left].
  right. split; [done|]. unfold _ENVIRONMENT. by rewrite lookup_insert_eq.
Qed.

(** X20.  The arguments [_play_cmd] starts the player with.  Every
    argument is the uri or a piece of the configured command line that
    holds no space and is not [%1]: a uri with spaces in it stays one
    argument, and no [%1] is left (unless the uri is [%1]).  The uri is
    among the arguments when [%1] is a piece of the command line; when it
    is none, as in [file=%1], the command line is run as it is and the
    uri is not handed over.  An environment of the caller that is not
    empty is used as it is; without one, and with an empty one, the
    environment is [os.environ] or the copy of it made for ducking, in
    which [PULSE_PROP] is [media.role=music]. *)
Theorem play_cmd_arguments (container_repr : pyval → string)
    (os_environ_loaded os_environ : environ)
    (cmd : pyval) (uri : string) (config : pyval)
    (environment : option environ) (cmdline : list string) (env : environ) :
  _play_cmd_arguments container_repr os_environ_loaded os_environ
                      cmd uri config environment
  = Ok (cmdline, env) →
  let pieces := split " "%char (py_str container_repr cmd) in
  length cmdline = length pieces
  ∧ Forall (fun e => e = uri ∨ (contains " " e = false ∧ e ≠ "%1")) cmdline
  ∧ (In "%1" pieces → In uri cmdline)
  ∧ (¬ In "%1" pieces → cmdline = pieces)
  ∧ (∀ env0, environment = Some env0 → env0 ≠ ∅ → env = env0)
  ∧ (environment = None ∨ environment = Some ∅ →
     env = os_environ
     ∨ (env = _ENVIRONMENT os_environ_loaded
        ∧ env !! "PULSE_PROP" = Some "media.role=music")).
Proof.
  intros Hargs pieces. unfold _play_cmd_arguments in Hargs.
  assert (Hcmd : cmdline = play_cmdline container_repr cmd uri).
  { destruct environment as [env0|];
      [destruct (bool_decide (env0 = ∅))|];
      repeat match type of Hargs with
             | context [_get_pulse_environment ?a ?b ?c] =>
                 destruct (_get_pulse_environment a b c)
             end; cbn [mbind result_bind] in Hargs; congruence. }
  unfold play_cmdline in Hcmd. fold pieces in Hcmd. cbn zeta in Hcmd.
  pose proof (split_parts_no_sep " " (py_str container_repr cmd)) as Hparts.
  fold pieces in Hparts. clearbody pieces.
  split; [|split; [|split; [|split; [|split]]]].
  - subst cmdline. by rewrite length_map.
  - subst cmdline. apply Forall_map. eapply Forall_impl; [exact Hparts|].
    intros e He. cbn beta. destruct (String.eqb_spec e "%1"); cbn [negb];
      [by left|by right].
  - intros Hin. subst cmdline. apply in_map_iff. exists "%1". done.
  - intros Hnot. subst cmdline. clear Hparts Hargs.
    induction pieces as [|e es IH]; [done|]. cbn [map].
    destruct (String.eqb_spec e "%1") as [->|Hne]; cbn [negb].
    + destruct Hnot. by left.
    + f_equal. apply IH. intros Hin. apply Hnot. by right.
  - intros env0 -> Hne. rewrite bool_decide_eq_false_2 in Hargs by done.
    cbn [mbind result_bind] in Hargs. congruence.
  - intros Hnone.
    assert (Hpulse : _get_pulse_environment os_environ_loaded os_environ config
                     = Ok env).
    { destruct Hnone as [->| ->];
        [|rewrite bool_decide_eq_true_2 in Hargs by done];
        destruct (_get_pulse_environment _ _ config);
        cbn [mbind result_bind] in Hargs; congruence. }
    by eapply get_pulse_environment_cases.
Qed.

(** A file name with a space in it. *)
Lemma play_cmd_arguments_witness :
  Forall (fun e => e = "/tmp/my file.wav"
                   ∨ (contains " " e = false ∧ e ≠ "%1"))
         ["paplay"; "/tmp/my file.wav"; "--stream-name=mycroft-voice"].
Proof.
  refine (proj1 (proj2 (play_cmd_arguments no_repr ∅ ∅ paplay
                          "/tmp/my file.wav" (VDict ∅) None
                          ["paplay"; "/tmp/my file.wav";
                           "--stream-name=mycroft-voice"] ∅ _))).
  vm_compute; reflexivity.
Defined.

(** X21.  The command line a player is started with when the
    configuration names none.  [play_wav] reads its command line before
    its [try] block and raises [KeyError].  [play_mp3] and [play_ogg]
    read theirs as [None] and never raise: what they start, in the
    environment [_play_cmd] chooses, is the program called [None],
    without arguments and without the uri, and they return the process,
    or [None] when the launch fails or no environment can be chosen. *)
Theorem play_without_command_line (container_repr : pyval → string)
    (os_environ_loaded os_environ : environ) (process : Type)
    (Popen : list string → environ → result process)
    (config : gmap string pyval) (uri : string)
    (environment : option environ) :
  let arguments :=
    _play_cmd_arguments container_repr os_environ_loaded os_environ
                        VNone uri (VDict config) environment in
  let started :=
    match arguments with
    | Ok (cmdline, env) =>
        match Popen cmdline env with
        | Ok p => Some p
        | Raise _ => None
        end
    | Raise _ => None
    end in
  (∀ cmdline env, arguments = Ok (cmdline, env) → cmdline = ["None"])
  ∧ (config !! "play_wav_cmdline" = None →
     play_wav container_repr os_environ_loaded os_environ process Popen
              config uri environment
     = Raise (OtherError "KeyError" "play_wav_cmdline"))
  ∧ (config !! "play_mp3_cmdline" = None →
     play_mp3 container_repr os_environ_loaded os_environ process Popen
              config uri environment
     = Ok started)
  ∧ (config !! "play_ogg_cmdline" = None →
     play_ogg container_repr os_environ_loaded os_environ process Popen
              config uri environment
     = Ok started).
Proof.
  intros arguments started.
  assert (Hlaunch : launch container_repr os_environ_loaded os_environ
                      process Popen VNone uri config environment = started).
  { unfold launch, _play_cmd, started. fold arguments.
    destruct arguments as [[cmdline env]|e]; cbn [mbind result_bind fst snd];
      done. }
  split; [|split; [|split]].
  - intros cmdline env. unfold arguments, _play_cmd_arguments.
    destruct (match environment with Some _ => _ | None => _ end);
      cbn [mbind result_bind]; [|done].
    intros [= <- _]. done.
  - intros Hkey. unfold play_wav. cbn [py_getitem]. by rewrite Hkey.
  - intros Hkey. unfold play_mp3, dict_get. rewrite Hkey. by rewrite Hlaunch.
  - intros Hkey. unfold play_ogg, dict_get. rewrite Hkey. by rewrite Hlaunch.
Qed.

(** No command line for mp3 files, and no program called [None]. *)
Lemma play_without_command_line_witness :
  play_mp3 no_repr ∅ ∅ nat no_process ∅ "/tmp/a.mp3" None = Ok None.
Proof.
  refine (eq_trans
            (proj1 (proj2 (proj2 (play_without_command_line no_repr ∅ ∅ nat
                                    no_process ∅ "/tmp/a.mp3" None))) _) _).
  - reflexivity.
  - vm_compute; reflexivity.
Defined.

(** X22.  [play_audio_file] never plays a wav or an mp3 file: for these
    extensions, in any case of the letters, the call raises
    [TypeError].  It returns a process only for the extension [.ogg],
    and the process is the one [Popen] made from the command line
    configured for ogg files, with the uri in the place of each [%1];
    for every other extension it returns [None]. *)
Theorem play_audio_file_outcomes (container_repr : pyval → string)
    (os_environ_loaded os_environ : environ) (process : Type)
    (Popen : list string → environ → result process)
    (splitext : string → string * string)
    (config : gmap string pyval) (uri : string)
    (environment : option environ) :
  let outcome :=
    play_audio_file container_repr os_environ_loaded os_environ process
                    Popen splitext config uri environment in
  let extension := lower (splitext uri).2 in
  (extension = ".wav" ∨ extension = ".mp3" → ∃ msg, outcome = Raise (TypeError msg))
  ∧ (extension ≠ ".wav" → extension ≠ ".mp3" → extension ≠ ".ogg" →
     outcome = Ok None)
  ∧ (∀ p, outcome = Ok (Some p) →
          extension = ".ogg"
          ∧ ∃ env,
              Popen (play_cmdline container_repr
                       (dict_get config "play_ogg_cmdline" VNone) uri) env
              = Ok p).
Proof.
  intros outcome extension. unfold outcome, play_audio_file.
  fold extension. split; [|split].
  - intros [->| ->]; cbn; by eexists.
  - intros Hwav Hmp3 Hogg.
    by rewrite (proj2 (String.eqb_neq _ _) Hwav),
      (proj2 (String.eqb_neq _ _) Hmp3), (proj2 (String.eqb_neq _ _) Hogg).
  - intros p.
    destruct (String.eqb_spec extension ".wav"); [done|].
    destruct (String.eqb_spec extension ".mp3"); [done|].
    destruct (String.eqb_spec extension ".ogg") as [Hogg|]; [|done].
    split; [done|].
    unfold play_ogg, launch, _play_cmd, _play_cmd_arguments in *.
    destruct (match environment with Some _ => _ | None => _ end) as [env|e];
      cbn [mbind result_bind fst snd] in *; [|done].
    exists env. destruct (Popen _ env); congruence.
Qed.

Lemma play_audio_file_outcomes_witness :
  ∃ msg, play_audio_file no_repr ∅ ∅ nat first_process ext_wav ∅
                         "/tmp/a.Wav" None
         = Raise (TypeError msg).
Proof.
  apply (proj1 (play_audio_file_outcomes no_repr ∅ ∅ nat first_process
                  ext_wav ∅ "/tmp/a.Wav" None)).
  left. reflexivity.
Defined.


(* ===================================================================== *)
(** ** Theorems: [BaiduSTT] *)
(* ===================================================================== *)

Lemma py_getitem_Ok (o : pyval) (key : string) (v : pyval) :
  py_getitem o key = Ok v ↔ ∃ d, o = VDict d ∧ d !! key = Some v.
Proof.
  split.
  - destruct o as [| | | | |d|]; cbn [py_getitem]; try done.
    destruct (d !! key) as [x|] eqn:Hx; [|done]. intros [= <-]. eauto.
  - intros (d & -> & Hd). cbn [py_getitem]. by rewrite Hd.
Qed.

(** X23.  [BaiduSTT.__init__] reads its settings with [config[key]]:
    the defaults for [sample_rate] (16000) and [per] (0) stand in for an
    entry that is [null], not for a missing entry.  When construction
    succeeds, the configuration of the module has all of [lang],
    [sample_rate], [per], [dev_pid] and [appid], the credential is a dict
    with [api_key] and [secret_key], and the object holds the configured
    values, the defaults for the [null] ones, and the format [pcm]; a
    configuration without [sample_rate] that has [lang] raises
    [KeyError]. *)
Theorem BaiduSTT_init_requires_entries (Client : Type)
    (AipSpeech : pyval → pyval → pyval → result Client)
    (config_core cfg : gmap string pyval) (base : STT) :
  STT_init config_core = Ok base →
  config base = VDict cfg →
  (∀ self, BaiduSTT_init Client AipSpeech config_core = Ok self →
     ∃ lang rate p pid appid cred api_key secret_key,
       cfg !! "lang" = Some lang ∧ cfg !! "sample_rate" = Some rate
       ∧ cfg !! "per" = Some p ∧ cfg !! "dev_pid" = Some pid
       ∧ cfg !! "appid" = Some appid
       ∧ credential base = VDict cred
       ∧ cred !! "api_key" = Some api_key
       ∧ cred !! "secret_key" = Some secret_key
       ∧ AipSpeech appid api_key secret_key = Ok (client Client self)
       ∧ baidu_lang Client self = lang
       ∧ baidu_sample_rate Client self
         = match rate with VNone => VInt 16000 | _ => rate end
       ∧ per Client self = match p with VNone => VInt 0 | _ => p end
       ∧ dev_pid Client self = pid
       ∧ format Client self = "pcm")
  ∧ (cfg !! "lang" ≠ None → cfg !! "sample_rate" = None →
     BaiduSTT_init Client AipSpeech config_core
     = Raise (OtherError "KeyError" "sample_rate"))
  ∧ (cfg !! "lang" ≠ None → cfg !! "sample_rate" ≠ None →
     cfg !! "per" = None →
     BaiduSTT_init Client AipSpeech config_core
     = Raise (OtherError "KeyError" "per")).
Proof.
  intros Hbase Hcfg. unfold BaiduSTT_init. rewrite Hbase.
  cbn [mbind result_bind]. rewrite Hcfg.
  cbn [mbind result_bind py_getitem]. split; [|split].
  - intros self.
    destruct (cfg !! "lang") as [lang|]; cbn [mbind result_bind]; [|done].
    destruct (cfg !! "sample_rate") as [rate|] eqn:Hrate;
      cbn [mbind result_bind]; [|done].
    assert (Hr : match rate with
                 | VNone => Ok (VInt 16000)
                 | _ => Ok rate
                 end = Ok match rate with VNone => VInt 16000 | _ => rate end)
      by (by destruct rate).
    rewrite Hr. cbn [mbind result_bind].
    destruct (cfg !! "per") as [p|] eqn:Hp; cbn [mbind result_bind]; [|done].
    assert (Hq : match p with
                 | VNone => Ok (VInt 0)
                 | _ => Ok p
                 end = Ok match p with VNone => VInt 0 | _ => p end)
      by (by destruct p).
    rewrite Hq. cbn [mbind result_bind].
    destruct (cfg !! "dev_pid") as [pid|]; cbn [mbind result_bind]; [|done].
    destruct (cfg !! "appid") as [appid|]; cbn [mbind result_bind]; [|done].
    destruct (py_getitem (credential base) "api_key") as [api_key|] eqn:Hk;
      cbn [mbind result_bind]; [|done].
    destruct (py_getitem (credential base) "secret_key") as [secret_key|]
      eqn:Hs; cbn [mbind result_bind]; [|done].
    destruct (AipSpeech appid api_key secret_key) as [cl|] eqn:Hcl;
      cbn [mbind result_bind]; [|done].
    intros [= <-].
    apply py_getitem_Ok in Hk as (cred & Hcred & Hk).
    apply py_getitem_Ok in Hs as (cred' & Hcred' & Hs).
    rewrite Hcred in Hcred'. injection Hcred' as <-.
    exists lang, rate, p, pid, appid, cred, api_key, secret_key.
    cbn. done.
  - intros Hlang Hrate.
    destruct (cfg !! "lang") as [lang|]; [|done]. cbn [mbind result_bind].
    by rewrite Hrate.
  - intros Hlang Hrate Hper.
    destruct (cfg !! "lang") as [lang|]; [|done]. cbn [mbind result_bind].
    destruct (cfg !! "sample_rate") as [rate|] eqn:Hr; [|done].
    cbn [mbind result_bind].
    assert (∃ r, match rate with
                 | VNone => Ok (VInt 16000)
                 | _ => Ok rate
                 end = Ok r) as [r ->] by (destruct rate; eauto).
    cbn [mbind result_bind]. by rewrite Hper.
Qed.

(** A configuration with [per] set to [null] and without [sample_rate]. *)
Lemma BaiduSTT_init_requires_entries_witness :
  BaiduSTT_init nat (fun _ _ _ => Ok 0) baidu_config
  = Raise (OtherError "KeyError" "sample_rate").
Proof.
  assert (Hbase : STT_init baidu_config = Ok baidu_base_sample)
    by (vm_compute; reflexivity).
  destruct (BaiduSTT_init_requires_entries nat (fun _ _ _ => Ok 0)
              baidu_config _ baidu_base_sample Hbase eq_refl) as (_ & H & _).
  apply H; [discriminate|reflexivity].
Defined.

Lemma join_strs_strings (l : list string) :
  join_strs (map VStr l) = Some (foldr String.append "" l).
Proof.
  induction l as [|s l IH]; [done|]. cbn [map join_strs foldr].
  by rewrite IH.
Qed.

(** X24.  What [BaiduSTT.execute] makes of the answer of the service.
    When it returns, it returns a string, never [None].  An answer with
    an error number other than 0 gives the empty string, provided it has
    an error message; without one the call raises [KeyError], as the
    message is read for the log.  An answer with error number 0 whose
    [result] is a list of strings gives these strings joined without
    separator. *)
Theorem BaiduSTT_decode_outcomes (res : pyval) (out : result pyval) :
  BaiduSTT_decode res = Some out →
  (∀ v, out = Ok v → ∃ s, v = VStr s)
  ∧ (∀ body err_no,
       res = VDict body → body !! "err_no" = Some err_no →
       py_eq_int err_no 0 = false →
       (body !! "err_msg" ≠ None → out = Ok (VStr ""))
       ∧ (body !! "err_msg" = None
          → out = Raise (OtherError "KeyError" "err_msg")))
  ∧ (∀ body err_no l,
       res = VDict body → body !! "err_no" = Some err_no →
       py_eq_int err_no 0 = true →
       body !! "result" = Some (VList (map VStr l)) →
       out = Ok (VStr (foldr String.append "" l))).
Proof.
  intros Hdec. split; [|split].
  - intros v ->. unfold BaiduSTT_decode in Hdec.
    destruct (py_getitem res "err_no") as [err_no|]; [|done].
    destruct (py_eq_int err_no 0).
    + destruct (py_getitem res "result") as [r|]; [|done].
      unfold str_join in Hdec.
      destruct r as [| | |s|l|d|]; try done.
      * injection Hdec as <-. eauto.
      * destruct (join_strs l); [|done]. injection Hdec as <-. eauto.
      * destruct (bool_decide (d = ∅)); [|done]. injection Hdec as <-. eauto.
    + destruct (py_getitem res "err_msg"); [|done].
      injection Hdec as <-. eauto.
  - intros body err_no -> Herr Hne. unfold BaiduSTT_decode in Hdec.
    cbn [py_getitem] in Hdec. rewrite Herr, Hne in Hdec.
    destruct (body !! "err_msg"); injection Hdec as <-; split; done.
  - intros body err_no l -> Herr Heq Hres. unfold BaiduSTT_decode in Hdec.
    cbn [py_getitem] in Hdec. rewrite Herr, Heq, Hres in Hdec.
    cbn [str_join] in Hdec. rewrite join_strs_strings in Hdec.
    by injection Hdec as <-.
Qed.

(** An answer with an error number. *)
Lemma BaiduSTT_decode_outcomes_witness :
  BaiduSTT_decode baidu_error = Some (Ok (VStr ""))
  ∧ ∃ s, VStr "" = VStr s.
Proof.
  assert (H : BaiduSTT_decode baidu_error = Some (Ok (VStr "")))
    by (vm_compute; reflexivity).
  split; [exact H|].
  exact (proj1 (BaiduSTT_decode_outcomes baidu_error (Ok (VStr "")) H)
               (VStr "") eq_refl).
Defined.

